(** * The automation run engine: Run entity, action dispatcher, orchestrator

    A shallow embedding of
    - [src/features/run/domain/entity/run.entity.ts] (class [Run]),
    - [RunActionUseCase] ([execute], [fillInputData]), and
    - [RunAutomationUseCase] ([execute], [runAction], [stop], [filter],
      [executePaths]).

    How the code is read:
    - JavaScript objects are mutable and shared by reference; here a [Run] is
      an immutable value and every mutating method returns the run it leaves
      behind.  A lookup that returns a reference into the step tree is
      modelled twice: [getActionOrPathsStep] returns the step,
      [refActionOrPathsStep] returns where it sits ([Loc]); the two are proved
      to agree ([get_ref]).
    - A property may be absent, present with the value [undefined], or
      present with a value ([field]): the code tests ['output' in step] and
      ['error' in step], and [JSON.stringify] drops the second kind.
    - Exceptions are explicit: [result] for the methods of [Run], [outcome]
      for the use cases, whose state (the run, the calls made to the
      repositories) survives a throw.
    - The clock ([new Date()]) and [crypto.randomUUID()] are inputs ([Env]);
      the readings of the clock inside one method are one reading.
    - The collaborators (template binding, filter evaluation, the services
      and integrations, [automation.findPath]) are parameters.  The calls
      [runRepository.update], [runRepository.create] and [sendAlertEmail] are
      recorded in order and do not throw; logging is left out.
    - The recursion of [executePaths] into [execute] is bounded by fuel. *)

From Stdlib Require Import String Ascii List ZArith Bool Arith Lia DecimalString.
From Equations Require Import Equations.
Import ListNotations.
Local Open Scope list_scope.
Local Open Scope string_scope.

Set Implicit Arguments.
Set Warnings "-register-all".

(* ===================================================================== *)
(** * JavaScript values *)
(* ===================================================================== *)

(** JSON-representable values ([Record<string, unknown>], [unknown]).
    An object is its list of own properties in insertion order. *)
Inductive json : Type :=
| JNull
| JBool (b : bool)
| JNum (n : Z)
| JStr (s : string)
| JArr (items : list json)
| JObj (props : list (string * json)).

Definition obj : Type := list (string * json).

(** [o[k]] on an object: the property, or [undefined] ([None]). *)
Fixpoint obj_get (k : string) (o : obj) : option json :=
  match o with
  | [] => None
  | (k', v) :: o' => if k' =? k then Some v else obj_get k o'
  end.

(** [o[k] = v]: overwrite in place, or add as the last property. *)
Fixpoint obj_set (k : string) (v : json) (o : obj) : obj :=
  match o with
  | [] => [(k, v)]
  | (k', v') :: o' => if k' =? k then (k', v) :: o' else (k', v') :: obj_set k v o'
  end.

(** [!!v] *)
Definition truthy (v : json) : bool :=
  match v with
  | JNull => false
  | JBool b => b
  | JNum n => negb (n =? 0)%Z
  | JStr s => negb (s =? "")
  | JArr _ | JObj _ => true
  end.

(** A property of an object literal whose value may be [undefined]:
    ['k' in o] is false for [Absent] only; [o.k] is [undefined] for both
    [Absent] and [Undefined]. *)
Inductive field (A : Type) : Type :=
| Absent
| Undefined
| Value (a : A).
Arguments Absent {A}.
Arguments Undefined {A}.

Definition has_key {A} (f : field A) : bool :=
  match f with Absent => false | _ => true end.

Definition field_value {A} (f : field A) : option A :=
  match f with Value a => Some a | _ => None end.

(** The outcome of a call that may [throw new Error(message)]. *)
Inductive result (A : Type) : Type :=
| Ok (a : A)
| Throw (message : string).
Arguments Throw {A}.

Definition dquote : string := String (ascii_of_nat 34) EmptyString.

(* ===================================================================== *)
(** * Dotted paths: [String.prototype.split] and [Array.prototype.join] *)
(* ===================================================================== *)

Definition dot : ascii := ascii_of_nat 46.

(** [s.split('.')] *)
Fixpoint split (s : string) : list string :=
  match s with
  | EmptyString => [EmptyString]
  | String c s' =>
      if Ascii.eqb c dot then EmptyString :: split s'
      else match split s' with
           | [] => [String c EmptyString]
           | h :: t => String c h :: t
           end
  end.

(** [segments.join('.')] *)
Fixpoint join (segments : list string) : string :=
  match segments with
  | [] => EmptyString
  | [s] => s
  | s :: rest => s ++ String dot (join rest)
  end.

Fixpoint dot_free (s : string) : bool :=
  match s with
  | EmptyString => true
  | String c s' => negb (Ascii.eqb c dot) && dot_free s'
  end.

(* ===================================================================== *)
(** * Steps *)
(* ===================================================================== *)

Definition Time : Type := Z.

(** [IntegrationError | ServiceError]: only [message] is read. *)
Record Error : Type := { message : string }.

(** One declared path of a [split-into-paths] action. *)
Record PathSchema : Type := {
  path_name : string;
  path_filter : json
}.

(** [action.params]: a parameter object, or, for [split-into-paths], the
    declared paths. *)
Inductive ActionParams : Type :=
| Params (p : json)
| PathsParams (paths : list PathSchema).

Record ActionSchema : Type := {
  name : string;
  service : string;
  action : string;
  params : ActionParams
}.

(** The schema kept on a paths step: [{name, service, action}]. *)
Record PathsStepSchema : Type := {
  ps_name : string;
  ps_service : string;
  ps_action : string
}.

Record ActionStep : Type := {
  a_schema : ActionSchema;
  a_startedAt : Time;
  a_finishedAt : option Time;
  a_input : json;
  a_output : field json;
  a_error : field Error
}.

(** [ActionOrPathsStep]: the constructor is the [type] tag
    (['action' | 'paths']).  An action step is the only one with the keys
    [input], [output], [error]; a paths step the only one with [paths]. *)
Inductive Step : Type :=
| SAction (a : ActionStep)
| SPaths (schema : PathsStepSchema) (startedAt : Time)
         (finishedAt : option Time) (paths : list PathStep)
with PathStep : Type :=
| MkPathStep (schema : PathSchema) (input : json) (output : obj)
             (actions : list Step).

Definition p_schema (p : PathStep) : PathSchema :=
  match p with MkPathStep s _ _ _ => s end.
Definition p_input (p : PathStep) : json :=
  match p with MkPathStep _ i _ _ => i end.
Definition p_output (p : PathStep) : obj :=
  match p with MkPathStep _ _ o _ => o end.
Definition p_actions (p : PathStep) : list Step :=
  match p with MkPathStep _ _ _ a => a end.
Definition p_with_actions (p : PathStep) (a : list Step) : PathStep :=
  match p with MkPathStep s i o _ => MkPathStep s i o a end.

(** [step.schema.name] *)
Definition step_name (s : Step) : string :=
  match s with
  | SAction a => name (a_schema a)
  | SPaths sc _ _ _ => ps_name sc
  end.

(** The trigger step, [steps[0]].  It has neither an [input] nor a [paths]
    key (the lookups below rely on this to skip it), only its [output] is
    read. *)
Record TriggerStep : Type := { t_output : json }.

(** [Steps = [TriggerStep, ...ActionOrPathsStep[]]] *)
Record Steps : Type := {
  trigger : TriggerStep;
  actions : list Step
}.

Inductive RunStatus : Type := playing | success | stopped | filtered.

Record Run : Type := {
  automation_id : Z;
  steps : Steps;
  form_id : option Z;
  status : RunStatus;
  id : string;
  createdAt : Time;
  updatedAt : Time;
  toReplay : bool
}.

Definition with_actions (r : Run) (acts : list Step) (now : Time) : Run :=
  {| automation_id := automation_id r;
     steps := {| trigger := trigger (steps r); actions := acts |};
     form_id := form_id r;
     status := status r;
     id := id r;
     createdAt := createdAt r;
     updatedAt := now;
     toReplay := toReplay r |}.

Definition with_status (r : Run) (st : RunStatus) : Run :=
  {| automation_id := automation_id r;
     steps := steps r;
     form_id := form_id r;
     status := st;
     id := id r;
     createdAt := createdAt r;
     updatedAt := updatedAt r;
     toReplay := toReplay r |}.

Definition status_eqb (a b : RunStatus) : bool :=
  match a, b with
  | playing, playing | success, success
  | stopped, stopped | filtered, filtered => true
  | _, _ => false
  end.

(* ===================================================================== *)
(** * List helpers for [find], [findIndex] and in-place updates *)
(* ===================================================================== *)

Fixpoint findIndex {A} (p : A -> bool) (l : list A) : option nat :=
  match l with
  | [] => None
  | x :: l' => if p x then Some 0 else option_map S (findIndex p l')
  end.

Fixpoint update_nth {A} (i : nat) (f : A -> A) (l : list A) {struct l} : list A :=
  match l, i with
  | [], _ => []
  | x :: l', 0 => f x :: l'
  | x :: l', S i' => x :: update_nth i' f l'
  end.

Fixpoint remove_nth {A} (i : nat) (l : list A) {struct l} : list A :=
  match l, i with
  | [], _ => []
  | _ :: l', 0 => l'
  | x :: l', S i' => x :: remove_nth i' l'
  end.

Definition named (n : string) (s : Step) : bool := step_name s =? n.
Definition path_named (n : string) (p : PathStep) : bool :=
  path_name (p_schema p) =? n.

(* ===================================================================== *)
(** * Run: lookup by dotted path *)
(* ===================================================================== *)

(** [getActionOrPathsStep(actionPath, steps?)] on the segments of
    [actionPath].  [top] is [this.steps]; the trigger never matches, so only
    the action-or-paths steps are scanned.  The inner lookup of [actionName]
    is [this.getActionOrPathsStep(actionName)], without [steps]: it scans
    [top] whatever [steps] is. *)
Fixpoint getActionOrPathsStep_segs (top : list Step) (pathSegments : list string)
         (steps : option (list Step)) : result (option Step) :=
  match pathSegments with
  | [] => Ok None
  | actionName :: rest =>
      match rest with
      | [] =>
          Ok (find (named actionName)
                   (match steps with Some l => l | None => top end))
      | pathName :: segments =>
          match find (named actionName) top with
          | None => Ok None
          | Some (SAction _) => Ok None
          | Some (SPaths sc st fin paths as step) =>
              match find (path_named pathName) paths with
              | None => Throw "Path step not found"
              | Some path =>
                  if (0 <? List.length segments)%nat
                  then getActionOrPathsStep_segs top segments
                         (Some (p_actions path))
                  else Ok (Some step)
              end
          end
      end
  end.

Definition getActionOrPathsStep (r : Run) (actionPath : string)
  : result (option Step) :=
  getActionOrPathsStep_segs (actions (steps r)) (split actionPath) None.

Definition getActionOrPathsStepOrThrow (r : Run) (actionPath : string)
  : result Step :=
  match getActionOrPathsStep r actionPath with
  | Throw m => Throw m
  | Ok None => Throw ("Action step " ++ dquote ++ actionPath ++ dquote ++ " not found")
  | Ok (Some step) => Ok step
  end.

(** ** References into the step tree

    A step returned by a lookup is a reference: the callers assign to its
    fields.  A step found by the lookup above sits either in [this.steps]
    or in the [actions] of a path of a paths step of [this.steps]. *)
Inductive Loc : Type :=
| AtTop (i : nat)
| InPath (i j k : nat).

(** The [actions] array of path [j] of the paths step at index [i]. *)
Definition actions_at (top : list Step) (ij : nat * nat) : list Step :=
  match nth_error top (fst ij) with
  | Some (SPaths _ _ _ paths) =>
      match nth_error paths (snd ij) with
      | Some path => p_actions path
      | None => []
      end
  | _ => []
  end.

Definition deref (top : list Step) (l : Loc) : option Step :=
  match l with
  | AtTop i => nth_error top i
  | InPath i j k => nth_error (actions_at top (i, j)) k
  end.

(** [getActionOrPathsStep] returning the reference; [steps], when given, is
    the [actions] array of path [j] of step [i]. *)
Fixpoint refActionOrPathsStep_segs (top : list Step) (pathSegments : list string)
         (steps : option (nat * nat)) : result (option Loc) :=
  match pathSegments with
  | [] => Ok None
  | actionName :: rest =>
      match rest with
      | [] =>
          Ok (match steps with
              | None => option_map AtTop (findIndex (named actionName) top)
              | Some (i, j) =>
                  option_map (InPath i j)
                    (findIndex (named actionName) (actions_at top (i, j)))
              end)
      | pathName :: segments =>
          match findIndex (named actionName) top with
          | None => Ok None
          | Some i =>
              match nth_error top i with
              | Some (SPaths _ _ _ paths) =>
                  match findIndex (path_named pathName) paths with
                  | None => Throw "Path step not found"
                  | Some j =>
                      if (0 <? List.length segments)%nat
                      then refActionOrPathsStep_segs top segments (Some (i, j))
                      else Ok (Some (AtTop i))
                  end
              | _ => Ok None
              end
          end
      end
  end.

Definition refActionOrPathsStep (r : Run) (actionPath : string)
  : result (option Loc) :=
  refActionOrPathsStep_segs (actions (steps r)) (split actionPath) None.

(** Assignment through a reference. *)
Definition update_path_actions (f : list Step -> list Step) (p : PathStep)
  : PathStep :=
  p_with_actions p (f (p_actions p)).

Definition update_paths (j : nat) (f : list Step -> list Step) (s : Step)
  : Step :=
  match s with
  | SPaths sc st fin paths =>
      SPaths sc st fin (update_nth j (update_path_actions f) paths)
  | SAction a => SAction a
  end.

Definition update_at (l : Loc) (f : Step -> Step) (top : list Step)
  : list Step :=
  match l with
  | AtTop i => update_nth i f top
  | InPath i j k => update_nth i (update_paths j (update_nth k f)) top
  end.

(* ===================================================================== *)
(** * Run: the mutating methods *)
(* ===================================================================== *)

Definition newActionStep (schema : ActionSchema) (input : json) (now : Time)
  : Step :=
  SAction {| a_schema := schema;
             a_startedAt := now;
             a_finishedAt := None;
             a_input := input;
             a_output := Undefined;
             a_error := Undefined |}.

(** [startActionStep(actionPath, schema, input)] on the segments of
    [actionPath]; returns the new [this.steps] (without the trigger). *)
Fixpoint startActionStep_segs (schema : ActionSchema) (input : json) (now : Time)
         (top : list Step) (pathSegments : list string) : result (list Step) :=
  match pathSegments with
  | [] => Ok (top ++ [newActionStep schema input now])%list
  | actionName :: rest =>
      match rest with
      | [] => Ok (top ++ [newActionStep schema input now])%list
      | pathName :: segments =>
          match findIndex (named actionName) top with
          | None =>
              Throw ("Action step " ++ dquote ++ actionName ++ dquote ++ " not found")
          | Some i =>
              match nth_error top i with
              | Some (SPaths _ _ _ paths) =>
                  match findIndex (path_named pathName) paths with
                  | None => Throw "Path step not found"
                  | Some j =>
                      if (List.length segments <? 2)%nat
                      then Ok (update_nth i
                                 (update_paths j
                                    (fun acts => (acts ++ [newActionStep schema input now])%list))
                                 top)
                      else startActionStep_segs schema input now top segments
                  end
              | _ => Throw "Action step not found"
              end
          end
      end
  end.

Definition startActionStep (r : Run) (actionPath : string)
           (schema : ActionSchema) (input : json) (now : Time) : result Run :=
  match startActionStep_segs schema input now (actions (steps r)) (split actionPath) with
  | Ok acts => Ok (with_actions r acts now)
  | Throw m => Throw m
  end.

(** [startActionPathsStep(schema, paths)] *)
Definition startActionPathsStep (r : Run) (schema : ActionSchema)
           (paths : list PathStep) (now : Time) : Run :=
  with_actions r
    (actions (steps r) ++
     [SPaths {| ps_name := name schema;
                ps_service := service schema;
                ps_action := action schema |} now None paths])
    now.

(** [if ('output' in step) step.output = output; step.finishedAt = now] *)
Definition finish_with_output (output : json) (now : Time) (s : Step) : Step :=
  match s with
  | SAction a =>
      SAction {| a_schema := a_schema a;
                 a_startedAt := a_startedAt a;
                 a_finishedAt := Some now;
                 a_input := a_input a;
                 a_output := if has_key (a_output a) then Value output
                             else a_output a;
                 a_error := a_error a |}
  | SPaths sc st _ paths => SPaths sc st (Some now) paths
  end.

(** [if ('error' in step) step.error = error; step.finishedAt = now] *)
Definition finish_with_error (error : Error) (now : Time) (s : Step) : Step :=
  match s with
  | SAction a =>
      SAction {| a_schema := a_schema a;
                 a_startedAt := a_startedAt a;
                 a_finishedAt := Some now;
                 a_input := a_input a;
                 a_output := a_output a;
                 a_error := if has_key (a_error a) then Value error
                            else a_error a |}
  | SPaths sc st _ paths => SPaths sc st (Some now) paths
  end.

Definition not_found (actionPath : string) : string :=
  "Action step " ++ dquote ++ actionPath ++ dquote ++ " not found".

(** [successActionStep(actionPath, output)] *)
Definition successActionStep (r : Run) (actionPath : string) (output : json)
           (now : Time) : result Run :=
  match refActionOrPathsStep r actionPath with
  | Throw m => Throw m
  | Ok None => Throw (not_found actionPath)
  | Ok (Some l) =>
      Ok (with_actions r
            (update_at l (finish_with_output output now) (actions (steps r)))
            now)
  end.

(** [filterActionStep(actionPath, result)] *)
Definition filterActionStep (r : Run) (actionPath : string) (res : json)
           (now : Time) : result Run :=
  match status r with
  | playing =>
      match refActionOrPathsStep r actionPath with
      | Throw m => Throw m
      | Ok None => Throw (not_found actionPath)
      | Ok (Some l) =>
          Ok (with_status
                (with_actions r
                   (update_at l (finish_with_output res now) (actions (steps r)))
                   now)
                filtered)
      end
  | _ => Ok r
  end.

(** [stopActionStep(actionPath, error)] *)
Definition stopActionStep (r : Run) (actionPath : string) (error : Error)
           (now : Time) : result Run :=
  match status r with
  | playing | filtered =>
      match refActionOrPathsStep r actionPath with
      | Throw m => Throw m
      | Ok None =>
          Ok (with_status (with_actions r (actions (steps r)) now) stopped)
      | Ok (Some l) =>
          Ok (with_status
                (with_actions r
                   (update_at l (finish_with_error error now) (actions (steps r)))
                   now)
                stopped)
      end
  | _ => Ok r
  end.

(** [runSucceed()] *)
Definition runSucceed (r : Run) : Run :=
  match status r with
  | playing => with_status r success
  | _ => r
  end.

(** [replay()] and [replaying()] *)
Definition replay (r : Run) : Run :=
  {| automation_id := automation_id r; steps := steps r; form_id := form_id r;
     status := status r; id := id r; createdAt := createdAt r;
     updatedAt := updatedAt r; toReplay := true |}.

Definition replaying (r : Run) (now : Time) : Run :=
  {| automation_id := automation_id r; steps := steps r; form_id := form_id r;
     status := playing; id := id r; createdAt := createdAt r;
     updatedAt := now; toReplay := false |}.

(** [removeStep(actionPath)] on the segments of [actionPath]: the new
    [this.steps], or [None] when nothing was spliced out ([_updatedAt] then
    stays).  The trigger (index 0) is skipped by the top-level scan. *)
Fixpoint removeStep_segs (top : list Step) (pathSegments : list string)
  : option (list Step) :=
  match pathSegments with
  | [] => None
  | actionName :: rest =>
      match rest with
      | [] =>
          match findIndex (named actionName) top with
          | Some stepIndex => Some (remove_nth stepIndex top)
          | None => None
          end
      | pathName :: segments =>
          match findIndex (named actionName) top with
          | None => None
          | Some i =>
              match nth_error top i with
              | Some (SPaths _ _ _ paths) =>
                  match findIndex (path_named pathName) paths with
                  | None => None
                  | Some j =>
                      if (List.length segments <? 2)%nat
                      then
                        match segments with
                        | [] => None
                        | actionNameInPath :: _ =>
                            match findIndex (named actionNameInPath)
                                    (actions_at top (i, j)) with
                            | Some actionIndex =>
                                Some (update_nth i
                                        (update_paths j (remove_nth actionIndex))
                                        top)
                            | None => None
                            end
                        end
                      else removeStep_segs top segments
                  end
              | _ => None
              end
          end
      end
  end.

Definition removeStep (r : Run) (actionPath : string) (now : Time) : Run :=
  match removeStep_segs (actions (steps r)) (split actionPath) with
  | Some acts => with_actions r acts now
  | None => r
  end.

(* ===================================================================== *)
(** * Run: the predicates and queries *)
(* ===================================================================== *)

(** [!!step.error] of an element of [path.actions]: a paths step has no
    [error] property. *)
Definition has_error (s : Step) : bool :=
  match s with
  | SAction a => match a_error a with Value _ => true | _ => false end
  | SPaths _ _ _ _ => false
  end.

(** [paths.some((path) => path.actions.some((action) => action.error))] *)
Definition hasPathErrors (paths : list PathStep) : bool :=
  existsb (fun path => existsb has_error (p_actions path)) paths.

Definition field_truthy (f : field json) : bool :=
  match f with Value v => truthy v | _ => false end.

(** [isStepExecuted(actionPath)] *)
Definition isStepExecuted (r : Run) (actionPath : string) : result bool :=
  match getActionOrPathsStep r actionPath with
  | Throw m => Throw m
  | Ok None => Ok false
  | Ok (Some (SAction a)) =>
      if has_key (a_output a) then Ok (field_truthy (a_output a))
      else if has_key (a_error a) then Ok (has_error (SAction a))
      else Ok true
  | Ok (Some (SPaths _ _ _ _)) => Ok true
  end.

(** [isStepExecutedWithSuccess(actionPath)] *)
Definition isStepExecutedWithSuccess (r : Run) (actionPath : string)
  : result bool :=
  match getActionOrPathsStep r actionPath with
  | Throw m => Throw m
  | Ok None => Ok false
  | Ok (Some (SAction a)) =>
      if has_key (a_error a) then Ok (negb (has_error (SAction a)))
      else if has_key (a_output a) then Ok (field_truthy (a_output a))
      else Ok true
  | Ok (Some (SPaths _ _ _ paths)) => Ok (negb (hasPathErrors paths))
  end.

(** [step.output ?? {}] *)
Definition output_or_empty (f : field json) : json :=
  match f with
  | Value JNull => JObj []
  | Value v => v
  | _ => JObj []
  end.

(** One round of the [reduce] in [buildOutput]. *)
Fixpoint buildOutput_step (step : Step) (acc : obj) : obj :=
  match step with
  | SPaths sc _ _ paths =>
      obj_set (ps_name sc)
        (JObj (fold_left
                 (fun acc path =>
                    match path with
                    | MkPathStep schema _ _ acts =>
                        obj_set (path_name schema)
                          (JObj (fold_left (fun acc s => buildOutput_step s acc)
                                   acts []))
                          acc
                    end)
                 paths []))
        acc
  | SAction a => obj_set (name (a_schema a)) (output_or_empty (a_output a)) acc
  end.

Definition buildOutput (steps : list Step) : obj :=
  fold_left (fun acc s => buildOutput_step s acc) steps [].

(** [getStepsOutput()] *)
Definition getStepsOutput (r : Run) : obj :=
  obj_set "trigger" (t_output (trigger (steps r)))
    (buildOutput (actions (steps r))).

(** Size of a step tree, the measure of [getError]. *)
Fixpoint step_size (s : Step) : nat :=
  match s with
  | SAction _ => 1
  | SPaths _ _ _ paths =>
      S (list_sum
           (map (fun p =>
                   match p with
                   | MkPathStep _ _ _ acts => list_sum (map step_size acts)
                   end)
              paths))
  end.

Definition steps_size (l : list Step) : nat := list_sum (map step_size l).

Lemma steps_size_app (l1 l2 : list Step) :
  steps_size (l1 ++ l2) = steps_size l1 + steps_size l2.
Proof.
  unfold steps_size. rewrite map_app, list_sum_app. reflexivity.
Qed.

Lemma steps_size_flat_map (paths : list PathStep) :
  steps_size (flat_map p_actions paths) =
  list_sum (map (fun p => match p with
                          | MkPathStep _ _ _ acts => list_sum (map step_size acts)
                          end) paths).
Proof.
  induction paths as [|p paths IH]; simpl.
  - reflexivity.
  - rewrite steps_size_app, IH. destruct p; reflexivity.
Qed.

(** The local [getError] of [getErrorMessage()]: on a paths step the loop
    returns whatever the recursive call on the flattened actions returns. *)
Equations? getError (steps : list Step) : option Error
  by wf (steps_size steps) lt :=
  getError [] := None;
  getError (SPaths _ _ _ paths :: _) := getError (flat_map p_actions paths);
  getError (SAction a :: rest) with a_error a => {
    | Value e := Some e;
    | _ := getError rest }.
Proof.
  all: try rewrite steps_size_flat_map; unfold steps_size; simpl; lia.
Qed.

(** [getErrorMessage()] *)
Definition getErrorMessage (r : Run) : option string :=
  option_map message (getError (actions (steps r))).

(** [l[l.length - 1]] *)
Definition last_step (l : list Step) : option Step :=
  nth_error l (List.length l - 1).

(** [getLastActionStep()] *)
Definition getLastActionStep (r : Run) : option Step :=
  last_step (actions (steps r)).

(** The local [buildData] of [getLastActionStepData()]: for a paths step,
    one property per path that has a last action, holding that action's
    data.  [lastData] is [buildData] on [path.actions[length - 1]]. *)
Fixpoint buildData (step : Step) : json :=
  match step with
  | SPaths _ _ _ paths =>
      JObj (fold_left
              (fun acc path =>
                 match path with
                 | MkPathStep schema _ _ acts =>
                     match (fix lastData (l : list Step) : option json :=
                              match l with
                              | [] => None
                              | [lastAction] => Some (buildData lastAction)
                              | _ :: l' => lastData l'
                              end) acts with
                     | Some data => obj_set (path_name schema) data acc
                     | None => acc
                     end
                 end)
              paths [])
  | SAction a => output_or_empty (a_output a)
  end.

(** [getLastActionStepData()] *)
Definition getLastActionStepData (r : Run) : json :=
  match getLastActionStep r with
  | None => JObj []
  | Some lastAction => buildData lastAction
  end.

(* ===================================================================== *)
(** * Run: [clone] *)
(* ===================================================================== *)

(** [JSON.parse(JSON.stringify(x))] on a property: a property whose value is
    [undefined] is not written. *)
Definition json_copy_field {A} (f : field A) : field A :=
  match f with Undefined => Absent | _ => f end.

Fixpoint json_copy_step (s : Step) : Step :=
  match s with
  | SAction a =>
      SAction {| a_schema := a_schema a;
                 a_startedAt := a_startedAt a;
                 a_finishedAt := a_finishedAt a;
                 a_input := a_input a;
                 a_output := json_copy_field (a_output a);
                 a_error := json_copy_field (a_error a) |}
  | SPaths sc st fin paths =>
      SPaths sc st fin
        (map (fun p => match p with
                       | MkPathStep schema i o acts =>
                           MkPathStep schema i o (map json_copy_step acts)
                       end) paths)
  end.

Definition json_copy (s : Steps) : Steps :=
  {| trigger := trigger s; actions := map json_copy_step (actions s) |}.

(** [clone()]; [uuid] is what [crypto.randomUUID()] returns. *)
Definition clone (r : Run) (uuid : string) : Run :=
  {| automation_id := automation_id r;
     steps := json_copy (steps r);
     form_id := form_id r;
     status := status r;
     id := uuid;
     createdAt := createdAt r;
     updatedAt := updatedAt r;
     toReplay := false |}.

(* ===================================================================== *)
(** * Effects of the use cases *)
(* ===================================================================== *)

(** A thrown value: an [Error] instance, or anything else (kept as what
    [String(value)] gives). *)
Inductive thrown : Type :=
| ErrorThrown (message : string)
| OtherThrown (text : string).

(** [String(error)] *)
Definition String_of (t : thrown) : string :=
  match t with
  | ErrorThrown m => "Error: " ++ m
  | OtherThrown s => s
  end.

(** What a collaborator's call does: it returns or throws. *)
Inductive returned (A : Type) : Type :=
| Returns (a : A)
| Throws (t : thrown).
Arguments Throws {A}.

(** What the collaborators are asked to do, in order. *)
Inductive Event : Type :=
| Updated (r : Run)                       (* runRepository.update(run) *)
| Created (r : Run)                       (* runRepository.create(run) *)
| AlertEmail (r : Run) (message : string) (* automationRepository.sendAlertEmail *).

(** The run under orchestration, the calls made so far, and how many clock
    readings and UUIDs were consumed. *)
Record World : Type := {
  w_run : Run;
  w_log : list Event;
  w_ticks : nat;
  w_uuids : nat
}.

Inductive outcome (A : Type) : Type :=
| Return (a : A)
| Raise (t : thrown)
| OutOfFuel.
Arguments Raise {A}.
Arguments OutOfFuel {A}.

(** A computation on the world; the world survives an exception. *)
Definition M (A : Type) : Type := World -> outcome A * World.

Definition ret {A} (a : A) : M A := fun w => (Return a, w).
Definition raise {A} (t : thrown) : M A := fun w => (Raise t, w).
Definition bind {A B} (m : M A) (k : A -> M B) : M B :=
  fun w =>
    match m w with
    | (Return a, w') => k a w'
    | (Raise t, w') => (Raise t, w')
    | (OutOfFuel, w') => (OutOfFuel, w')
    end.

Notation "x <- m ;; k" := (bind m (fun x => k))
  (at level 61, m at next level, right associativity).
Notation "m ;;; k" := (bind m (fun _ => k))
  (at level 61, right associativity).

(** [try { m } catch (error) { h error }] *)
Definition try_catch {A} (m : M A) (h : thrown -> M A) : M A :=
  fun w =>
    match m w with
    | (Raise t, w') => h t w'
    | other => other
    end.

Definition get_run : M Run := fun w => (Return (w_run w), w).

Definition set_run (r : Run) : M unit :=
  fun w => (Return tt, {| w_run := r; w_log := w_log w;
                          w_ticks := w_ticks w; w_uuids := w_uuids w |}).

Definition emit (e : Event) : M unit :=
  fun w => (Return tt, {| w_run := w_run w; w_log := w_log w ++ [e];
                          w_ticks := w_ticks w; w_uuids := w_uuids w |}).

(** An external call that returns or throws. *)
Definition external {A} (o : returned A) : M A :=
  match o with
  | Returns a => ret a
  | Throws t => raise t
  end.

(** The clock and the UUID generator: their successive answers. *)
Record Env : Type := {
  clock : nat -> Time;
  uuid : nat -> string
}.

Section Effects.

Variable env : Env.

(** [new Date()] *)
Definition new_Date : M Time :=
  fun w => (Return (clock env (w_ticks w)),
            {| w_run := w_run w; w_log := w_log w;
               w_ticks := S (w_ticks w); w_uuids := w_uuids w |}).

(** [crypto.randomUUID()] *)
Definition randomUUID : M string :=
  fun w => (Return (uuid env (w_uuids w)),
            {| w_run := w_run w; w_log := w_log w;
               w_ticks := w_ticks w; w_uuids := S (w_uuids w) |}).

(** A throwing method of some run. *)
Definition call {A} (r : result A) : M A :=
  match r with
  | Ok a => ret a
  | Throw m => raise (ErrorThrown m)
  end.

(** A mutating method of [run]: on a throw the run is as before. *)
Definition on_run (method : Run -> Time -> result Run) : M unit :=
  now <- new_Date ;;
  r <- get_run ;;
  r' <- call (method r now) ;;
  set_run r'.

(** [await this.runRepository.update(run)] *)
Definition update : M unit := r <- get_run ;; emit (Updated r).

End Effects.

(** [ActionResult]: [{ data }] or [{ error }]. *)
Inductive ActionResult : Type :=
| ResData (data : json)
| ResError (error : Error).

(* ===================================================================== *)
(** * RunActionUseCase: the action dispatcher *)
(* ===================================================================== *)

Module RunActionUseCase.
Section WithCollaborators.

Variable env : Env.
(** [actionRepository.fillSchema(schema, output)]: template binding. *)
Variable fillSchema : json -> obj -> returned json.
(** [runFilterUseCase.execute(filter, run)]: a filter decision object. *)
Variable runFilter : json -> Run -> returned obj.
(** The code, http and database services, given the bound parameters. *)
Variable runService : ActionSchema -> json -> returned json.
(** [app.findConnection(action.account)] found a connection. *)
Variable findConnection : ActionSchema -> bool.
(** [actionRepository.runIntegration(filledAction, connection)] *)
Variable runIntegration : ActionSchema -> json -> returned ActionResult.

(** [fillInputData(inputData, actionPath, action, run)] *)
Definition fillInputData (inputData : json) (actionPath : string)
           (act : ActionSchema) : M json :=
  r <- get_run ;;
  inputDataFilled <- external (fillSchema inputData (getStepsOutput r)) ;;
  on_run env (fun r now => startActionStep r actionPath act inputDataFilled now) ;;;
  update ;;;
  ret inputDataFilled.

(** [{ canContinue: false, error: String(error) }] *)
Definition failed_filter (error : thrown) : obj :=
  [("canContinue", JBool false); ("error", JStr (String_of error))].

(** The [try] block of one round of the loop over [action.params] in the
    [split-into-paths] case: the bound filter and its decision. *)
Definition evalFilter (r : Run) (path : PathSchema) : returned (json * obj) :=
  match fillSchema (path_filter path) (getStepsOutput r) with
  | Returns filter =>
      match runFilter filter r with
      | Returns res => Returns (filter, res)
      | Throws error => Throws error
      end
  | Throws error => Throws error
  end.

(** One round, with its [catch]: the entry pushed on [pathsSteps]. *)
Definition evalPath (r : Run) (path : PathSchema) : PathStep :=
  match evalFilter r path with
  | Returns (filter, res) => MkPathStep path filter res []
  | Throws error => MkPathStep path (path_filter path) (failed_filter error) []
  end.

(** [paths[path.name] = ...] over the rounds. *)
Definition pathsData (pathsSteps : list PathStep) : obj :=
  fold_left
    (fun paths p => obj_set (path_name (p_schema p)) (JObj (p_output p)) paths)
    pathsSteps [].

(** The [split-into-paths] case. *)
Definition splitIntoPaths (act : ActionSchema) (declared : list PathSchema)
  : M json :=
  r <- get_run ;;
  let pathsSteps := map (evalPath r) declared in
  on_run env (fun r now => Ok (startActionPathsStep r act pathsSteps now)) ;;;
  update ;;;
  ret (JObj (pathsData pathsSteps)).

Definition params_json (act : ActionSchema) : json :=
  match params act with
  | Params p => p
  | PathsParams _ => JNull
  end.

(** [action.params ?? {}] *)
Definition params_or_empty (act : ActionSchema) : json :=
  match params_json act with
  | JNull => JObj []
  | p => p
  end.

Definition declared_paths (act : ActionSchema) : list PathSchema :=
  match params act with
  | PathsParams ps => ps
  | Params _ => []
  end.

(** [throw new Error(`Unhandled case: ${_exhaustiveCheck}`)], without the
    interpolated action. *)
Definition unhandled {A} : M A := raise (ErrorThrown "Unhandled case").

(** The [switch] of [execute]; [inr] is the early [return] of the
    integration case. *)
Definition dispatch (act : ActionSchema) (actionPath : string)
  : M (json + ActionResult) :=
  if service act =? "code" then
    if (action act =? "run-typescript") || (action act =? "run-javascript")
    then p <- fillInputData (params_json act) actionPath act ;;
         data <- external (runService act p) ;;
         ret (inl data)
    else unhandled
  else if service act =? "http" then
    if (action act =? "get") || (action act =? "post")
    then p <- fillInputData (params_json act) actionPath act ;;
         data <- external (runService act p) ;;
         ret (inl data)
    else if action act =? "response"
    then data <- fillInputData (params_or_empty act) actionPath act ;;
         ret (inl data)
    else unhandled
  else if service act =? "filter" then
    if action act =? "only-continue-if"
    then p <- fillInputData (params_json act) actionPath act ;;
         r <- get_run ;;
         data <- external (runFilter p r) ;;
         ret (inl (JObj data))
    else if action act =? "split-into-paths"
    then data <- splitIntoPaths act (declared_paths act) ;;
         ret (inl data)
    else unhandled
  else if service act =? "database" then
    if action act =? "create-record"
    then p <- fillInputData (params_json act) actionPath act ;;
         data <- external (runService act p) ;;
         ret (inl data)
    else unhandled
  else
    if findConnection act
    then p <- fillInputData (params_or_empty act) actionPath act ;;
         res <- external (runIntegration act p) ;;
         ret (inr res)
    else raise (ErrorThrown "Connection not found").

(** [execute(app, action, run, actionPath)] *)
Definition execute (act : ActionSchema) (actionPath : string)
  : M ActionResult :=
  try_catch
    (d <- dispatch act actionPath ;;
     match d with
     | inl data => ret (ResData (if truthy data then data else JObj []))
     | inr res => ret res
     end)
    (fun error =>
       match error with
       | ErrorThrown m => ret (ResError {| message := m |})
       | OtherThrown _ => ret (ResError {| message := "Unknown error" |})
       end).

End WithCollaborators.
End RunActionUseCase.

(* ===================================================================== *)
(** * RunAutomationUseCase: the orchestrator *)
(* ===================================================================== *)

(** [n.toString()] for an array index. *)
Definition index_key (n : nat) : string :=
  NilZero.string_of_uint (Nat.to_uint n).

Fixpoint indexed (i : nat) (l : list json) : obj :=
  match l with
  | [] => []
  | v :: l' => (index_key i, v) :: indexed (S i) l'
  end.

Fixpoint chars (s : string) : list json :=
  match s with
  | EmptyString => []
  | String c s' => JStr (String c EmptyString) :: chars s'
  end.

(** [{ ...v }]: the own enumerable properties of [v]. *)
Definition spread (v : json) : obj :=
  match v with
  | JObj o => o
  | JArr l => indexed 0 l
  | JStr s => indexed 0 (chars s)
  | JNull | JBool _ | JNum _ => []
  end.

(** [{ ...data[i], index: i + 1 }] *)
Definition with_index (d : json) (i : nat) : json :=
  JObj (obj_set "index" (JNum (Z.of_nat i + 1)) (spread d)).

(** ['canContinue' in data]: a [TypeError] on a primitive. *)
Definition in_canContinue (data : json) : result bool :=
  match data with
  | JObj o => Ok (match obj_get "canContinue" o with Some _ => true | None => false end)
  | JArr _ => Ok false
  | _ => Throw "Cannot use 'in' operator to search for 'canContinue'"
  end.

(** [v[k]] for a property name that is neither an index nor built in. *)
Definition get_prop (v : json) (k : string) : option json :=
  match v with
  | JObj o => obj_get k o
  | _ => None
  end.

(** [result && typeof result === 'object' && 'canContinue' in result &&
    result.canContinue === true] *)
Definition canContinue_true (res : option json) : bool :=
  match res with
  | Some (JObj o) =>
      match obj_get "canContinue" o with
      | Some (JBool true) => true
      | _ => false
      end
  | _ => false
  end.

(** [path.output.canContinue === false] *)
Definition canContinue_false (p : PathStep) : bool :=
  match obj_get "canContinue" (p_output p) with
  | Some (JBool false) => true
  | _ => false
  end.

(** [pathError instanceof Error ? pathError.message : String(pathError)] *)
Definition message_of (t : thrown) : string :=
  match t with
  | ErrorThrown m => m
  | OtherThrown s => s
  end.

Module RunAutomationUseCase.
Section WithCollaborators.

Variable env : Env.
(** [this.runActionUseCase.execute(app, action, run, actionPath)] *)
Variable runActionUseCase : ActionSchema -> string -> M ActionResult.
(** The automation: [automation.schema.name], [automation.actions] and
    [automation.findPath(pathName).actions]. *)
Variable automation_name : string.
Variable automation_actions : list ActionSchema.
Variable findPath : string -> returned (list ActionSchema).

(** [stop(run, automation, actionPath, error)] *)
Definition stop (actionPath : string) (error : Error) : M unit :=
  on_run env (fun r now => stopActionStep r actionPath error now) ;;;
  update ;;;
  r <- get_run ;;
  emit (AlertEmail r
          ("action " ++ dquote ++ actionPath ++ dquote ++
           " stopped with error: " ++ message error)).

(** [filter(run, actionPath, data)] *)
Definition filter (actionPath : string) (data : json) : M unit :=
  on_run env (fun r now => filterActionStep r actionPath data now) ;;;
  update.

(** The loop of the fan-out branch, from index [i] on. *)
Fixpoint fanOut (actionPath : string) (data : list json) (i : nat) : M unit :=
  match data with
  | [] => ret tt
  | d :: rest =>
      let item := with_index d i in
      (if (i =? 0)%nat
       then
         on_run env (fun r now => successActionStep r actionPath item now) ;;;
         update
       else
         r <- get_run ;;
         u <- randomUUID env ;;
         now <- new_Date env ;;
         newRun <- call (successActionStep (clone r u) actionPath item now) ;;
         emit (Created newRun)) ;;;
      fanOut actionPath rest (S i)
  end.

Section Body.

(** The recursive [this.execute(app, run, automation, pathName)]. *)
Variable execute : string -> M unit.

(** The loop of [executePaths]; [failure] is [pathFailureError]. *)
Fixpoint executePaths_loop (schema_name : string) (data : json)
         (pathName : string) (declared : list PathSchema)
         (failure : option string) : M (option string) :=
  match declared with
  | [] => ret failure
  | path :: rest =>
      let nextPathName :=
        ((if pathName =? "" then "" else pathName ++ ".") ++
         schema_name ++ "." ++ path_name path)%string in
      if canContinue_true (get_prop data (path_name path))
      then
        failure' <-
          try_catch
            (execute nextPathName ;;; ret failure)
            (fun error =>
               ret (match failure with
                    | Some m => Some m
                    | None =>
                        Some (match error with
                              | ErrorThrown m => "Path failure: " ++ m
                              | OtherThrown _ => "Path failure: Unknown error"
                              end)
                    end)) ;;
        executePaths_loop schema_name data pathName rest failure'
      else executePaths_loop schema_name data pathName rest failure
  end.

(** [executePaths(app, run, automation, schema, data, pathName)] *)
Definition executePaths (schema : ActionSchema) (data : json)
           (pathName : string) : M unit :=
  failure <- executePaths_loop (name schema) data pathName
               (RunActionUseCase.declared_paths schema) None ;;
  match failure with
  | Some m => raise (ErrorThrown m)
  | None => ret tt
  end.

(** What [runAction] does with the paths step once the paths ran. *)
Definition afterPaths (actionPath : string) (data : json) (paths : list PathStep)
  : M bool :=
  if forallb canContinue_false paths
  then filter actionPath data ;;; ret false
  else if hasPathErrors paths
  then
    match find (fun path => existsb has_error (p_actions path)) paths with
    | Some failedPath =>
        match find has_error (p_actions failedPath) with
        | Some (SAction failedAction) =>
            match a_error failedAction with
            | Value e =>
                stop actionPath
                  {| message := "Path failure in multi-step execution: " ++ message e |} ;;;
                ret false
            | _ =>
                stop actionPath {| message := "Path failure in multi-step execution" |} ;;;
                ret false
            end
        | _ =>
            stop actionPath {| message := "Path failure in multi-step execution" |} ;;;
            ret false
        end
    | None =>
        stop actionPath {| message := "Path failure in multi-step execution" |} ;;;
        ret false
    end
  else ret true.

(** [runAction(app, run, automation, action, pathName)] *)
Definition runAction (act : ActionSchema) (pathName : string) : M bool :=
  let actionPath :=
    (if pathName =? "" then name act else pathName ++ "." ++ name act)%string in
  res <- runActionUseCase act actionPath ;;
  match res with
  | ResError error => stop actionPath error ;;; ret false
  | ResData data =>
      filtered_out <-
        (if service act =? "filter"
         then has <- call (in_canContinue data) ;;
              ret (has && negb (match get_prop data "canContinue" with
                                | Some v => truthy v
                                | None => false
                                end))
         else ret false) ;;
      if filtered_out : bool
      then filter actionPath data ;;; ret false
      else
        match data with
        | JArr items =>
            match items with
            | [] => filter actionPath data ;;; ret false
            | _ => fanOut actionPath items 0 ;;; ret true
            end
        | _ =>
            on_run env (fun r now => successActionStep r actionPath data now) ;;;
            update ;;;
            if (service act =? "filter") && (action act =? "split-into-paths")
            then
              pathsRan <-
                try_catch
                  (executePaths act data pathName ;;; ret true)
                  (fun pathError =>
                     stop actionPath
                       {| message := "Path failure in multi-step execution: " ++
                                     message_of pathError |} ;;;
                     ret false) ;;
              if pathsRan : bool
              then
                r <- get_run ;;
                step <- call (getActionOrPathsStep r actionPath) ;;
                match step with
                | Some (SPaths _ _ _ paths) => afterPaths actionPath data paths
                | _ => ret true
                end
              else ret false
            else ret true
        end
  end.

(** The loop over [path.actions] of [execute] with a [pathName]. *)
Fixpoint pathLoop (pathName : string) (acts : list ActionSchema) : M unit :=
  match acts with
  | [] => ret tt
  | act :: rest =>
      let actionPath := pathName ++ "." ++ name act in
      r <- get_run ;;
      done <- call (isStepExecutedWithSuccess r actionPath) ;;
      if done : bool
      then pathLoop pathName rest
      else
        on_run env (fun r now => Ok (removeStep r (name act) now)) ;;;
        shouldContinue <- runAction act pathName ;;
        if shouldContinue : bool then pathLoop pathName rest else ret tt
  end.

(** The loop over [automation.actions]; returns [allActionsSucceeded].
    [rerun] is the special handling of a [split-into-paths] step with
    path errors, which removes the step and dispatches it again as the
    ordinary branch does for a step that did not succeed. *)
Fixpoint topLoop (acts : list ActionSchema) : M bool :=
  match acts with
  | [] => ret true
  | act :: rest =>
      r <- get_run ;;
      rerun <-
        (if (service act =? "filter") && (action act =? "split-into-paths")
         then
           step <- call (getActionOrPathsStep r (name act)) ;;
           ret (match step with
                | Some (SPaths _ _ _ paths) => hasPathErrors paths
                | _ => false
                end)
         else ret false) ;;
      skip <-
        (if rerun : bool then ret false
         else call (isStepExecutedWithSuccess r (name act))) ;;
      if skip : bool
      then topLoop rest
      else
        on_run env (fun r now => Ok (removeStep r (name act) now)) ;;;
        shouldContinue <- runAction act "" ;;
        if shouldContinue : bool then topLoop rest else ret false
  end.

(** The body of [execute(app, run, automation, pathName)]. *)
Definition execute_body (pathName : string) : M unit :=
  try_catch
    (if pathName =? ""
     then
       match automation_actions with
       | [] =>
           r <- get_run ;;
           set_run (runSucceed r) ;;;
           update
       | _ =>
           allActionsSucceeded <- topLoop automation_actions ;;
           if allActionsSucceeded : bool
           then
             r <- get_run ;;
             set_run (runSucceed r) ;;;
             update
           else
             r <- get_run ;;
             (if status_eqb (status r) filtered
              then ret tt
              else on_run env
                     (fun r now =>
                        stopActionStep r "execution"
                          {| message := "Automation stopped due to action failure" |}
                          now)) ;;;
             update
       end
     else
       acts <- external (findPath pathName) ;;
       pathLoop pathName acts)
    (fun error =>
       match error with
       | ErrorThrown m =>
           if pathName =? ""
           then
             on_run env
               (fun r now => stopActionStep r "execution" {| message := m |} now) ;;;
             update ;;;
             r <- get_run ;;
             emit (AlertEmail r
                     ("automation " ++ dquote ++ automation_name ++ dquote ++
                      " failed: " ++ m))
           else raise error
       | OtherThrown _ => raise error
       end).

End Body.

(** [execute(app, run, automation, pathName)]; [pathName] is [""] when
    it is not given.  The recursion of [executePaths] into [execute] is
    bounded by [fuel]. *)
Fixpoint execute (fuel : nat) (pathName : string) : M unit :=
  match fuel with
  | 0 => fun w => (OutOfFuel, w)
  | S fuel' => execute_body (execute fuel') pathName
  end.

End WithCollaborators.
End RunAutomationUseCase.

(* ===================================================================== *)
(** * Dotted paths: splitting and joining *)
(* ===================================================================== *)

Lemma split_not_nil (s : string) : split s <> [].
Proof.
  destruct s as [|c s]; simpl; [discriminate|].
  destruct (Ascii.eqb c dot); [discriminate|].
  destruct (split s); discriminate.
Qed.

(** A name without a dot is its own single segment. *)
Lemma split_dot_free (s : string) : dot_free s = true -> split s = [s].
Proof.
  induction s as [|c s IH]; simpl; intros H; [reflexivity|].
  apply andb_prop in H. destruct H as [Hc Hs].
  apply negb_true_iff in Hc. rewrite Hc, (IH Hs). reflexivity.
Qed.

Lemma split_app_dot (a rest : string) :
  dot_free a = true -> split (a ++ String dot rest) = a :: split rest.
Proof.
  induction a as [|c a IH]; simpl; intros H.
  - reflexivity.
  - apply andb_prop in H. destruct H as [Hc Ha].
    apply negb_true_iff in Hc. rewrite Hc, (IH Ha). reflexivity.
Qed.

(** [segments.join('.').split('.')] gives the segments back: the recursive
    calls of the lookups, which join the remaining segments and split them
    again, see the same segments. *)
Lemma split_join (segments : list string) :
  segments <> [] -> forallb dot_free segments = true ->
  split (join segments) = segments.
Proof.
  induction segments as [|a rest IH]; intros Hne Hdf; [congruence|].
  simpl in Hdf. apply andb_prop in Hdf. destruct Hdf as [Ha Hrest].
  destruct rest as [|b rest'].
  - simpl. apply split_dot_free. exact Ha.
  - change (join (a :: b :: rest')) with (a ++ String dot (join (b :: rest'))).
    rewrite split_app_dot by exact Ha.
    rewrite IH; [reflexivity | discriminate | exact Hrest].
Qed.

Lemma split_segments_dot_free (s : string) : forallb dot_free (split s) = true.
Proof.
  induction s as [|c s IH]; simpl; [reflexivity|].
  destruct (Ascii.eqb c dot) eqn:Hc; simpl.
  - exact IH.
  - destruct (split s) as [|h t]; simpl in *.
    + rewrite Hc. reflexivity.
    + rewrite Hc. simpl. exact IH.
Qed.

(** The recursive calls of [getActionOrPathsStep], [startActionStep] and
    [removeStep] pass [segments.join('.')], which the callee splits again:
    it sees [segments]. *)
Lemma rejoin_segments (actionPath a p : string) (segments : list string) :
  split actionPath = a :: p :: segments -> segments <> [] ->
  split (join segments) = segments.
Proof.
  intros Hsplit Hne. apply split_join; [exact Hne|].
  pose proof (split_segments_dot_free actionPath) as H.
  rewrite Hsplit in H. simpl in H.
  apply andb_prop in H. destruct H as [_ H].
  apply andb_prop in H. destruct H as [_ H]. exact H.
Qed.

(* ===================================================================== *)
(** * Lookups: the step and its reference agree *)
(* ===================================================================== *)

Lemma find_findIndex {A} (p : A -> bool) (l : list A) :
  find p l = match findIndex p l with
             | Some i => nth_error l i
             | None => None
             end.
Proof.
  induction l as [|x l IH]; simpl; [reflexivity|].
  destruct (p x); [reflexivity|].
  rewrite IH. destruct (findIndex p l); reflexivity.
Qed.

Lemma findIndex_Some {A} (p : A -> bool) (l : list A) (i : nat) :
  findIndex p l = Some i ->
  exists x, nth_error l i = Some x /\ p x = true.
Proof.
  revert i. induction l as [|x l IH]; simpl; intros i H; [discriminate|].
  destruct (p x) eqn:Hp.
  - injection H as <-. exists x. split; [reflexivity | exact Hp].
  - destruct (findIndex p l) as [k|]; simpl in H; [|discriminate].
    injection H as <-. simpl. apply IH. reflexivity.
Qed.

Lemma findIndex_None {A} (p : A -> bool) (l : list A) :
  findIndex p l = None -> forall x, In x l -> p x = false.
Proof.
  induction l as [|y l IH]; simpl; intros H x Hin; [contradiction|].
  destruct (p y) eqn:Hp; [discriminate|].
  destruct (findIndex p l); [discriminate|].
  destruct Hin as [<-|Hin]; [exact Hp | apply IH; [reflexivity | exact Hin]].
Qed.

(** Induction over a dotted path, two segments at a time. *)
Lemma segments_ind (P : list string -> Prop) :
  P [] -> (forall a, P [a]) ->
  (forall a p segments, P segments -> P (a :: p :: segments)) ->
  forall segments, P segments.
Proof.
  intros H0 H1 H2.
  assert (H : forall segments, P segments /\ forall a, P (a :: segments)).
  { induction segments as [|b l [IHa IHb]].
    - split; [exact H0 | exact H1].
    - split; [apply IHb | intros a; apply H2; exact IHa]. }
  intros segments. apply H.
Qed.

Definition deref_result (top : list Step) (r : result (option Loc))
  : result (option Step) :=
  match r with
  | Ok (Some l) => Ok (deref top l)
  | Ok None => Ok None
  | Throw m => Throw m
  end.

Lemma get_ref_segs (top : list Step) (pathSegments : list string) :
  forall ctx : option (nat * nat),
    getActionOrPathsStep_segs top pathSegments (option_map (actions_at top) ctx) =
    deref_result top (refActionOrPathsStep_segs top pathSegments ctx).
Proof.
  induction pathSegments as [|a|a p segments IH] using segments_ind; intros ctx.
  - reflexivity.
  - simpl. destruct ctx as [[i j]|]; simpl.
    + rewrite find_findIndex.
      destruct (findIndex (named a) (actions_at top (i, j))); reflexivity.
    + rewrite find_findIndex.
      destruct (findIndex (named a) top); reflexivity.
  - simpl. rewrite find_findIndex.
    destruct (findIndex (named a) top) as [i|]; [|reflexivity].
    destruct (nth_error top i) as [[act|sc st fin paths]|] eqn:Hi; try reflexivity.
    rewrite find_findIndex.
    destruct (findIndex (path_named p) paths) as [j|] eqn:Hj; [|reflexivity].
    destruct (nth_error paths j) as [path|] eqn:Hpath.
    + destruct (0 <? List.length segments)%nat.
      * rewrite <- (IH (Some (i, j))). simpl.
        unfold actions_at. simpl. rewrite Hi, Hpath. reflexivity.
      * simpl. rewrite Hi. reflexivity.
    + apply findIndex_Some in Hj. destruct Hj as [x [Hx _]]. congruence.
Qed.

(** [getActionOrPathsStep] returns the step its reference points to. *)
Lemma get_ref (r : Run) (actionPath : string) :
  getActionOrPathsStep r actionPath =
  deref_result (actions (steps r)) (refActionOrPathsStep r actionPath).
Proof.
  unfold getActionOrPathsStep, refActionOrPathsStep.
  apply (get_ref_segs (actions (steps r)) (split actionPath) None).
Qed.

Lemma ref_deref_segs (top : list Step) (pathSegments : list string) :
  forall ctx l,
    refActionOrPathsStep_segs top pathSegments ctx = Ok (Some l) ->
    exists s, deref top l = Some s.
Proof.
  induction pathSegments as [|a|a p segments IH] using segments_ind;
    intros ctx l H; simpl in H.
  - discriminate.
  - destruct ctx as [[i j]|].
    + destruct (findIndex (named a) (actions_at top (i, j))) as [k|] eqn:Hk;
        simpl in H; [|discriminate].
      injection H as <-. apply findIndex_Some in Hk.
      destruct Hk as [x [Hx _]]. exists x. exact Hx.
    + destruct (findIndex (named a) top) as [k|] eqn:Hk; simpl in H; [|discriminate].
      injection H as <-. apply findIndex_Some in Hk.
      destruct Hk as [x [Hx _]]. exists x. exact Hx.
  - destruct (findIndex (named a) top) as [i|] eqn:Hi; [|discriminate].
    destruct (nth_error top i) as [[act|sc st fin paths]|] eqn:Hn; try discriminate.
    destruct (findIndex (path_named p) paths) as [j|]; [|discriminate].
    destruct (0 <? List.length segments)%nat.
    + apply (IH _ _ H).
    + injection H as <-. simpl. rewrite Hn. eauto.
Qed.

(** A lookup that finds nothing, by step or by reference. *)
Lemma get_None_ref (r : Run) (actionPath : string) :
  getActionOrPathsStep r actionPath = Ok None ->
  refActionOrPathsStep r actionPath = Ok None.
Proof.
  rewrite get_ref. unfold refActionOrPathsStep.
  destruct (refActionOrPathsStep_segs (actions (steps r)) (split actionPath) None)
    as [[l|]|m] eqn:H; simpl; intros E; try congruence.
  apply ref_deref_segs in H. destruct H as [s Hs]. congruence.
Qed.

(* ===================================================================== *)
(** * The status state machine *)
(* ===================================================================== *)

(** The three operations that change the status, with their arguments. *)
Inductive StatusOp : Type :=
| OpFilter (actionPath : string) (res : json) (now : Time)
| OpStop (actionPath : string) (error : Error) (now : Time)
| OpSucceed.

Definition apply_op (r : Run) (op : StatusOp) : result Run :=
  match op with
  | OpFilter p res now => filterActionStep r p res now
  | OpStop p error now => stopActionStep r p error now
  | OpSucceed => Ok (runSucceed r)
  end.

(** A sequence of operations on one run; an operation that throws leaves
    the run as it was. *)
Fixpoint apply_ops (r : Run) (ops : list StatusOp) : Run :=
  match ops with
  | [] => r
  | op :: ops' =>
      apply_ops (match apply_op r op with Ok r' => r' | Throw _ => r end) ops'
  end.

(** The only moves of the status: which operation, from where, to where. *)
Inductive moves : StatusOp -> RunStatus -> RunStatus -> Prop :=
| move_filter p res now : moves (OpFilter p res now) playing filtered
| move_stop_playing p e now : moves (OpStop p e now) playing stopped
| move_stop_filtered p e now : moves (OpStop p e now) filtered stopped
| move_succeed : moves OpSucceed playing success.

Lemma filterActionStep_status (r : Run) (p : string) (res : json) (now : Time) :
  match filterActionStep r p res now with
  | Ok r' => (status r = playing /\ status r' = filtered) \/
             (status r <> playing /\ r' = r)
  | Throw _ => status r = playing
  end.
Proof.
  unfold filterActionStep.
  destruct (status r) eqn:Hs;
    try (right; split; [discriminate | reflexivity]).
  destruct (refActionOrPathsStep r p) as [[l|]|m]; simpl; auto.
Qed.

Lemma stopActionStep_status (r : Run) (p : string) (e : Error) (now : Time) :
  match stopActionStep r p e now with
  | Ok r' => ((status r = playing \/ status r = filtered) /\ status r' = stopped) \/
             ((status r = success \/ status r = stopped) /\ r' = r)
  | Throw _ => status r = playing \/ status r = filtered
  end.
Proof.
  unfold stopActionStep.
  destruct (status r) eqn:Hs; try (right; split; [auto | reflexivity]);
    destruct (refActionOrPathsStep r p) as [[l|]|m]; simpl; auto.
Qed.

Lemma runSucceed_status (r : Run) :
  (status r = playing /\ runSucceed r = with_status r success) \/
  (status r <> playing /\ runSucceed r = r).
Proof.
  unfold runSucceed.
  destruct (status r); auto; right; split; try discriminate; reflexivity.
Qed.

Lemma apply_op_moves (r r' : Run) (op : StatusOp) :
  apply_op r op = Ok r' ->
  moves op (status r) (status r') \/ r' = r.
Proof.
  destruct op as [p res now|p e now|]; simpl; intros H.
  - pose proof (filterActionStep_status r p res now) as F. rewrite H in F.
    destruct F as [[H1 H2]|[_ H2]]; [left | right; exact H2].
    rewrite H1, H2. constructor.
  - pose proof (stopActionStep_status r p e now) as F. rewrite H in F.
    destruct F as [[[H1|H1] H2]|[_ H2]]; [left | left | right; exact H2];
      rewrite H1, H2; constructor.
  - injection H as <-.
    destruct (runSucceed_status r) as [[H1 H2]|[_ H2]]; [left | right; exact H2].
    rewrite H2, H1. simpl. constructor.
Qed.

Lemma apply_ops_closed (P : RunStatus -> Prop) :
  (forall op a b, moves op a b -> P a -> P b) ->
  forall ops r, P (status r) -> P (status (apply_ops r ops)).
Proof.
  intros Hclosed ops. induction ops as [|op ops IH]; intros r HP; simpl.
  - exact HP.
  - apply IH. destruct (apply_op r op) as [r'|m] eqn:E; [|exact HP].
    destruct (apply_op_moves _ _ E) as [Hm | Heq]; [|rewrite Heq; exact HP].
    exact (Hclosed _ _ _ Hm HP).
Qed.

(** C3.  The status state machine of [filterActionStep], [stopActionStep]
    and [runSucceed].  [filterActionStep] sets the status to [filtered] when
    it is [playing] and otherwise returns the run as it was;
    [stopActionStep] sets it to [stopped] when it is [playing] or [filtered]
    and otherwise (on [success], and on [stopped]) returns the run as it was;
    [runSucceed] sets it to [success] when it is [playing] and otherwise
    returns the run as it was.  Hence, under any sequence of the three
    operations, [success] stays [success], [stopped] stays [stopped], and
    [filtered] stays [filtered] or becomes [stopped]; only [replaying] leads
    back to [playing]. *)
Theorem status_state_machine (r : Run) :
  (forall p res now,
      match filterActionStep r p res now with
      | Ok r' => (status r = playing /\ status r' = filtered) \/
                 (status r <> playing /\ r' = r)
      | Throw _ => status r = playing
      end) /\
  (forall p e now,
      match stopActionStep r p e now with
      | Ok r' => ((status r = playing \/ status r = filtered) /\ status r' = stopped) \/
                 ((status r = success \/ status r = stopped) /\ r' = r)
      | Throw _ => status r = playing \/ status r = filtered
      end) /\
  ((status r = playing /\ runSucceed r = with_status r success) \/
   (status r <> playing /\ runSucceed r = r)) /\
  (forall ops,
      match status r with
      | success => status (apply_ops r ops) = success
      | stopped => status (apply_ops r ops) = stopped
      | filtered => status (apply_ops r ops) = filtered \/
                    status (apply_ops r ops) = stopped
      | playing => True
      end) /\
  (forall now, status (replaying r now) = playing).
Proof.
  split; [intros; apply filterActionStep_status|].
  split; [intros; apply stopActionStep_status|].
  split; [apply runSucceed_status|].
  split; [|reflexivity].
  intros ops. destruct (status r) eqn:Hs; [exact I | | | ].
  - apply (apply_ops_closed (fun s => s = success)); [|exact Hs].
    intros op a b Hm Ha. subst a. inversion Hm.
  - apply (apply_ops_closed (fun s => s = stopped)); [|exact Hs].
    intros op a b Hm Ha. subst a. inversion Hm.
  - apply (apply_ops_closed (fun s => s = filtered \/ s = stopped)); [|auto].
    intros op a b Hm [Ha|Ha]; subst a; inversion Hm; auto.
Qed.

(** The state machine at work: filtering twice keeps the first [filtered],
    a stop after [success] is refused, a stop after [filtered] goes through. *)
Definition sample_run (acts : list Step) (st : RunStatus) : Run :=
  {| automation_id := 7;
     steps := {| trigger := {| t_output := JObj [("y", JNum 2)] |}; actions := acts |};
     form_id := None;
     status := st;
     id := "run-1";
     createdAt := 1%Z;
     updatedAt := 2%Z;
     toReplay := false |}.

Definition sample_schema (n : string) : ActionSchema :=
  {| name := n; service := "code"; action := "run-typescript"; params := Params JNull |}.

Example status_ops_sample :
  let r := sample_run [newActionStep (sample_schema "foo") JNull 3%Z] playing in
  status (apply_ops r [OpFilter "foo" (JObj []) 4%Z; OpFilter "foo" (JObj []) 5%Z]) = filtered /\
  status (apply_ops r [OpSucceed; OpStop "foo" {| message := "late" |} 4%Z]) = success /\
  status (apply_ops r [OpFilter "foo" (JObj []) 4%Z; OpStop "foo" {| message := "boom" |} 5%Z;
                       OpSucceed]) = stopped.
Proof. repeat split; reflexivity. Qed.

(* ===================================================================== *)
(** * [getErrorMessage] *)
(* ===================================================================== *)

(** Once the loop of [getError] meets a paths step, the steps after it play
    no part in the answer. *)
Lemma getError_paths_step (sc : PathsStepSchema) (st : Time) (fin : option Time)
      (paths : list PathStep) (rest rest' : list Step) :
  getError (SPaths sc st fin paths :: rest) =
  getError (SPaths sc st fin paths :: rest').
Proof. simp getError. reflexivity. Qed.

(** Before any paths step the search is the plain scan for the first
    recorded error. *)
Lemma getError_action_step (a : ActionStep) (rest : list Step) :
  getError (SAction a :: rest) =
  match a_error a with
  | Value e => Some e
  | _ => getError rest
  end.
Proof. simp getError. destruct (a_error a); reflexivity. Qed.

Definition finished_step (n : string) (output : json) : Step :=
  SAction {| a_schema := sample_schema n; a_startedAt := 3%Z;
             a_finishedAt := Some 4%Z; a_input := JNull;
             a_output := Value output; a_error := Undefined |}.

Definition failed_step (n : string) (m : string) : Step :=
  SAction {| a_schema := sample_schema n; a_startedAt := 5%Z;
             a_finishedAt := Some 6%Z; a_input := JNull;
             a_output := Undefined; a_error := Value {| message := m |} |}.

Definition paths_step (n : string) (paths : list PathStep) : Step :=
  SPaths {| ps_name := n; ps_service := "filter"; ps_action := "split-into-paths" |}
         3%Z (Some 4%Z) paths.

Definition path_entry (n : string) (canContinue : bool) (acts : list Step)
  : PathStep :=
  MkPathStep {| path_name := n; path_filter := JNull |} JNull
             [("canContinue", JBool canContinue)] acts.

(** A run whose branching action [A] went well and whose next action [B]
    failed with ["boom"]. *)
Definition run_paths_then_failed : Run :=
  sample_run
    [paths_step "A" [path_entry "p" true [finished_step "x" (JObj [])]];
     failed_step "B" "boom"]
    stopped.

(** C5.  [getErrorMessage()] is meant to return the first recorded error of
    a depth-first traversal of the steps after the trigger.  On the run whose
    steps are an error-free paths step [A] followed by the action step [B]
    that failed with ["boom"], it returns [undefined]: the loop returns at
    the paths step and [B] is never examined. *)
Theorem getErrorMessage_misses_step_after_paths :
  getErrorMessage run_paths_then_failed = None /\
  nth_error (actions (steps run_paths_then_failed)) 1 = Some (failed_step "B" "boom") /\
  getError [failed_step "B" "boom"] = Some {| message := "boom" |}.
Proof. repeat split; reflexivity. Qed.

(* ===================================================================== *)
(** * [stopActionStep] on a path that resolves to no step *)
(* ===================================================================== *)





(* ===================================================================== *)
(** * [clone]: the copy of the step tree *)
(* ===================================================================== *)

Definition json_copy_path (p : PathStep) : PathStep :=
  match p with
  | MkPathStep schema i o acts => MkPathStep schema i o (map json_copy_step acts)
  end.

Lemma json_copy_step_paths sc st fin paths :
  json_copy_step (SPaths sc st fin paths) =
  SPaths sc st fin (map json_copy_path paths).
Proof. reflexivity. Qed.

(** Induction over a step tree: a paths step assumes the property of every
    action of every path. *)
Section StepInduction.

Variable P : Step -> Prop.
Hypothesis P_action : forall a, P (SAction a).
Hypothesis P_paths :
  forall sc st fin paths,
    Forall (fun p => Forall P (p_actions p)) paths ->
    P (SPaths sc st fin paths).


End StepInduction.







Lemma fold_left_ext_Forall {A B} (f g : A -> B -> A) (l : list B) :
  Forall (fun x => forall acc, f acc x = g acc x) l ->
  forall acc, fold_left f l acc = fold_left g l acc.
Proof.
  induction 1 as [|x l Hx _ IH]; intros acc; simpl; [reflexivity|].
  rewrite Hx. apply IH.
Qed.






Lemma step_name_copy (s : Step) : step_name (json_copy_step s) = step_name s.
Proof. destruct s; reflexivity. Qed.


(** A clock whose every reading is later than the sample run's timestamps. *)
Definition sample_env : Env :=
  {| clock := fun n => (1000 + Z.of_nat n)%Z;
     uuid := fun n => "uuid-" ++ index_key n |}.


(* ===================================================================== *)
(** * [isStepExecutedWithSuccess] *)
(* ===================================================================== *)




Lemma has_error_false (s : Step) :
  has_error s = false <->
  (forall a, s = SAction a -> field_value (a_error a) = None).
Proof.
  destruct s as [a|sc st fin paths]; simpl.
  - split.
    + intros H a' E. injection E as <-. destruct (a_error a); [reflexivity..|discriminate].
    + intros H. specialize (H a eq_refl). destruct (a_error a); [reflexivity..|discriminate].
  - split; [intros _ a E; discriminate | reflexivity].
Qed.







(* ===================================================================== *)
(** * Dotted-path addressing of nested branches *)
(* ===================================================================== *)





(* ===================================================================== *)
(** * The dispatcher on [split-into-paths] *)
(* ===================================================================== *)

Section SplitIntoPaths.

Variable env : Env.
Variable fillSchema : json -> obj -> returned json.
Variable runFilter : json -> Run -> returned obj.
Variable runService : ActionSchema -> json -> returned json.
Variable findConnection : ActionSchema -> bool.
Variable runIntegration : ActionSchema -> json -> returned ActionResult.

Local Notation "'evalFilter'" := (RunActionUseCase.evalFilter fillSchema runFilter).
Local Notation "'evalPath'" := (RunActionUseCase.evalPath fillSchema runFilter).
Local Notation "'dispatcher'" :=
  (RunActionUseCase.execute env fillSchema runFilter runService findConnection
                            runIntegration).

(** The entry of a declared path: what its filter decided, or the failure
    of its evaluation. *)
Lemma evalPath_entry (r : Run) (path : PathSchema) :
  match evalFilter r path with
  | Returns (filter, res) => evalPath r path = MkPathStep path filter res []
  | Throws error =>
      evalPath r path =
      MkPathStep path (path_filter path)
                 [("canContinue", JBool false); ("error", JStr (String_of error))] []
  end.
Proof.
  unfold RunActionUseCase.evalPath.
  destruct (evalFilter r path) as [[filter res]|error]; reflexivity.
Qed.

(** What the dispatcher leaves behind on a [split-into-paths] action. *)
Lemma dispatcher_split_into_paths (act : ActionSchema) (actionPath : string)
      (declared : list PathSchema) (w : World) :
  service act = "filter" -> action act = "split-into-paths" ->
  params act = PathsParams declared ->
  dispatcher act actionPath w =
  (Return (ResData (JObj (RunActionUseCase.pathsData (map (evalPath (w_run w)) declared)))),
   {| w_run := startActionPathsStep (w_run w) act (map (evalPath (w_run w)) declared)
                 (clock env (w_ticks w));
      w_log := w_log w ++
               [Updated (startActionPathsStep (w_run w) act
                           (map (evalPath (w_run w)) declared)
                           (clock env (w_ticks w)))];
      w_ticks := S (w_ticks w);
      w_uuids := w_uuids w |}).
Proof.
  intros Hs Ha Hp.
  unfold RunActionUseCase.execute, RunActionUseCase.dispatch,
    RunActionUseCase.declared_paths.
  rewrite Hs, Ha, Hp. reflexivity.
Qed.


End SplitIntoPaths.

(** Three declared paths; the filter of the second cannot be evaluated. *)
Definition sample_fillSchema (j : json) (_ : obj) : returned json := Returns j.

Definition sample_runFilter (filter : json) (_ : Run) : returned obj :=
  match filter with
  | JBool b => Returns [("canContinue", JBool b)]
  | _ => Throws (ErrorThrown "Invalid filter")
  end.

Definition sample_runService (_ : ActionSchema) (p : json) : returned json :=
  Returns p.

Definition sample_runIntegration (_ : ActionSchema) (p : json)
  : returned ActionResult := Returns (ResData p).

Definition sample_split (declared : list PathSchema) : ActionSchema :=
  {| name := "split"; service := "filter"; action := "split-into-paths";
     params := PathsParams declared |}.

Definition sample_world (r : Run) : World :=
  {| w_run := r; w_log := []; w_ticks := 0; w_uuids := 0 |}.

Definition three_paths : list PathSchema :=
  [{| path_name := "p1"; path_filter := JBool true |};
   {| path_name := "p2"; path_filter := JStr "?" |};
   {| path_name := "p3"; path_filter := JBool false |}].


(** The paths step of the sample: all three entries, the second one marked
    as failed. *)
Example split_into_paths_sample :
  fst (RunActionUseCase.execute sample_env sample_fillSchema sample_runFilter
         sample_runService (fun _ => true) sample_runIntegration
         (sample_split three_paths) "split" (sample_world (sample_run [] playing)))
  = Return (ResData (JObj
      [("p1", JObj [("canContinue", JBool true)]);
       ("p2", JObj [("canContinue", JBool false);
                    ("error", JStr "Error: Invalid filter")]);
       ("p3", JObj [("canContinue", JBool false)])])).
Proof. reflexivity. Qed.

(* ===================================================================== *)
(** * References survive assignments to a step and the copy of a clone *)
(* ===================================================================== *)

(** What a lookup reads of a step: its name and, for a paths step, the
    names of its paths with the names of their actions. *)
Definition path_shape (p : PathStep) : string * list string :=
  (path_name (p_schema p), map step_name (p_actions p)).

Definition shape (s : Step) : string * option (list (string * list string)) :=
  (step_name s,
   match s with
   | SAction _ => None
   | SPaths _ _ _ paths => Some (map path_shape paths)
   end).

Lemma findIndex_map {A B} (f : A -> B) (q : B -> bool) (l : list A) :
  findIndex q (map f l) = findIndex (fun x => q (f x)) l.
Proof.
  induction l as [|x l IH]; simpl; [reflexivity|]. rewrite IH. reflexivity.
Qed.

Lemma findIndex_named_shape (n : string) (l l' : list Step) :
  map step_name l = map step_name l' ->
  findIndex (named n) l = findIndex (named n) l'.
Proof.
  intros H.
  change (named n) with (fun s => (fun m => m =? n) (step_name s)).
  rewrite <- !(findIndex_map step_name (fun m => m =? n)). rewrite H. reflexivity.
Qed.

Lemma findIndex_path_named_shape (n : string) (ps ps' : list PathStep) :
  map path_shape ps = map path_shape ps' ->
  findIndex (path_named n) ps = findIndex (path_named n) ps'.
Proof.
  intros H.
  change (path_named n) with (fun p => (fun sh : string * list string => fst sh =? n) (path_shape p)).
  rewrite <- !(findIndex_map path_shape (fun sh : string * list string => fst sh =? n)).
  rewrite H. reflexivity.
Qed.

Lemma shapes_names (l l' : list Step) :
  map shape l = map shape l' -> map step_name l = map step_name l'.
Proof.
  intros H. apply (f_equal (map fst)) in H. rewrite !map_map in H. exact H.
Qed.

Lemma map_eq_nth {A B} (f : A -> B) (l l' : list A) (i : nat) :
  map f l = map f l' ->
  option_map f (nth_error l i) = option_map f (nth_error l' i).
Proof.
  intros H. rewrite <- !nth_error_map. rewrite H. reflexivity.
Qed.

Lemma actions_at_shape (top top' : list Step) (ij : nat * nat) :
  map shape top = map shape top' ->
  map step_name (actions_at top ij) = map step_name (actions_at top' ij).
Proof.
  intros H. unfold actions_at.
  pose proof (@map_eq_nth _ _ shape top top' (fst ij) H) as Hi.
  destruct (nth_error top (fst ij)) as [[a|sc st fin ps]|],
           (nth_error top' (fst ij)) as [[a'|sc' st' fin' ps']|];
    simpl in Hi; try discriminate; try reflexivity.
  injection Hi as _ Hps.
  pose proof (@map_eq_nth _ _ path_shape ps ps' (snd ij) Hps) as Hj.
  destruct (nth_error ps (snd ij)) as [p|], (nth_error ps' (snd ij)) as [p'|];
    simpl in Hj; try discriminate; try reflexivity.
  injection Hj as _ Hn. exact Hn.
Qed.

(** Two step lists of the same shape resolve every path to the same
    reference. *)
Lemma ref_segs_shape (top top' : list Step) (pathSegments : list string) :
  map shape top = map shape top' ->
  forall ctx,
    refActionOrPathsStep_segs top pathSegments ctx =
    refActionOrPathsStep_segs top' pathSegments ctx.
Proof.
  intros H.
  induction pathSegments as [|a|a p segments IH] using segments_ind; intros ctx.
  - reflexivity.
  - simpl. destruct ctx as [[i j]|].
    + rewrite (@findIndex_named_shape a _ _ (@actions_at_shape top top' (i, j) H)). reflexivity.
    + rewrite (@findIndex_named_shape a _ _ (@shapes_names top top' H)). reflexivity.
  - simpl. rewrite (@findIndex_named_shape a _ _ (@shapes_names top top' H)).
    destruct (findIndex (named a) top') as [i|]; [|reflexivity].
    pose proof (@map_eq_nth _ _ shape top top' i H) as Hi.
    destruct (nth_error top i) as [[x|sc st fin ps]|],
             (nth_error top' i) as [[x'|sc' st' fin' ps']|];
      simpl in Hi; try discriminate; try reflexivity.
    injection Hi as _ Hps.
    rewrite (@findIndex_path_named_shape p _ _ Hps).
    destruct (findIndex (path_named p) ps') as [j|]; [|reflexivity].
    destruct (0 <? List.length segments)%nat; [apply IH | reflexivity].
Qed.

Lemma map_update_nth {A B} (g : A -> B) (f : A -> A) (i : nat) (l : list A) :
  (forall x, g (f x) = g x) -> map g (update_nth i f l) = map g l.
Proof.
  intros H. revert i. induction l as [|x l IH]; intros [|i]; simpl;
    try reflexivity; [rewrite H | rewrite IH]; reflexivity.
Qed.

Lemma nth_error_update_nth {A} (f : A -> A) (i : nat) (l : list A) :
  nth_error (update_nth i f l) i = option_map f (nth_error l i).
Proof.
  revert i. induction l as [|x l IH]; intros [|i]; simpl; try reflexivity. apply IH.
Qed.

Lemma shape_update_paths (j : nat) (g : list Step -> list Step) (s : Step) :
  (forall l, map step_name (g l) = map step_name l) ->
  shape (update_paths j g s) = shape s.
Proof.
  intros Hg. destruct s as [a|sc st fin ps]; [reflexivity|].
  unfold shape. simpl. f_equal. f_equal.
  apply map_update_nth. intros [schema i o acts]. unfold path_shape. simpl.
  rewrite Hg. reflexivity.
Qed.

(** An assignment that keeps the shape of the step keeps the shape of the
    list. *)
Lemma shape_update_at (l : Loc) (f : Step -> Step) (top : list Step) :
  (forall s, shape (f s) = shape s) ->
  map shape (update_at l f top) = map shape top.
Proof.
  intros Hf. destruct l as [i|i j k]; simpl.
  - apply map_update_nth. exact Hf.
  - apply map_update_nth. intros s. apply shape_update_paths.
    intros acts. apply map_update_nth. intros x.
    exact (f_equal fst (Hf x)).
Qed.

Lemma shape_finish_with_output (output : json) (now : Time) (s : Step) :
  shape (finish_with_output output now s) = shape s.
Proof. destruct s; reflexivity. Qed.

Lemma shape_json_copy (s : Step) : shape (json_copy_step s) = shape s.
Proof.
  destruct s as [a|sc st fin ps]; [reflexivity|].
  rewrite json_copy_step_paths. unfold shape. simpl. f_equal. f_equal.
  rewrite map_map. apply map_ext. intros [schema i o acts].
  unfold path_shape. simpl. rewrite map_map. f_equal.
  apply map_ext. apply step_name_copy.
Qed.

Lemma actions_at_update (i j k : nat) (f : Step -> Step) (top : list Step) :
  actions_at (update_nth i (update_paths j (update_nth k f)) top) (i, j) =
  update_nth k f (actions_at top (i, j)).
Proof.
  unfold actions_at. cbn [fst snd]. rewrite nth_error_update_nth.
  destruct (nth_error top i) as [[a|sc st fin ps]|]; cbn [option_map update_paths];
    try reflexivity.
  rewrite nth_error_update_nth.
  destruct (nth_error ps j) as [[schema inp o acts]|]; reflexivity.
Qed.

(** Reading through a reference after assigning through it. *)
Lemma deref_update_at (l : Loc) (f : Step -> Step) (top : list Step) :
  deref (update_at l f top) l = option_map f (deref top l).
Proof.
  destruct l as [i|i j k]; simpl.
  - apply nth_error_update_nth.
  - rewrite actions_at_update. apply nth_error_update_nth.
Qed.

Lemma actions_at_copy (top : list Step) (ij : nat * nat) :
  actions_at (map json_copy_step top) ij = map json_copy_step (actions_at top ij).
Proof.
  unfold actions_at. rewrite nth_error_map.
  destruct (nth_error top (fst ij)) as [[a|sc st fin ps]|]; simpl; try reflexivity.
  rewrite nth_error_map.
  destruct (nth_error ps (snd ij)) as [[schema inp o acts]|]; reflexivity.
Qed.

Lemma deref_copy (top : list Step) (l : Loc) :
  deref (map json_copy_step top) l = option_map json_copy_step (deref top l).
Proof.
  destruct l as [i|i j k]; simpl.
  - apply nth_error_map.
  - rewrite actions_at_copy. apply nth_error_map.
Qed.

(** A lookup that finds a step, by step and by reference. *)
Lemma get_Some_ref (r : Run) (actionPath : string) (s : Step) :
  getActionOrPathsStep r actionPath = Ok (Some s) ->
  exists l, refActionOrPathsStep r actionPath = Ok (Some l) /\
            deref (actions (steps r)) l = Some s.
Proof.
  rewrite get_ref.
  destruct (refActionOrPathsStep r actionPath) as [[l|]|m]; simpl; intros H;
    try discriminate.
  exists l. split; [reflexivity|]. congruence.
Qed.

(** [successActionStep] through a known reference, and the lookup after
    it. *)
Lemma successActionStep_at (r : Run) (actionPath : string) (output : json)
      (now : Time) (l : Loc) :
  refActionOrPathsStep r actionPath = Ok (Some l) ->
  successActionStep r actionPath output now =
  Ok (with_actions r
        (update_at l (finish_with_output output now) (actions (steps r))) now).
Proof. intros H. unfold successActionStep. rewrite H. reflexivity. Qed.

Lemma get_after_update (r : Run) (actionPath : string) (f : Step -> Step)
      (now : Time) (l : Loc) :
  (forall s, shape (f s) = shape s) ->
  refActionOrPathsStep r actionPath = Ok (Some l) ->
  getActionOrPathsStep (with_actions r (update_at l f (actions (steps r))) now)
                       actionPath =
  Ok (option_map f (deref (actions (steps r)) l)).
Proof.
  intros Hf Href. rewrite get_ref. unfold refActionOrPathsStep in *. simpl.
  rewrite (@ref_segs_shape _ _ (split actionPath) (@shape_update_at l f (actions (steps r)) Hf) None).
  rewrite Href. simpl. rewrite deref_update_at. reflexivity.
Qed.

Lemma ref_clone (r : Run) (u : string) (actionPath : string) :
  refActionOrPathsStep (clone r u) actionPath = refActionOrPathsStep r actionPath.
Proof.
  unfold refActionOrPathsStep. simpl. apply ref_segs_shape.
  rewrite map_map. apply map_ext. apply shape_json_copy.
Qed.

(* ===================================================================== *)
(** * The orchestrator on an array result: the fan-out *)
(* ===================================================================== *)

Lemma world_eta (w : World) :
  {| w_run := w_run w; w_log := w_log w; w_ticks := w_ticks w; w_uuids := w_uuids w |} = w.
Proof. destruct w; reflexivity. Qed.

Lemma ref_after_update (r : Run) (p : string) (f : Step -> Step)
      (now : Time) (l : Loc) :
  (forall s, shape (f s) = shape s) ->
  refActionOrPathsStep (with_actions r (update_at l f (actions (steps r))) now) p =
  refActionOrPathsStep r p.
Proof.
  intros Hf. unfold refActionOrPathsStep. simpl.
  apply ref_segs_shape. apply shape_update_at. exact Hf.
Qed.

Section FanOut.

Variable env : Env.
Variable runActionUseCase : ActionSchema -> string -> M ActionResult.
Variable execute : string -> M unit.

Local Notation "'fanOut'" := (RunAutomationUseCase.fanOut env).
Local Notation "'runAction'" :=
  (RunAutomationUseCase.runAction env runActionUseCase execute).

(** The run that carries element [d] of index [i]: [r] with that output at
    the step. *)
Definition withItem (r : Run) (l : Loc) (d : json) (i : nat) (now : Time) : Run :=
  with_actions r
    (update_at l (finish_with_output (with_index d i) now) (actions (steps r)))
    now.

(** The clones made for the elements [rest], the first of index [i]. *)
Fixpoint clonesFor (r : Run) (l : Loc) (rest : list json) (i ticks uuids : nat)
  : list Run :=
  match rest with
  | [] => []
  | d :: rest' =>
      withItem (clone r (uuid env uuids)) l d i (clock env ticks)
      :: clonesFor r l rest' (S i) (S ticks) (S uuids)
  end.

Lemma fanOut_clones (actionPath : string) (l : Loc) (rest : list json) :
  forall (i : nat) (w : World),
    i <> 0 ->
    refActionOrPathsStep (w_run w) actionPath = Ok (Some l) ->
    fanOut actionPath rest i w =
    (Return tt,
     {| w_run := w_run w;
        w_log := w_log w ++
                 map Created (clonesFor (w_run w) l rest i (w_ticks w) (w_uuids w));
        w_ticks := w_ticks w + List.length rest;
        w_uuids := w_uuids w + List.length rest |}).
Proof.
  induction rest as [|d rest IH]; intros i w Hi Href.
  - simpl. unfold ret. rewrite app_nil_r, !Nat.add_0_r, world_eta. reflexivity.
  - simpl. destruct i as [|i]; [congruence|]. cbn [Nat.eqb].
    unfold bind at 1. unfold bind at 1. unfold get_run at 1.
    unfold bind at 1. unfold randomUUID at 1.
    unfold bind at 1. unfold new_Date at 1. cbn [w_run w_log w_ticks w_uuids].
    unfold bind at 1.
    rewrite (@successActionStep_at (clone (w_run w) (uuid env (w_uuids w)))
               actionPath (with_index d (S i)) (clock env (w_ticks w)) l)
      by (rewrite ref_clone; exact Href).
    unfold call, ret, emit. cbn [w_run w_log w_ticks w_uuids].
    rewrite IH; [|discriminate|exact Href].
    cbn [w_run w_log w_ticks w_uuids]. unfold withItem.
    rewrite <- app_assoc. simpl.
    rewrite <- !plus_n_Sm. reflexivity.
Qed.

Lemma fanOut_first (actionPath : string) (l : Loc) (d : json) (rest : list json)
      (w : World) :
  refActionOrPathsStep (w_run w) actionPath = Ok (Some l) ->
  fanOut actionPath (d :: rest) 0 w =
  (Return tt,
   {| w_run := withItem (w_run w) l d 0 (clock env (w_ticks w));
      w_log := w_log w ++
               Updated (withItem (w_run w) l d 0 (clock env (w_ticks w)))
               :: map Created
                    (clonesFor (withItem (w_run w) l d 0 (clock env (w_ticks w)))
                               l rest 1 (S (w_ticks w)) (w_uuids w));
      w_ticks := S (w_ticks w) + List.length rest;
      w_uuids := w_uuids w + List.length rest |}).
Proof.
  intros Href. simpl.
  unfold bind at 1. unfold bind at 1. unfold on_run.
  unfold bind at 1. unfold new_Date at 1. cbn [w_run w_log w_ticks w_uuids].
  unfold bind at 1. unfold get_run at 1. cbn [w_run w_log w_ticks w_uuids].
  unfold bind at 1.
  rewrite (@successActionStep_at (w_run w) actionPath (with_index d 0)
             (clock env (w_ticks w)) l Href).
  unfold call, ret, set_run, update. cbn [w_run w_log w_ticks w_uuids].
  unfold bind at 1. unfold get_run, emit. cbn [w_run w_log w_ticks w_uuids].
  rewrite (@fanOut_clones actionPath l rest 1); cbn [w_run w_log w_ticks w_uuids].
  - unfold withItem. rewrite <- app_assoc. reflexivity.
  - discriminate.
  - rewrite ref_after_update; [exact Href | apply shape_finish_with_output].
Qed.

(** [runAction] on a non-empty array result. *)
Lemma runAction_fan_out (act : ActionSchema) (pathName actionPath : string)
      (d : json) (rest : list json) (l : Loc) (w w1 : World) :
  actionPath = (if pathName =? "" then name act else pathName ++ "." ++ name act) ->
  runActionUseCase act actionPath w = (Return (ResData (JArr (d :: rest))), w1) ->
  refActionOrPathsStep (w_run w1) actionPath = Ok (Some l) ->
  runAction act pathName w =
  (Return true,
   {| w_run := withItem (w_run w1) l d 0 (clock env (w_ticks w1));
      w_log := w_log w1 ++
               Updated (withItem (w_run w1) l d 0 (clock env (w_ticks w1)))
               :: map Created
                    (clonesFor (withItem (w_run w1) l d 0 (clock env (w_ticks w1)))
                               l rest 1 (S (w_ticks w1)) (w_uuids w1));
      w_ticks := S (w_ticks w1) + List.length rest;
      w_uuids := w_uuids w1 + List.length rest |}).
Proof.
  intros Hpath Hdispatch Href.
  unfold RunAutomationUseCase.runAction. rewrite <- Hpath.
  unfold bind at 1. rewrite Hdispatch.
  unfold bind at 1.
  assert (Hf : (if service act =? "filter"
                then has <- call (in_canContinue (JArr (d :: rest))) ;;
                     ret (has && negb (match get_prop (JArr (d :: rest)) "canContinue" with
                                       | Some v => truthy v
                                       | None => false
                                       end))
                else ret false) w1 = (Return false, w1)).
  { destruct (service act =? "filter"); reflexivity. }
  rewrite Hf. unfold bind at 1.
  rewrite (@fanOut_first actionPath l d rest w1 Href). reflexivity.
Qed.

End FanOut.

(** ** Objects and the template context *)

Lemma obj_get_set_same (k : string) (v : json) (o : obj) :
  obj_get k (obj_set k v o) = Some v.
Proof.
  induction o as [|[k' v'] o IH]; simpl.
  - rewrite String.eqb_refl. reflexivity.
  - destruct (k' =? k) eqn:E; simpl; rewrite E; [reflexivity | exact IH].
Qed.

Lemma obj_get_set_other (k k' : string) (v : json) (o : obj) :
  k' <> k -> obj_get k' (obj_set k v o) = obj_get k' o.
Proof.
  intros Hne. induction o as [|[k0 v0] o IH]; simpl.
  - destruct (k =? k') eqn:E; [|reflexivity].
    apply String.eqb_eq in E. congruence.
  - destruct (k0 =? k) eqn:E; simpl.
    + apply String.eqb_eq in E. subst k0.
      destruct (k =? k') eqn:E'; [|reflexivity].
      apply String.eqb_eq in E'. congruence.
    + destruct (k0 =? k'); [reflexivity | exact IH].
Qed.





Lemma findIndex_app_first {A} (p : A -> bool) (l1 l2 : list A) (x : A) :
  (forall y, In y l1 -> p y = false) -> p x = true ->
  findIndex p (l1 ++ x :: l2) = Some (List.length l1).
Proof.
  intros H1 Hx. induction l1 as [|y l1 IH]; simpl.
  - rewrite Hx. reflexivity.
  - rewrite (H1 y (or_introl eq_refl)).
    rewrite IH by (intros z Hz; apply H1; right; exact Hz). reflexivity.
Qed.

Lemma update_nth_app {A} (f : A -> A) (l1 l2 : list A) (x : A) :
  update_nth (List.length l1) f (l1 ++ x :: l2) = (l1 ++ f x :: l2)%list.
Proof.
  induction l1 as [|y l1 IH]; simpl; [reflexivity|]. rewrite IH. reflexivity.
Qed.

(** ** What the runs of a fan-out record *)

(** The action step at [actionPath] of [r] has the output [v]. *)
Definition records (r : Run) (actionPath : string) (v : json) : Prop :=
  exists a, getActionOrPathsStep r actionPath = Ok (Some (SAction a)) /\
            a_output a = Value v.

Section FanOutRuns.

Variable env : Env.

Lemma withItem_records (r : Run) (actionPath : string) (l : Loc) (a : ActionStep)
      (d : json) (i : nat) (now : Time) :
  refActionOrPathsStep r actionPath = Ok (Some l) ->
  deref (actions (steps r)) l = Some (SAction a) ->
  has_key (a_output a) = true ->
  records (withItem r l d i now) actionPath (with_index d i).
Proof.
  intros Href Hderef Hkey. unfold records, withItem.
  rewrite (@get_after_update r actionPath _ now l
             (shape_finish_with_output (with_index d i) now) Href).
  rewrite Hderef. simpl. rewrite Hkey.
  eexists. split; reflexivity.
Qed.

Lemma clonesFor_length (r : Run) (l : Loc) (rest : list json) :
  forall i ticks uuids,
    List.length (clonesFor env r l rest i ticks uuids) = List.length rest.
Proof.
  induction rest as [|d rest IH]; intros i ticks uuids; simpl;
    [reflexivity | rewrite IH; reflexivity].
Qed.

Lemma clonesFor_nth (r : Run) (l : Loc) (rest : list json) :
  forall i ticks uuids k d,
    nth_error rest k = Some d ->
    nth_error (clonesFor env r l rest i ticks uuids) k =
    Some (withItem (clone r (uuid env (uuids + k))) l d (i + k)
                   (clock env (ticks + k))).
Proof.
  induction rest as [|d0 rest IH]; intros i ticks uuids k d Hk.
  - destruct k; discriminate.
  - destruct k as [|k]; simpl in *.
    + injection Hk as <-. rewrite !Nat.add_0_r. reflexivity.
    + rewrite (IH (S i) (S ticks) (S uuids) k d Hk).
      rewrite <- !plus_n_Sm. reflexivity.
Qed.

(** A clone of a run that records an output at the step records the
    element it is given. *)
Lemma clone_withItem_records (r : Run) (actionPath : string) (l : Loc)
      (a : ActionStep) (v d : json) (i : nat) (u : string) (now : Time) :
  refActionOrPathsStep r actionPath = Ok (Some l) ->
  deref (actions (steps r)) l = Some (SAction a) ->
  a_output a = Value v ->
  records (withItem (clone r u) l d i now) actionPath (with_index d i).
Proof.
  intros Href Hderef Hout.
  apply (@withItem_records (clone r u) actionPath l
           {| a_schema := a_schema a; a_startedAt := a_startedAt a;
              a_finishedAt := a_finishedAt a; a_input := a_input a;
              a_output := json_copy_field (a_output a);
              a_error := json_copy_field (a_error a) |}).
  - rewrite ref_clone. exact Href.
  - simpl. rewrite deref_copy, Hderef. reflexivity.
  - simpl. rewrite Hout. reflexivity.
Qed.

End FanOutRuns.

Lemma filterActionStep_at (r : Run) (actionPath : string) (res : json)
      (now : Time) (l : Loc) :
  refActionOrPathsStep r actionPath = Ok (Some l) ->
  exists rf,
    filterActionStep r actionPath res now = Ok rf /\
    (status r = playing -> status rf = filtered) /\
    (status r <> playing -> rf = r).
Proof.
  intros Href. unfold filterActionStep. rewrite Href.
  destruct (status r); eexists; (split; [reflexivity|]); split;
    try reflexivity; try discriminate; intros H; congruence.
Qed.

Section FanOutResult.

Variable env : Env.
Variable runActionUseCase : ActionSchema -> string -> M ActionResult.
Variable execute : string -> M unit.

Local Notation "'runAction'" :=
  (RunAutomationUseCase.runAction env runActionUseCase execute).

(** [runAction] on an empty array result. *)
Lemma runAction_empty_array (act : ActionSchema) (pathName actionPath : string)
      (l : Loc) (w w1 : World) :
  actionPath = (if pathName =? "" then name act else pathName ++ "." ++ name act) ->
  runActionUseCase act actionPath w = (Return (ResData (JArr [])), w1) ->
  refActionOrPathsStep (w_run w1) actionPath = Ok (Some l) ->
  exists rf,
    filterActionStep (w_run w1) actionPath (JArr []) (clock env (w_ticks w1)) = Ok rf /\
    runAction act pathName w =
    (Return false,
     {| w_run := rf; w_log := w_log w1 ++ [Updated rf];
        w_ticks := S (w_ticks w1); w_uuids := w_uuids w1 |}) /\
    (status (w_run w1) = playing -> status rf = filtered).
Proof.
  intros Hpath Hdispatch Href.
  destruct (@filterActionStep_at (w_run w1) actionPath (JArr [])
              (clock env (w_ticks w1)) l Href) as [rf [Hf [Hplaying _]]].
  exists rf. split; [exact Hf|]. split; [|exact Hplaying].
  unfold RunAutomationUseCase.runAction. rewrite <- Hpath.
  unfold bind at 1. rewrite Hdispatch.
  unfold bind at 1.
  assert (Hc : (if service act =? "filter"
                then has <- call (in_canContinue (JArr [])) ;;
                     ret (has && negb (match get_prop (JArr []) "canContinue" with
                                       | Some v => truthy v
                                       | None => false
                                       end))
                else ret false) w1 = (Return false, w1)).
  { destruct (service act =? "filter"); reflexivity. }
  rewrite Hc. unfold RunAutomationUseCase.filter, on_run.
  unfold bind, new_Date, get_run. cbn [w_run w_log w_ticks w_uuids].
  rewrite Hf. reflexivity.
Qed.

(** [runAction] on a non-empty array result: the runs it updates and
    creates. *)
Lemma fan_out_nonempty (act : ActionSchema) (pathName actionPath : string)
      (d0 : json) (rest : list json) (a : ActionStep) (w w1 : World) :
  actionPath = (if pathName =? "" then name act else pathName ++ "." ++ name act) ->
  runActionUseCase act actionPath w = (Return (ResData (JArr (d0 :: rest))), w1) ->
  getActionOrPathsStep (w_run w1) actionPath = Ok (Some (SAction a)) ->
  has_key (a_output a) = true ->
  exists r1 clones w',
    runAction act pathName w = (Return true, w') /\
    w_run w' = r1 /\
    w_log w' = (w_log w1 ++ Updated r1 :: map Created clones)%list /\
    records r1 actionPath (with_index d0 0) /\
    automation_id r1 = automation_id (w_run w1) /\
    List.length clones = List.length rest /\
    (forall k d,
        nth_error rest k = Some d ->
        exists c,
          nth_error clones k = Some c /\
          records c actionPath (with_index d (S k)) /\
          id c = uuid env (w_uuids w1 + k) /\
          automation_id c = automation_id (w_run w1) /\
          form_id c = form_id (w_run w1) /\
          status c = status (w_run w1)).
Proof.
  intros Hpath Hdispatch Hget Hkey.
  destruct (get_Some_ref _ _ Hget) as [l [Href Hderef]].
  eexists. eexists. eexists.
  split; [apply (@runAction_fan_out env runActionUseCase execute act pathName
                   actionPath d0 rest l w w1 Hpath Hdispatch Href)|].
  cbn [w_run w_log].
  split; [reflexivity|]. split; [reflexivity|].
  split; [apply (@withItem_records _ _ _ a); assumption|].
  split; [reflexivity|].
  split; [apply clonesFor_length|].
  intros k d Hk. eexists.
  split; [apply (clonesFor_nth env _ l rest 1 _ _ k Hk)|].
  split.
  - apply (@clone_withItem_records _ actionPath l
             {| a_schema := a_schema a; a_startedAt := a_startedAt a;
                a_finishedAt := Some (clock env (w_ticks w1));
                a_input := a_input a;
                a_output := Value (with_index d0 0);
                a_error := a_error a |} (with_index d0 0)).
    + unfold withItem.
      rewrite ref_after_update; [exact Href | apply shape_finish_with_output].
    + unfold withItem. simpl. rewrite deref_update_at, Hderef. simpl.
      rewrite Hkey. reflexivity.
    + reflexivity.
  - repeat split; reflexivity.
Qed.

(** C4, as the code has it.  When the dispatched action's result is an
    array: if it is empty, [filterActionStep] is applied to the run (which
    makes a playing run [filtered]), the run is updated and [runAction]
    answers [false]; if it has the elements [d0 :: rest], [runAction] answers
    [true], the current run records at the step the first element merged with
    [index: 1] and is updated once, and for each further element one clone is
    created that records that element merged with its 1-based index; every
    clone has a fresh id and the automation id, form id and status of the
    run.  So three elements give one [update] and two [create]s. *)
Theorem fan_out_runs (act : ActionSchema) (pathName actionPath : string)
        (items : list json) (a : ActionStep) (w w1 : World) :
  actionPath = (if pathName =? "" then name act else pathName ++ "." ++ name act) ->
  runActionUseCase act actionPath w = (Return (ResData (JArr items)), w1) ->
  getActionOrPathsStep (w_run w1) actionPath = Ok (Some (SAction a)) ->
  has_key (a_output a) = true ->
  match items with
  | [] =>
      exists rf,
        filterActionStep (w_run w1) actionPath (JArr []) (clock env (w_ticks w1)) = Ok rf /\
        runAction act pathName w =
        (Return false,
         {| w_run := rf; w_log := w_log w1 ++ [Updated rf];
            w_ticks := S (w_ticks w1); w_uuids := w_uuids w1 |}) /\
        (status (w_run w1) = playing -> status rf = filtered)
  | d0 :: rest =>
      exists r1 clones w',
        runAction act pathName w = (Return true, w') /\
        w_run w' = r1 /\
        w_log w' = (w_log w1 ++ Updated r1 :: map Created clones)%list /\
        records r1 actionPath (with_index d0 0) /\
        automation_id r1 = automation_id (w_run w1) /\
        List.length clones = List.length rest /\
        (forall k d,
            nth_error rest k = Some d ->
            exists c,
              nth_error clones k = Some c /\
              records c actionPath (with_index d (S k)) /\
              id c = uuid env (w_uuids w1 + k) /\
              automation_id c = automation_id (w_run w1) /\
              form_id c = form_id (w_run w1) /\
              status c = status (w_run w1))
  end.
Proof.
  intros Hpath Hdispatch Hget Hkey.
  destruct items as [|d0 rest].
  - destruct (get_Some_ref _ _ Hget) as [l [Href _]].
    apply (@runAction_empty_array act pathName actionPath l w w1 Hpath Hdispatch Href).
  - apply (@fan_out_nonempty act pathName actionPath d0 rest a w w1);
      assumption.
Qed.

End FanOutResult.

Section FanOutIndex.

Variable env : Env.
Variable runActionUseCase : ActionSchema -> string -> M ActionResult.
Variable execute : string -> M unit.

Local Notation "'runAction'" :=
  (RunAutomationUseCase.runAction env runActionUseCase execute).



End FanOutIndex.

(** ** A fan-out at work *)

(** The dispatcher with a code service that answers the array [items]. *)
Definition items_dispatcher (items : list json)
  : ActionSchema -> string -> M ActionResult :=
  RunActionUseCase.execute sample_env sample_fillSchema sample_runFilter
    (fun _ _ => Returns (JArr items)) (fun _ => true) sample_runIntegration.

Definition three_items : list json :=
  [JObj [("x", JNum 1)]; JObj [("x", JNum 2)]; JObj [("x", JNum 3)]].

Definition no_paths : string -> M unit := fun _ => ret tt.

(** The step as the dispatcher starts it. *)
Definition started_foo : ActionStep :=
  {| a_schema := sample_schema "foo"; a_startedAt := 1000%Z; a_finishedAt := None;
     a_input := JNull; a_output := Undefined; a_error := Undefined |}.

Definition event_kind (e : Event) : string :=
  match e with
  | Updated _ => "update"
  | Created _ => "create"
  | AlertEmail _ _ => "alert"
  end.

(** Three outputs: the start of the step, then one update and two creates. *)
Example fan_out_three_items :
  map event_kind
      (w_log (snd (RunAutomationUseCase.runAction sample_env
                     (items_dispatcher three_items) no_paths
                     (sample_schema "foo") "" (sample_world (sample_run [] playing)))))
  = ["update"; "update"; "create"; "create"].
Proof. reflexivity. Qed.

Lemma fan_out_runs_witness :
  exists r1 clones w',
    RunAutomationUseCase.runAction sample_env (items_dispatcher three_items) no_paths
      (sample_schema "foo") "" (sample_world (sample_run [] playing))
    = (Return true, w') /\
    w_run w' = r1 /\
    w_log w' =
      (w_log (snd (items_dispatcher three_items (sample_schema "foo") "foo"
                     (sample_world (sample_run [] playing))))
       ++ Updated r1 :: map Created clones)%list /\
    records r1 "foo" (with_index (JObj [("x", JNum 1)]) 0) /\
    automation_id r1 = 7%Z /\
    List.length clones = 2 /\
    (forall k d,
        nth_error [JObj [("x", JNum 2)]; JObj [("x", JNum 3)]] k = Some d ->
        exists c,
          nth_error clones k = Some c /\
          records c "foo" (with_index d (S k)) /\
          id c = uuid sample_env (0 + k) /\
          automation_id c = 7%Z /\
          form_id c = None /\
          status c = playing).
Proof.
  apply (@fan_out_runs sample_env (items_dispatcher three_items) no_paths
           (sample_schema "foo") "" "foo" three_items started_foo
           (sample_world (sample_run [] playing))
           (snd (items_dispatcher three_items (sample_schema "foo") "foo"
                   (sample_world (sample_run [] playing)))));
    reflexivity.
Defined.

(** C4, as stated, fails: for the one-element result [[{x: 1}]] the output
    recorded on the current run is [{x: 1, index: 1}], not the element
    [{x: 1}]. *)
Lemma fan_out_records_more_than_the_element :
  fst (RunAutomationUseCase.runAction sample_env
         (items_dispatcher [JObj [("x", JNum 1)]]) no_paths
         (sample_schema "foo") "" (sample_world (sample_run [] playing)))
  = Return true /\
  records
    (w_run (snd (RunAutomationUseCase.runAction sample_env
                   (items_dispatcher [JObj [("x", JNum 1)]]) no_paths
                   (sample_schema "foo") "" (sample_world (sample_run [] playing)))))
    "foo" (JObj [("x", JNum 1); ("index", JNum 1)]) /\
  ~ records
    (w_run (snd (RunAutomationUseCase.runAction sample_env
                   (items_dispatcher [JObj [("x", JNum 1)]]) no_paths
                   (sample_schema "foo") "" (sample_world (sample_run [] playing)))))
    "foo" (JObj [("x", JNum 1)]).
Proof.
  split; [reflexivity|]. split.
  - eexists. split; reflexivity.
  - intros [a [Hget Hout]]. vm_compute in Hget. injection Hget as <-.
    discriminate Hout.
Qed.


(** The template context after the fan-out of the sample. *)
Example fan_out_steps_output :
  getStepsOutput
    (w_run (snd (RunAutomationUseCase.runAction sample_env
                   (items_dispatcher three_items) no_paths
                   (sample_schema "foo") "" (sample_world (sample_run [] playing)))))
  = [("foo", JObj [("x", JNum 1); ("index", JNum 1)]);
     ("trigger", JObj [("y", JNum 2)])].
Proof. reflexivity. Qed.

(* ===================================================================== *)
(** * The orchestrator on a [split-into-paths] whose paths are all closed *)
(* ===================================================================== *)

(** A property of the data of a [split-into-paths] is the decision of one
    of the entries. *)
Lemma pathsData_get_acc (all l : list PathStep) :
  (forall p, In p l -> In p all) ->
  forall acc k,
    (forall k', obj_get k' acc = None \/
                exists p, In p all /\ obj_get k' acc = Some (JObj (p_output p))) ->
    obj_get k (fold_left
                 (fun paths p => obj_set (path_name (p_schema p)) (JObj (p_output p)) paths)
                 l acc) = None \/
    exists p, In p all /\
              obj_get k (fold_left
                           (fun paths p =>
                              obj_set (path_name (p_schema p)) (JObj (p_output p)) paths)
                           l acc) = Some (JObj (p_output p)).
Proof.
  induction l as [|q l IH]; intros Hsub acc k Hacc; simpl.
  - apply Hacc.
  - apply IH.
    + intros p Hp. apply Hsub. right. exact Hp.
    + intros k'. destruct (String.eqb_spec k' (path_name (p_schema q))) as [->|Hne].
      * right. exists q. split; [apply Hsub; left; reflexivity|].
        apply obj_get_set_same.
      * rewrite obj_get_set_other by exact Hne. apply Hacc.
Qed.

Lemma pathsData_get (pathsSteps : list PathStep) (k : string) :
  obj_get k (RunActionUseCase.pathsData pathsSteps) = None \/
  exists p, In p pathsSteps /\
            obj_get k (RunActionUseCase.pathsData pathsSteps) = Some (JObj (p_output p)).
Proof.
  unfold RunActionUseCase.pathsData.
  apply (@pathsData_get_acc pathsSteps pathsSteps (fun p H => H) [] k).
  intros k'. left. reflexivity.
Qed.

Lemma find_none {A} (p : A -> bool) (l : list A) :
  (forall x, In x l -> p x = false) -> find p l = None.
Proof.
  induction l as [|x l IH]; intros H; simpl; [reflexivity|].
  rewrite (H x (or_introl eq_refl)). apply IH. intros y Hy. apply H. right. exact Hy.
Qed.

Lemma findIndex_none {A} (p : A -> bool) (l : list A) :
  (forall x, In x l -> p x = false) -> findIndex p l = None.
Proof.
  induction l as [|x l IH]; intros H; simpl; [reflexivity|].
  rewrite (H x (or_introl eq_refl)).
  rewrite IH by (intros y Hy; apply H; right; exact Hy). reflexivity.
Qed.

Lemma named_false (n : string) (s : Step) : step_name s <> n -> named n s = false.
Proof. intros H. unfold named. apply String.eqb_neq. exact H. Qed.

Section AllPathsClosed.

Variable env : Env.
Variable fillSchema : json -> obj -> returned json.
Variable runFilter : json -> Run -> returned obj.
Variable runService : ActionSchema -> json -> returned json.
Variable findConnection : ActionSchema -> bool.
Variable runIntegration : ActionSchema -> json -> returned ActionResult.
Variable execute : string -> M unit.

Local Notation "'evalPath'" := (RunActionUseCase.evalPath fillSchema runFilter).
Local Notation "'dispatcher'" :=
  (RunActionUseCase.execute env fillSchema runFilter runService findConnection
                            runIntegration).
Local Notation "'runAction'" :=
  (RunAutomationUseCase.runAction env dispatcher execute).

(** No path is entered when every decision is [canContinue: false]. *)
Lemma executePaths_loop_closed (schema_name : string) (pathsSteps : list PathStep)
      (pathName : string) (declared : list PathSchema) (failure : option string)
      (w : World) :
  forallb canContinue_false pathsSteps = true ->
  RunAutomationUseCase.executePaths_loop execute schema_name
    (JObj (RunActionUseCase.pathsData pathsSteps)) pathName declared failure w
  = (Return failure, w).
Proof.
  intros Hall. induction declared as [|path rest IH]; simpl; [reflexivity|].
  assert (Hc : canContinue_true
                 (obj_get (path_name path) (RunActionUseCase.pathsData pathsSteps))
               = false).
  { destruct (pathsData_get pathsSteps (path_name path)) as [->|[p [Hp ->]]];
      [reflexivity|].
    rewrite forallb_forall in Hall. specialize (Hall p Hp).
    unfold canContinue_false in Hall. unfold canContinue_true.
    destruct (obj_get "canContinue" (p_output p)) as [[| [|] | | | |]|];
      try discriminate; reflexivity. }
  rewrite Hc. exact IH.
Qed.

(** The run once the paths step is appended, finished and filtered. *)
Definition closedPathsRun (r : Run) (act : ActionSchema) (pathsSteps : list PathStep)
           (t0 t1 t2 : Time) : Run :=
  with_status
    (with_actions r
       (actions (steps r) ++
        [SPaths {| ps_name := name act; ps_service := service act;
                   ps_action := action act |} t0 (Some t2) pathsSteps])%list
       t2)
    filtered.

(** The world [runAction] leaves behind in that case: the paths step is
    appended by the dispatcher, finished by [successActionStep], and the run
    filtered by [filterActionStep], with an update after each. *)
Definition closedPathsWorld (act : ActionSchema) (declared : list PathSchema)
           (w : World) : World :=
  {| w_run := closedPathsRun (w_run w) act (map (evalPath (w_run w)) declared)
                (clock env (w_ticks w)) (clock env (1 + w_ticks w))
                (clock env (2 + w_ticks w));
     w_log := w_log w ++
       [Updated (startActionPathsStep (w_run w) act
                   (map (evalPath (w_run w)) declared) (clock env (w_ticks w)));
        Updated (with_actions (w_run w)
                   (actions (steps (w_run w)) ++
                    [SPaths {| ps_name := name act; ps_service := service act;
                               ps_action := action act |}
                            (clock env (w_ticks w))
                            (Some (clock env (1 + w_ticks w)))
                            (map (evalPath (w_run w)) declared)])%list
                   (clock env (1 + w_ticks w)));
        Updated (closedPathsRun (w_run w) act (map (evalPath (w_run w)) declared)
                   (clock env (w_ticks w)) (clock env (1 + w_ticks w))
                   (clock env (2 + w_ticks w)))];
     w_ticks := 3 + w_ticks w;
     w_uuids := w_uuids w |}.

(** A step appended under a new name is what the lookup of that name
    finds. *)
Lemma ref_appended (r : Run) (acts : list Step) (x : Step) (n : string) (t : Time) :
  dot_free n = true ->
  (forall s, In s acts -> step_name s <> n) ->
  step_name x = n ->
  refActionOrPathsStep (with_actions r (acts ++ [x])%list t) n =
  Ok (Some (AtTop (List.length acts))).
Proof.
  intros Hdot Hacts Hx. unfold refActionOrPathsStep.
  rewrite (split_dot_free _ Hdot). simpl.
  rewrite findIndex_app_first; [reflexivity| |].
  - intros y Hy. apply named_false. apply Hacts. exact Hy.
  - unfold named. apply String.eqb_eq. exact Hx.
Qed.

Lemma get_appended (r : Run) (acts : list Step) (x : Step) (n : string) (t : Time) :
  dot_free n = true ->
  (forall s, In s acts -> step_name s <> n) ->
  step_name x = n ->
  getActionOrPathsStep (with_actions r (acts ++ [x])%list t) n = Ok (Some x).
Proof.
  intros Hdot Hacts Hx. rewrite get_ref, (ref_appended r acts x t Hdot Hacts Hx).
  simpl. rewrite nth_error_app2 by apply Nat.le_refl.
  rewrite Nat.sub_diag. reflexivity.
Qed.

(** The first test of [runAction] lets the data of a [split-into-paths]
    through, whatever the paths are named. *)
Lemma pathsData_not_filtered_out (pathsSteps : list PathStep) (w : World) :
  (has <- call (in_canContinue (JObj (RunActionUseCase.pathsData pathsSteps))) ;;
   ret (has && negb (match get_prop (JObj (RunActionUseCase.pathsData pathsSteps))
                                    "canContinue" with
                     | Some v => truthy v
                     | None => false
                     end))) w
  = (Return false, w).
Proof.
  unfold bind, call, ret, in_canContinue, get_prop.
  destruct (pathsData_get pathsSteps "canContinue") as [->|[p [_ ->]]]; reflexivity.
Qed.

Lemma actions_with_actions (r : Run) (acts : list Step) (t : Time) :
  actions (steps (with_actions r acts t)) = acts.
Proof. reflexivity. Qed.

Lemma with_actions_twice (r : Run) (acts acts' : list Step) (t t' : Time) :
  with_actions (with_actions r acts t) acts' t' = with_actions r acts' t'.
Proof. reflexivity. Qed.

Lemma status_with_actions (r : Run) (acts : list Step) (t : Time) :
  status (with_actions r acts t) = status r.
Proof. reflexivity. Qed.

(** [runAction] on a top-level [split-into-paths] whose decisions are all
    [canContinue: false]. *)
Lemma runAction_closed_paths (act : ActionSchema) (declared : list PathSchema)
      (w : World) :
  service act = "filter" -> action act = "split-into-paths" ->
  params act = PathsParams declared ->
  dot_free (name act) = true ->
  status (w_run w) = playing ->
  (forall s, In s (actions (steps (w_run w))) -> step_name s <> name act) ->
  forallb canContinue_false (map (evalPath (w_run w)) declared) = true ->
  runAction act "" w = (Return false, closedPathsWorld act declared w).
Proof.
  intros Hs Ha Hp Hdot Hplaying Hfresh Hall.
  assert (Hsf : (service act =? "filter") = true) by (rewrite Hs; reflexivity).
  assert (Haf : (action act =? "split-into-paths") = true) by (rewrite Ha; reflexivity).
  unfold RunAutomationUseCase.runAction. cbn [String.eqb].
  unfold bind at 1.
  rewrite (@dispatcher_split_into_paths env fillSchema runFilter runService
             findConnection runIntegration act (name act) declared w Hs Ha Hp).
  rewrite Hsf, Haf. cbn [andb].
  unfold bind at 1. rewrite pathsData_not_filtered_out.
  unfold startActionPathsStep.
  set (ps := map (evalPath (w_run w)) declared) in *.
  set (sc := {| ps_name := name act; ps_service := service act;
                ps_action := action act |}).
  unfold bind at 1. unfold on_run at 1. unfold bind at 1. unfold new_Date at 1.
  cbn [w_run w_log w_ticks w_uuids].
  unfold bind at 1. unfold get_run at 1. cbn [w_run w_log w_ticks w_uuids].
  unfold bind at 1.
  rewrite (@successActionStep_at _ (name act) _ _ (AtTop (List.length (actions (steps (w_run w))))))
    by (apply ref_appended; [exact Hdot | exact Hfresh | reflexivity]).
  rewrite with_actions_twice, actions_with_actions.
  cbn [update_at]. rewrite update_nth_app. cbn [finish_with_output].
  unfold call at 1. unfold ret at 1. unfold set_run at 1.
  cbn [w_run w_log w_ticks w_uuids].
  unfold bind at 1. unfold update at 1. unfold bind at 1. unfold get_run at 1.
  unfold emit at 1. cbn [w_run w_log w_ticks w_uuids].
  unfold bind at 1. unfold try_catch at 1. unfold bind at 1.
  unfold RunAutomationUseCase.executePaths. unfold bind at 1.
  rewrite executePaths_loop_closed by exact Hall.
  unfold ret at 1. unfold ret at 1.
  unfold bind at 1. unfold get_run at 1. cbn [w_run w_log w_ticks w_uuids].
  unfold bind at 1.
  rewrite (@get_appended (w_run w) (actions (steps (w_run w)))
             (SPaths sc (clock env (w_ticks w)) (Some (clock env (S (w_ticks w)))) ps)
             (name act) (clock env (S (w_ticks w))) Hdot Hfresh eq_refl).
  unfold call at 1. unfold ret at 1.
  unfold RunAutomationUseCase.afterPaths. rewrite Hall.
  unfold bind at 1. unfold RunAutomationUseCase.filter.
  unfold bind at 1. unfold on_run at 1. unfold bind at 1. unfold new_Date at 1.
  cbn [w_run w_log w_ticks w_uuids].
  unfold bind at 1. unfold get_run at 1. cbn [w_run w_log w_ticks w_uuids].
  unfold bind at 1.
  unfold filterActionStep. rewrite status_with_actions, Hplaying.
  rewrite (@ref_appended (w_run w) (actions (steps (w_run w)))
             (SPaths sc (clock env (w_ticks w)) (Some (clock env (S (w_ticks w)))) ps)
             (name act) (clock env (S (w_ticks w))) Hdot Hfresh eq_refl).
  rewrite with_actions_twice, actions_with_actions.
  cbn [update_at]. rewrite update_nth_app. cbn [finish_with_output].
  unfold call at 1. unfold ret at 1. unfold set_run at 1.
  cbn [w_run w_log w_ticks w_uuids].
  unfold update, bind, get_run, emit, ret. cbn [w_run w_log w_ticks w_uuids].
  unfold closedPathsWorld, closedPathsRun. rewrite <- !app_assoc. reflexivity.
Qed.

End AllPathsClosed.

Lemma get_fresh (r : Run) (n : string) :
  dot_free n = true ->
  (forall s, In s (actions (steps r)) -> step_name s <> n) ->
  getActionOrPathsStep r n = Ok None.
Proof.
  intros Hdot Hfresh. unfold getActionOrPathsStep.
  rewrite (split_dot_free _ Hdot). simpl.
  rewrite find_none; [reflexivity|].
  intros s Hs. apply named_false. apply Hfresh. exact Hs.
Qed.

Lemma removeStep_fresh (r : Run) (n : string) (now : Time) :
  dot_free n = true ->
  (forall s, In s (actions (steps r)) -> step_name s <> n) ->
  removeStep r n now = r.
Proof.
  intros Hdot Hfresh. unfold removeStep.
  rewrite (split_dot_free _ Hdot). simpl.
  rewrite findIndex_none; [reflexivity|].
  intros s Hs. apply named_false. apply Hfresh. exact Hs.
Qed.

Section TopLevelClosedPaths.

Variable env : Env.
Variable fillSchema : json -> obj -> returned json.
Variable runFilter : json -> Run -> returned obj.
Variable runService : ActionSchema -> json -> returned json.
Variable findConnection : ActionSchema -> bool.
Variable runIntegration : ActionSchema -> json -> returned ActionResult.

Local Notation "'evalPath'" := (RunActionUseCase.evalPath fillSchema runFilter).
Local Notation "'dispatcher'" :=
  (RunActionUseCase.execute env fillSchema runFilter runService findConnection
                            runIntegration).
Local Notation "'closedWorld'" :=
  (closedPathsWorld env fillSchema runFilter).

(** The world after the removal of a step that is not there: one more
    reading of the clock. *)
Definition tick (w : World) : World :=
  {| w_run := w_run w; w_log := w_log w; w_ticks := S (w_ticks w);
     w_uuids := w_uuids w |}.

(** The loop over the automation's actions stops at the closed
    [split-into-paths]: the actions after it are not looked at. *)
Lemma topLoop_closed_paths (execute : string -> M unit) (act : ActionSchema)
      (declared : list PathSchema) (rest : list ActionSchema) (w : World) :
  service act = "filter" -> action act = "split-into-paths" ->
  params act = PathsParams declared ->
  dot_free (name act) = true ->
  status (w_run w) = playing ->
  (forall s, In s (actions (steps (w_run w))) -> step_name s <> name act) ->
  forallb canContinue_false (map (evalPath (w_run w)) declared) = true ->
  RunAutomationUseCase.topLoop env dispatcher execute (act :: rest) w =
  (Return false, closedWorld act declared (tick w)).
Proof.
  intros Hs Ha Hp Hdot Hplaying Hfresh Hall.
  assert (Hsf : (service act =? "filter") = true) by (rewrite Hs; reflexivity).
  assert (Haf : (action act =? "split-into-paths") = true) by (rewrite Ha; reflexivity).
  cbn [RunAutomationUseCase.topLoop]. rewrite Hsf, Haf. cbn [andb].
  unfold bind at 1. unfold get_run at 1.
  unfold bind at 1. unfold bind at 1.
  rewrite (get_fresh (w_run w) Hdot Hfresh).
  unfold call at 1. unfold ret at 1. unfold ret at 1.
  unfold bind at 1. unfold isStepExecutedWithSuccess.
  rewrite (get_fresh (w_run w) Hdot Hfresh).
  unfold call at 1. unfold ret at 1.
  unfold bind at 1. unfold on_run at 1. unfold bind at 1. unfold new_Date at 1.
  cbn [w_run w_log w_ticks w_uuids].
  unfold bind at 1. unfold get_run at 1. cbn [w_run w_log w_ticks w_uuids].
  rewrite (removeStep_fresh (w_run w) _ Hdot Hfresh).
  unfold bind at 1. unfold call at 1. unfold ret at 1. unfold set_run at 1.
  cbn [w_run w_log w_ticks w_uuids]. fold (tick w).
  unfold bind at 1.
  rewrite (@runAction_closed_paths env fillSchema runFilter runService findConnection
             runIntegration execute act declared (tick w) Hs Ha Hp Hdot Hplaying
             Hfresh Hall).
  reflexivity.
Qed.

Lemma closedPathsWorld_log (act : ActionSchema) (declared : list PathSchema)
      (w : World) (e : Event) :
  In e (w_log (closedWorld act declared w)) ->
  In e (w_log w) \/ exists r, e = Updated r.
Proof.
  unfold closedPathsWorld. cbn [w_log]. intros H.
  apply in_app_or in H. destruct H as [H|H]; [left; exact H|].
  right. simpl in H. destruct H as [<-|[<-|[<-|[]]]]; eexists; reflexivity.
Qed.

(** A top-level [split-into-paths] action all of whose paths' filters
    decide [canContinue: false] (or cannot be evaluated), dispatched on a
    playing run that has no step of the action's name yet: [runAction]
    answers [false] and leaves the run [filtered]; and the orchestrator, run
    on an automation in which the action comes first, ends with the run
    [filtered], having only updated the run (no alert), in a state that does
    not depend on the actions that come after it: they are not executed. *)
Lemma top_level_closed_paths_filter_run (execute : string -> M unit)
        (act : ActionSchema) (declared : list PathSchema) (w : World) :
  service act = "filter" -> action act = "split-into-paths" ->
  params act = PathsParams declared ->
  dot_free (name act) = true ->
  status (w_run w) = playing ->
  (forall s, In s (actions (steps (w_run w))) -> step_name s <> name act) ->
  (forall path, In path declared ->
                canContinue_false (evalPath (w_run w) path) = true) ->
  (exists w1,
      RunAutomationUseCase.runAction env dispatcher execute act "" w = (Return false, w1) /\
      status (w_run w1) = filtered /\
      (forall e, In e (w_log w1) -> In e (w_log w) \/ exists r, e = Updated r)) /\
  (exists w2,
      status (w_run w2) = filtered /\
      (forall e, In e (w_log w2) -> In e (w_log w) \/ exists r, e = Updated r) /\
      forall rest automation_name findPath fuel,
        RunAutomationUseCase.execute env dispatcher automation_name (act :: rest)
          findPath (S fuel) "" w = (Return tt, w2)).
Proof.
  intros Hs Ha Hp Hdot Hplaying Hfresh Hclosed.
  assert (Hall : forallb canContinue_false (map (evalPath (w_run w)) declared) = true).
  { apply forallb_forall. intros p Hp'. apply in_map_iff in Hp'.
    destruct Hp' as [path [<- Hpath]]. apply Hclosed. exact Hpath. }
  split.
  - exists (closedWorld act declared w).
    split; [apply runAction_closed_paths; assumption|].
    split; [reflexivity | apply closedPathsWorld_log].
  - exists (snd (update (closedWorld act declared (tick w)))).
    split; [reflexivity|]. split.
    + unfold update, bind, get_run, emit. cbn [snd w_log w_run]. intros e He.
      apply in_app_or in He. destruct He as [He|[<-|[]]].
      * apply (closedPathsWorld_log act declared (tick w)). exact He.
      * right. eexists. reflexivity.
    + intros rest automation_name findPath fuel.
      cbn [RunAutomationUseCase.execute].
      unfold RunAutomationUseCase.execute_body. cbn [String.eqb].
      unfold try_catch. unfold bind at 1.
      rewrite (@topLoop_closed_paths _ act declared rest w Hs Ha Hp Hdot Hplaying
                 Hfresh Hall).
      reflexivity.
Qed.

End TopLevelClosedPaths.

(** Two declared paths: the filter of one decides [false], the filter of
    the other cannot be evaluated. *)
Definition closed_paths : list PathSchema :=
  [{| path_name := "p1"; path_filter := JBool false |};
   {| path_name := "p2"; path_filter := JStr "?" |}].

Definition sample_dispatcher : ActionSchema -> string -> M ActionResult :=
  RunActionUseCase.execute sample_env sample_fillSchema sample_runFilter
    sample_runService (fun _ => true) sample_runIntegration.

Lemma top_level_closed_paths_sample :
  (exists w1,
      RunAutomationUseCase.runAction sample_env sample_dispatcher no_paths
        (sample_split closed_paths) "" (sample_world (sample_run [] playing))
      = (Return false, w1) /\
      status (w_run w1) = filtered /\
      (forall e, In e (w_log w1) ->
                 In e (w_log (sample_world (sample_run [] playing))) \/
                 exists r, e = Updated r)) /\
  (exists w2,
      status (w_run w2) = filtered /\
      (forall e, In e (w_log w2) ->
                 In e (w_log (sample_world (sample_run [] playing))) \/
                 exists r, e = Updated r) /\
      forall rest automation_name findPath fuel,
        RunAutomationUseCase.execute sample_env sample_dispatcher automation_name
          (sample_split closed_paths :: rest) findPath (S fuel) ""
          (sample_world (sample_run [] playing)) = (Return tt, w2)).
Proof.
  apply (@top_level_closed_paths_filter_run sample_env sample_fillSchema sample_runFilter
           sample_runService (fun _ => true) sample_runIntegration no_paths
           (sample_split closed_paths) closed_paths
           (sample_world (sample_run [] playing))).
  - reflexivity.
  - reflexivity.
  - reflexivity.
  - reflexivity.
  - reflexivity.
  - intros s [].
  - intros path [<-|[<-|[]]]; reflexivity.
Qed.

(** The orchestrator on the automation [split; foo]: the run ends
    [filtered] and [foo] is never started. *)
Example closed_paths_sample :
  let w' := snd (RunAutomationUseCase.execute sample_env sample_dispatcher "sample"
                   [sample_split closed_paths; sample_schema "foo"]
                   (fun _ => Returns []) 2 ""
                   (sample_world (sample_run [] playing))) in
  status (w_run w') = filtered /\
  map step_name (actions (steps (w_run w'))) = ["split"] /\
  map event_kind (w_log w') = ["update"; "update"; "update"; "update"].
Proof. repeat split; reflexivity. Qed.

(** ** A [split-into-paths] inside a path *)

(** The automation [a], a [split-into-paths] whose open path [p] holds the
    [split-into-paths] action [b], every path of which is closed. *)
Definition inner_split : ActionSchema :=
  {| name := "b"; service := "filter"; action := "split-into-paths";
     params := PathsParams closed_paths |}.

Definition outer_split : ActionSchema :=
  {| name := "a"; service := "filter"; action := "split-into-paths";
     params := PathsParams [{| path_name := "p"; path_filter := JBool true |}] |}.

Definition nested_findPath (pathName : string) : returned (list ActionSchema) :=
  if pathName =? "a.p" then Returns [inner_split] else Returns [].

Definition nested_split_world : World :=
  snd (RunAutomationUseCase.execute sample_env sample_dispatcher "nested"
         [outer_split] nested_findPath 3 "" (sample_world (sample_run [] playing))).

Definition is_alert (e : Event) : bool :=
  match e with AlertEmail _ _ => true | _ => false end.

(** C9.  A [split-into-paths] action all of whose paths' filters decide
    [canContinue: false] is meant to leave the run [filtered], not [stopped].
    For the action [b] placed in a path of another [split-into-paths] the
    orchestrator ends with the run [stopped] and sends an alert: the
    dispatcher appends the paths step of [b] to the top-level steps, and
    [successActionStep("a.p.b")] looks for it among the actions of path [p],
    throws [Action step "a.p.b" not found], and the failure of path [p] stops
    the run.  (At the top level the run does end [filtered]:
    [top_level_closed_paths_filter_run].) *)
Theorem nested_closed_paths_stop_run :
  fst (RunAutomationUseCase.execute sample_env sample_dispatcher "nested"
         [outer_split] nested_findPath 3 "" (sample_world (sample_run [] playing)))
  = Return tt /\
  status (w_run nested_split_world) = stopped /\
  map step_name (actions (steps (w_run nested_split_world))) = ["a"; "b"] /\
  getActionOrPathsStep (w_run nested_split_world) "a.p.b" = Ok None /\
  map event_kind (List.filter is_alert (w_log nested_split_world)) = ["alert"].
Proof. repeat split; reflexivity. Qed.

(* ===================================================================== *)
(** * Starting a step and finding it again *)
(* ===================================================================== *)

(** What the descent of a dotted path reads of a step: its name and, for a
    paths step, the names of its paths. *)
Definition nav (s : Step) : string * option (list string) :=
  (step_name s,
   match s with
   | SAction _ => None
   | SPaths _ _ _ paths => Some (map (fun p => path_name (p_schema p)) paths)
   end).

Lemma nav_update_paths (j : nat) (g : list Step -> list Step) (s : Step) :
  nav (update_paths j g s) = nav s.
Proof.
  destruct s as [a|sc st fin ps]; [reflexivity|].
  unfold nav. simpl. f_equal. f_equal.
  apply map_update_nth. intros [schema i o acts]. reflexivity.
Qed.

(** Below the top level, [startActionStep] changes no name that a descent
    reads. *)
Lemma startActionStep_segs_nav (schema : ActionSchema) (input : json) (now : Time)
      (pathSegments : list string) :
  forall top top',
    2 <= List.length pathSegments ->
    startActionStep_segs schema input now top pathSegments = Ok top' ->
    map nav top' = map nav top.
Proof.
  induction pathSegments as [|a|a p segments IH] using segments_ind;
    intros top top' Hlen Hstart; simpl in Hlen; try lia.
  simpl in Hstart.
  destruct (findIndex (named a) top) as [i|]; [|discriminate].
  destruct (nth_error top i) as [[x|sc st fin paths]|]; try discriminate.
  destruct (findIndex (path_named p) paths) as [j|]; [|discriminate].
  destruct (List.length segments <? 2)%nat eqn:Hshort.
  - injection Hstart as <-. apply map_update_nth. intros s. apply nav_update_paths.
  - apply Nat.ltb_ge in Hshort. apply (IH top top' Hshort Hstart).
Qed.

(** With two segments or more, a lookup does not read its [steps]
    argument. *)
Lemma getActionOrPathsStep_segs_steps (top : list Step) (pathSegments : list string)
      (steps : option (list Step)) :
  2 <= List.length pathSegments ->
  getActionOrPathsStep_segs top pathSegments steps =
  getActionOrPathsStep_segs top pathSegments None.
Proof.
  destruct pathSegments as [|a [|p segments]]; simpl; intros H; try lia.
  reflexivity.
Qed.

Lemma find_map_names {A} (f : A -> string) (n : string) (l l' : list A) :
  map f l = map f l' ->
  findIndex (fun x => f x =? n) l = findIndex (fun x => f x =? n) l'.
Proof.
  intros H.
  rewrite <- !(findIndex_map f (fun m => m =? n)). rewrite H. reflexivity.
Qed.

(** The first two segments of a path resolve in [top'] as they do in
    [top] when the two lists read the same. *)
Lemma descend_nav (top top' : list Step) (a p : string) :
  map nav top' = map nav top ->
  match find (named a) top, find (named a) top' with
  | Some (SPaths _ _ _ paths), Some (SPaths _ _ _ paths') =>
      match find (path_named p) paths, find (path_named p) paths' with
      | Some _, Some _ | None, None => True
      | _, _ => False
      end
  | Some (SAction _), Some (SAction _) | None, None => True
  | _, _ => False
  end.
Proof.
  intros H. rewrite !find_findIndex.
  assert (Hn : map step_name top' = map step_name top).
  { apply (f_equal (map fst)) in H. rewrite !map_map in H. exact H. }
  rewrite (@findIndex_named_shape a top' top Hn).
  destruct (findIndex (named a) top) as [i|]; [|exact I].
  pose proof (@map_eq_nth _ _ nav top' top i H) as Hi.
  destruct (nth_error top i) as [[x|sc st fin ps]|],
           (nth_error top' i) as [[x'|sc' st' fin' ps']|];
    simpl in Hi; try discriminate; try exact I.
  injection Hi as _ Hps. rewrite !find_findIndex.
  unfold path_named.
  rewrite (@find_map_names _ (fun q => path_name (p_schema q)) p ps' ps Hps).
  assert (Hlen : List.length ps' = List.length ps).
  { rewrite <- (length_map (fun q => path_name (p_schema q)) ps'), Hps.
    apply length_map. }
  destruct (findIndex (fun x => path_name (p_schema x) =? p) ps) as [j|] eqn:Hj;
    [|exact I].
  apply findIndex_Some in Hj. destruct Hj as [q [Hq _]].
  rewrite Hq.
  assert (Hlt : j < List.length ps') by (rewrite Hlen; apply nth_error_Some; congruence).
  apply nth_error_Some in Hlt.
  destruct (nth_error ps' j); [exact I | congruence].
Qed.

Lemma find_app_fresh (n : string) (l : list Step) (x : Step) :
  find (named n) l = None -> named n x = true ->
  find (named n) (l ++ [x]) = Some x.
Proof.
  intros Hl Hx. induction l as [|y l IH]; simpl in *.
  - rewrite Hx. reflexivity.
  - destruct (named n y); [discriminate | apply IH; exact Hl].
Qed.

Section StartThenLookup.

Variable schema : ActionSchema.
Variable input : json.
Variable now : Time.

Lemma startActionStep_segs_lookup (pathSegments : list string) :
  forall top top',
    Nat.odd (List.length pathSegments) = true ->
    last pathSegments "" = name schema ->
    getActionOrPathsStep_segs top pathSegments None = Ok None ->
    startActionStep_segs schema input now top pathSegments = Ok top' ->
    getActionOrPathsStep_segs top' pathSegments None =
    Ok (Some (newActionStep schema input now)).
Proof.
  induction pathSegments as [|c|a p segments IH] using segments_ind;
    intros top top' Hodd Hlast Hget Hstart.
  - discriminate.
  - simpl in *. injection Hstart as <-. injection Hget as Hget. f_equal.
    apply find_app_fresh; [exact Hget|].
    unfold named. simpl. rewrite <- Hlast. apply String.eqb_refl.
  - assert (Hodd' : Nat.odd (List.length segments) = true) by exact Hodd.
    assert (Hlast' : last segments "" = name schema).
    { destruct segments as [|s segments']; [discriminate|]. exact Hlast. }
    pose proof (@startActionStep_segs_nav schema input now (a :: p :: segments)
                  top top' ltac:(simpl; lia) Hstart) as Hnav.
    pose proof (@descend_nav top top' a p Hnav) as Hdesc.
    simpl in Hstart, Hget. simpl.
    rewrite find_findIndex in Hget, Hdesc.
    destruct (findIndex (named a) top) as [i|] eqn:Hi; [|discriminate].
    destruct (nth_error top i) as [[x|sc st fin paths]|] eqn:Hti; try discriminate.
    destruct (find (named a) top') as [[x'|sc' st' fin' paths']|] eqn:Ha';
      try contradiction.
    rewrite find_findIndex in Hget, Hdesc.
    destruct (findIndex (path_named p) paths) as [j|] eqn:Hj; [|discriminate].
    destruct (nth_error paths j) as [path|] eqn:Hpj;
      [|apply findIndex_Some in Hj; destruct Hj as [q [Hq _]]; congruence].
    destruct (find (path_named p) paths') as [path'|] eqn:Hp'; [|contradiction].
    destruct segments as [|c segments']; [discriminate|].
    change (0 <? List.length (c :: segments'))%nat with true in *.
    cbv iota in *.
    destruct segments' as [|p2 segments''].
    + (* the step goes into path [p] of [a] *)
      simpl in Hstart. injection Hstart as <-.
      simpl in Hget. injection Hget as Hget.
      rewrite find_findIndex in Ha'.
      rewrite (@findIndex_named_shape a _ top
                 (map_update_nth step_name _ i top
                    (fun s => f_equal fst (nav_update_paths j _ s)))) in Ha'.
      rewrite Hi, nth_error_update_nth, Hti in Ha'. simpl in Ha'.
      injection Ha' as <- <- <- <-.
      rewrite find_findIndex in Hp'. unfold path_named in Hp'.
      rewrite (@find_map_names _ (fun q => path_name (p_schema q)) p _ paths
                 (map_update_nth (fun q => path_name (p_schema q)) _ j paths
                    (fun q => match q with MkPathStep _ _ _ _ => eq_refl end))) in Hp'.
      fold (path_named p) in Hp'. rewrite Hj, nth_error_update_nth, Hpj in Hp'.
      simpl in Hp'. injection Hp' as <-.
      simpl. f_equal. destruct path as [ps pi po acts]. simpl in *.
      apply find_app_fresh; [exact Hget|].
      unfold named. simpl. rewrite <- Hlast. apply String.eqb_refl.
    + (* the descent goes on from the top *)
      change (List.length (c :: p2 :: segments'') <? 2)%nat with false in Hstart.
      cbv iota in Hstart.
      rewrite getActionOrPathsStep_segs_steps in Hget by (simpl; lia).
      rewrite getActionOrPathsStep_segs_steps by (simpl; lia).
      apply (IH top top' Hodd' Hlast' Hget Hstart).
Qed.

End StartThenLookup.


Lemma update_nth_twice {A} (f g : A -> A) (i : nat) (l : list A) :
  update_nth i f (update_nth i g l) = update_nth i (fun x => f (g x)) l.
Proof.
  revert i. induction l as [|x l IH]; intros [|i]; simpl; try reflexivity.
  rewrite IH. reflexivity.
Qed.

Lemma update_nth_same {A} (f : A -> A) (i : nat) (l : list A) (x : A) :
  nth_error l i = Some x -> f x = x -> update_nth i f l = l.
Proof.
  revert i. induction l as [|y l IH]; intros [|i] Hn Hf; simpl in *;
    try discriminate.
  - injection Hn as ->. rewrite Hf. reflexivity.
  - rewrite (IH i Hn Hf). reflexivity.
Qed.

Lemma remove_nth_app {A} (l : list A) (x : A) :
  remove_nth (List.length l) (l ++ [x]) = l.
Proof.
  induction l as [|y l IH]; simpl; [reflexivity|]. rewrite IH. reflexivity.
Qed.

Lemma findIndex_app_fresh (n : string) (l : list Step) (x : Step) :
  find (named n) l = None -> named n x = true ->
  findIndex (named n) (l ++ [x]) = Some (List.length l).
Proof.
  intros Hl Hx. induction l as [|y l IH]; simpl in *.
  - rewrite Hx. reflexivity.
  - destruct (named n y); [discriminate|]. rewrite (IH Hl). reflexivity.
Qed.

Lemma find_Some_findIndex {A} (q : A -> bool) (l : list A) (x : A) :
  find q l = Some x -> exists i, findIndex q l = Some i /\ nth_error l i = Some x.
Proof.
  rewrite find_findIndex. destruct (findIndex q l) as [i|]; [|discriminate].
  intros H. exists i. split; [reflexivity | exact H].
Qed.

Section StartThenRemove.

Variable schema : ActionSchema.
Variable input : json.
Variable now : Time.

Lemma startActionStep_segs_remove (pathSegments : list string) :
  forall top top',
    Nat.odd (List.length pathSegments) = true ->
    last pathSegments "" = name schema ->
    getActionOrPathsStep_segs top pathSegments None = Ok None ->
    startActionStep_segs schema input now top pathSegments = Ok top' ->
    removeStep_segs top' pathSegments = Some top.
Proof.
  induction pathSegments as [|c|a p segments IH] using segments_ind;
    intros top top' Hodd Hlast Hget Hstart.
  - discriminate.
  - simpl in *. injection Hstart as <-. injection Hget as Hget.
    rewrite (@findIndex_app_fresh c top _ Hget)
      by (unfold named; simpl; rewrite <- Hlast; apply String.eqb_refl).
    rewrite remove_nth_app. reflexivity.
  - assert (Hodd' : Nat.odd (List.length segments) = true) by exact Hodd.
    assert (Hlast' : last segments "" = name schema).
    { destruct segments as [|s segments']; [discriminate|]. exact Hlast. }
    pose proof (@startActionStep_segs_nav schema input now (a :: p :: segments)
                  top top' ltac:(simpl; lia) Hstart) as Hnav.
    pose proof (@descend_nav top top' a p Hnav) as Hdesc.
    simpl in Hstart, Hget.
    rewrite find_findIndex in Hget, Hdesc.
    destruct (findIndex (named a) top) as [i|] eqn:Hi; [|discriminate].
    destruct (nth_error top i) as [[x|sc st fin paths]|] eqn:Hti; try discriminate.
    destruct (find (named a) top') as [[x'|sc' st' fin' paths']|] eqn:Ha';
      try contradiction.
    rewrite find_findIndex in Hget, Hdesc.
    destruct (findIndex (path_named p) paths) as [j|] eqn:Hj; [|discriminate].
    destruct (nth_error paths j) as [path|] eqn:Hpj;
      [|apply findIndex_Some in Hj; destruct Hj as [q [Hq _]]; congruence].
    destruct (find (path_named p) paths') as [path'|] eqn:Hp'; [|contradiction].
    destruct (find_Some_findIndex _ _ Ha') as [i' [Hi' Hti']].
    destruct (find_Some_findIndex _ _ Hp') as [j' [Hj' Hpj']].
    destruct segments as [|c segments']; [discriminate|].
    change (0 <? List.length (c :: segments'))%nat with true in *.
    cbv iota in *.
    destruct segments' as [|p2 segments''].
    + (* the step went into path [p] of [a] *)
      simpl in Hstart. injection Hstart as <-.
      simpl in Hget. injection Hget as Hget.
      rewrite (@findIndex_named_shape a _ top
                 (map_update_nth step_name _ i top
                    (fun s => f_equal fst (nav_update_paths j _ s)))) in Hi'.
      rewrite Hi in Hi'. injection Hi' as <-.
      rewrite nth_error_update_nth, Hti in Hti'. simpl in Hti'.
      injection Hti' as <- <- <- <-.
      unfold path_named in Hj'.
      rewrite (@find_map_names _ (fun q => path_name (p_schema q)) p _ paths
                 (map_update_nth (fun q => path_name (p_schema q)) _ j paths
                    (fun q => match q with MkPathStep _ _ _ _ => eq_refl end))) in Hj'.
      fold (path_named p) in Hj'. rewrite Hj in Hj'. injection Hj' as <-.
      cbn [removeStep_segs]. rewrite (@findIndex_named_shape a _ top
                 (map_update_nth step_name _ i top
                    (fun s => f_equal fst (nav_update_paths j _ s)))).
      rewrite Hi, nth_error_update_nth, Hti. simpl option_map. cbv iota.
      unfold path_named at 1.
      rewrite (@find_map_names _ (fun q => path_name (p_schema q)) p _ paths
                 (map_update_nth (fun q => path_name (p_schema q)) _ j paths
                    (fun q => match q with MkPathStep _ _ _ _ => eq_refl end))).
      fold (path_named p). rewrite Hj.
      change (List.length [c] <? 2)%nat with true. cbv iota.
      unfold actions_at. simpl fst. simpl snd.
      rewrite nth_error_update_nth, Hti. simpl option_map. cbv iota.
      rewrite nth_error_update_nth, Hpj. simpl option_map. cbv iota.
      destruct path as [ps pi po acts]. simpl in Hget. simpl p_actions.
      rewrite (@findIndex_app_fresh c acts _ Hget)
        by (unfold named; simpl; rewrite <- Hlast; apply String.eqb_refl).
      f_equal. rewrite update_nth_twice.
      apply (@update_nth_same _ _ i top _ Hti). simpl.
      f_equal. rewrite update_nth_twice.
      apply (@update_nth_same _ _ j paths _ Hpj). simpl.
      rewrite remove_nth_app. reflexivity.
    + (* the descent went on from the top *)
      change (List.length (c :: p2 :: segments'') <? 2)%nat with false in Hstart.
      cbv iota in Hstart.
      rewrite getActionOrPathsStep_segs_steps in Hget by (simpl; lia).
      cbn [removeStep_segs]. rewrite Hi', Hti', Hj'.
      change (List.length (c :: p2 :: segments'') <? 2)%nat with false.
      cbv iota.
      apply (IH top top' Hodd' Hlast' Hget Hstart).
Qed.

End StartThenRemove.

Lemma find_remove_nth {A} (q : A -> bool) (k : nat) (l : list A) :
  (forall x, nth_error l k = Some x -> q x = false) ->
  find q (remove_nth k l) = find q l.
Proof.
  revert k. induction l as [|y l IH]; intros [|k] H; simpl in *; try reflexivity.
  - rewrite (H y eq_refl). reflexivity.
  - rewrite (IH k H). reflexivity.
Qed.

Lemma shape_finish_with_error (error : Error) (now : Time) (s : Step) :
  shape (finish_with_error error now s) = shape s.
Proof. destruct s; reflexivity. Qed.

Lemma removeStep_segs_unresolved (pathSegments : list string) :
  forall top,
    (forall s, getActionOrPathsStep_segs top pathSegments None <> Ok (Some s)) ->
    removeStep_segs top pathSegments = None.
Proof.
  induction pathSegments as [|c|a p segments IH] using segments_ind;
    intros top Hget.
  - reflexivity.
  - simpl in *. rewrite find_findIndex in Hget.
    destruct (findIndex (named c) top) as [i|] eqn:Hi; [|reflexivity].
    destruct (findIndex_Some _ _ Hi) as [x [Hx _]]. rewrite Hx in Hget.
    exfalso. apply (Hget x). reflexivity.
  - cbn [removeStep_segs]. cbn [getActionOrPathsStep_segs] in Hget.
    rewrite find_findIndex in Hget.
    destruct (findIndex (named a) top) as [i|] eqn:Hi; [|reflexivity].
    destruct (nth_error top i) as [[x|sc st fin paths]|] eqn:Hti; try reflexivity.
    rewrite find_findIndex in Hget.
    destruct (findIndex (path_named p) paths) as [j|] eqn:Hj; [|reflexivity].
    destruct (findIndex_Some _ _ Hj) as [path [Hpj _]]. rewrite Hpj in Hget.
    destruct segments as [|c segments']; [reflexivity|].
    change (0 <? List.length (c :: segments'))%nat with true in Hget.
    cbv iota in Hget.
    destruct segments' as [|p2 segments''].
    + change (List.length [c] <? 2)%nat with true. cbv iota.
      unfold actions_at. simpl fst. simpl snd. rewrite Hti, Hpj.
      simpl in Hget. rewrite find_findIndex in Hget.
      destruct (findIndex (named c) (p_actions path)) as [k|] eqn:Hk; [|reflexivity].
      destruct (findIndex_Some _ _ Hk) as [x [Hx _]]. rewrite Hx in Hget.
      exfalso. apply (Hget x). reflexivity.
    + change (List.length (c :: p2 :: segments'') <? 2)%nat with false. cbv iota.
      apply IH. intros s.
      rewrite <- (@getActionOrPathsStep_segs_steps top (c :: p2 :: segments'')
                    (Some (p_actions path)) ltac:(simpl; lia)).
      apply Hget.
Qed.

(* ===================================================================== *)
(** * The life of a step: started, found, finished, removed *)
(* ===================================================================== *)

(** A run with a branch [A.p] that holds one finished step [x]. *)
Definition run_with_branch : Run :=
  sample_run [paths_step "A" [path_entry "p" true [finished_step "x" (JObj [])]]]
             playing.

(** The same run once [startActionStep("A.p.y", ...)] ran at time 1000. *)
Definition run_started_in_branch : Run :=
  match startActionStep run_with_branch "A.p.y" (sample_schema "y") JNull 1000%Z with
  | Ok r' => r'
  | Throw _ => run_with_branch
  end.

(** X1.  A step started at a well-formed path (an odd number of segments,
    the last one the action's name) where the lookup found nothing is what
    the lookup of that path finds afterwards, at any depth. *)
Theorem startActionStep_then_lookup (r r' : Run) (actionPath : string)
        (schema : ActionSchema) (input : json) (now : Time) :
  Nat.odd (List.length (split actionPath)) = true ->
  last (split actionPath) "" = name schema ->
  getActionOrPathsStep r actionPath = Ok None ->
  startActionStep r actionPath schema input now = Ok r' ->
  getActionOrPathsStep r' actionPath = Ok (Some (newActionStep schema input now)).
Proof.
  intros Hodd Hlast Hget Hstart. unfold startActionStep in Hstart.
  destruct (startActionStep_segs schema input now (actions (steps r)) (split actionPath))
    as [acts|m] eqn:Hsegs; [|discriminate].
  injection Hstart as <-. unfold getActionOrPathsStep. simpl.
  apply (@startActionStep_segs_lookup schema input now (split actionPath)
           (actions (steps r)) acts Hodd Hlast Hget Hsegs).
Qed.

Lemma startActionStep_then_lookup_witness :
  getActionOrPathsStep run_started_in_branch "A.p.y" =
  Ok (Some (newActionStep (sample_schema "y") JNull 1000%Z)).
Proof.
  apply (@startActionStep_then_lookup run_with_branch run_started_in_branch
           "A.p.y" (sample_schema "y") JNull 1000%Z); reflexivity.
Defined.

(** X2.  Removing a step that was just started at such a path undoes the
    start: the steps are those of the run before, at any depth. *)
Theorem startActionStep_then_removeStep (r r' : Run) (actionPath : string)
        (schema : ActionSchema) (input : json) (now later : Time) :
  Nat.odd (List.length (split actionPath)) = true ->
  last (split actionPath) "" = name schema ->
  getActionOrPathsStep r actionPath = Ok None ->
  startActionStep r actionPath schema input now = Ok r' ->
  steps (removeStep r' actionPath later) = steps r /\
  updatedAt (removeStep r' actionPath later) = later.
Proof.
  intros Hodd Hlast Hget Hstart. unfold startActionStep in Hstart.
  destruct (startActionStep_segs schema input now (actions (steps r)) (split actionPath))
    as [acts|m] eqn:Hsegs; [|discriminate].
  injection Hstart as <-. unfold removeStep. simpl.
  rewrite (@startActionStep_segs_remove schema input now (split actionPath)
             (actions (steps r)) acts Hodd Hlast Hget Hsegs).
  simpl. split; [|reflexivity]. destruct r as [? [? ?] ? ? ? ? ? ?]. reflexivity.
Qed.

Lemma startActionStep_then_removeStep_witness :
  steps (removeStep run_started_in_branch "A.p.y" 1001%Z) = steps run_with_branch /\
  updatedAt (removeStep run_started_in_branch "A.p.y" 1001%Z) = 1001%Z.
Proof.
  apply (@startActionStep_then_removeStep run_with_branch run_started_in_branch
           "A.p.y" (sample_schema "y") JNull 1000%Z 1001%Z); reflexivity.
Defined.

(** X3.  A step that was started and not finished is not executed for
    [isStepExecuted], and is executed with success for
    [isStepExecutedWithSuccess]: its [error] key is there and holds
    [undefined]. *)
Theorem started_step_is_executed_with_success (r r' : Run) (actionPath : string)
        (schema : ActionSchema) (input : json) (now : Time) :
  Nat.odd (List.length (split actionPath)) = true ->
  last (split actionPath) "" = name schema ->
  getActionOrPathsStep r actionPath = Ok None ->
  startActionStep r actionPath schema input now = Ok r' ->
  isStepExecuted r' actionPath = Ok false /\
  isStepExecutedWithSuccess r' actionPath = Ok true.
Proof.
  intros Hodd Hlast Hget Hstart. unfold startActionStep in Hstart.
  destruct (startActionStep_segs schema input now (actions (steps r)) (split actionPath))
    as [acts|m] eqn:Hsegs; [|discriminate].
  injection Hstart as <-.
  unfold isStepExecuted, isStepExecutedWithSuccess, getActionOrPathsStep. simpl.
  rewrite (@startActionStep_segs_lookup schema input now (split actionPath)
             (actions (steps r)) acts Hodd Hlast Hget Hsegs).
  split; reflexivity.
Qed.

Lemma started_step_is_executed_with_success_witness :
  isStepExecuted run_started_in_branch "A.p.y" = Ok false /\
  isStepExecutedWithSuccess run_started_in_branch "A.p.y" = Ok true.
Proof.
  apply (@started_step_is_executed_with_success run_with_branch
           run_started_in_branch "A.p.y" (sample_schema "y") JNull 1000%Z);
    reflexivity.
Defined.

(** X4.  [successActionStep] against the lookup: it throws what the lookup
    throws, throws "not found" where the lookup finds nothing, and otherwise
    leaves at the path the step the lookup found, finished at [now] and,
    when it has an [output] key, with the output; the status stays. *)
Theorem successActionStep_then_lookup (r : Run) (actionPath : string)
        (output : json) (now : Time) :
  match getActionOrPathsStep r actionPath with
  | Ok (Some s) =>
      exists r',
        successActionStep r actionPath output now = Ok r' /\
        getActionOrPathsStep r' actionPath =
        Ok (Some (finish_with_output output now s)) /\
        status r' = status r /\
        updatedAt r' = now
  | Ok None =>
      successActionStep r actionPath output now =
      Throw ("Action step " ++ dquote ++ actionPath ++ dquote ++ " not found")
  | Throw m => successActionStep r actionPath output now = Throw m
  end.
Proof.
  destruct (getActionOrPathsStep r actionPath) as [[s|]|m] eqn:Hget.
  - destruct (get_Some_ref _ _ Hget) as [l [Hl Hs]].
    eexists. split; [apply (successActionStep_at _ _ _ _ Hl)|].
    split; [|split; reflexivity].
    rewrite (@get_after_update r actionPath _ now l
               (shape_finish_with_output output now) Hl), Hs.
    reflexivity.
  - unfold successActionStep. rewrite (get_None_ref _ _ Hget). reflexivity.
  - unfold successActionStep. rewrite get_ref in Hget.
    destruct (refActionOrPathsStep r actionPath) as [[l|]|m'];
      try discriminate.
    simpl in Hget. congruence.
Qed.

Lemma stopActionStep_found (r : Run) (actionPath : string) (s : Step)
      (error : Error) (now : Time) :
  status r = playing \/ status r = filtered ->
  getActionOrPathsStep r actionPath = Ok (Some s) ->
  exists r',
    stopActionStep r actionPath error now = Ok r' /\
    status r' = stopped /\
    getActionOrPathsStep r' actionPath = Ok (Some (finish_with_error error now s)).
Proof.
  intros Hst Hget.
  destruct (get_Some_ref _ _ Hget) as [l [Hl Hs]].
  eexists. split; [|split].
  - unfold stopActionStep. rewrite Hl. destruct Hst as [-> | ->]; reflexivity.
  - reflexivity.
  - change (getActionOrPathsStep
              (with_actions r
                 (update_at l (finish_with_error error now) (actions (steps r))) now)
              actionPath = Ok (Some (finish_with_error error now s))).
    rewrite (@get_after_update r actionPath _ now l
               (shape_finish_with_error error now) Hl), Hs.
    reflexivity.
Qed.

(** X5.  Stopping a run that is [playing] or [filtered] at a path where the
    lookup finds an action step with an [error] key records the error on
    that step: the lookup then finds it with the error, finished at [now],
    and it is not executed with success; the run is [stopped]. *)
Theorem stopActionStep_records_error (r : Run) (actionPath : string)
        (a : ActionStep) (error : Error) (now : Time) :
  status r = playing \/ status r = filtered ->
  getActionOrPathsStep r actionPath = Ok (Some (SAction a)) ->
  has_key (a_error a) = true ->
  exists r',
    stopActionStep r actionPath error now = Ok r' /\
    status r' = stopped /\
    getActionOrPathsStep r' actionPath =
    Ok (Some (SAction {| a_schema := a_schema a;
                         a_startedAt := a_startedAt a;
                         a_finishedAt := Some now;
                         a_input := a_input a;
                         a_output := a_output a;
                         a_error := Value error |})) /\
    isStepExecutedWithSuccess r' actionPath = Ok false.
Proof.
  intros Hst Hget Hkey.
  destruct (@stopActionStep_found r actionPath (SAction a) error now Hst Hget) as [r' [Hstop [Hstatus Hlookup]]].
  simpl in Hlookup. rewrite Hkey in Hlookup.
  exists r'. split; [exact Hstop|]. split; [exact Hstatus|].
  split; [exact Hlookup|].
  unfold isStepExecutedWithSuccess. rewrite Hlookup. reflexivity.
Qed.

Lemma stopActionStep_records_error_witness :
  exists r',
    stopActionStep run_started_in_branch "A.p.y" {| message := "boom" |} 1001%Z =
    Ok r' /\
    status r' = stopped /\
    getActionOrPathsStep r' "A.p.y" =
    Ok (Some (SAction {| a_schema := sample_schema "y";
                         a_startedAt := 1000%Z;
                         a_finishedAt := Some 1001%Z;
                         a_input := JNull;
                         a_output := Undefined;
                         a_error := Value {| message := "boom" |} |})) /\
    isStepExecutedWithSuccess r' "A.p.y" = Ok false.
Proof.
  apply (@stopActionStep_records_error run_started_in_branch "A.p.y"
           {| a_schema := sample_schema "y"; a_startedAt := 1000%Z;
              a_finishedAt := None; a_input := JNull;
              a_output := Undefined; a_error := Undefined |}
           {| message := "boom" |} 1001%Z);
    [left; reflexivity | reflexivity | reflexivity].
Defined.

(** X6.  [removeStep] changes nothing, the update time included, at a path
    where the lookup finds no step or throws. *)
Theorem removeStep_unresolved (r : Run) (actionPath : string) (now : Time) :
  (forall s, getActionOrPathsStep r actionPath <> Ok (Some s)) ->
  removeStep r actionPath now = r.
Proof.
  intros H. unfold removeStep.
  rewrite (@removeStep_segs_unresolved (split actionPath) (actions (steps r)) H).
  reflexivity.
Qed.

Lemma removeStep_unresolved_witness :
  removeStep run_with_branch "A.q.x" 1000%Z = run_with_branch.
Proof.
  apply (@removeStep_unresolved run_with_branch "A.q.x" 1000%Z).
  intros s H. vm_compute in H. discriminate H.
Defined.

Lemma split_app (s t : string) :
  split (s ++ String dot t) = (split s ++ split t)%list.
Proof.
  induction s as [|c s IH]; simpl.
  - reflexivity.
  - destruct (Ascii.eqb c dot); rewrite IH; [reflexivity|].
    pose proof (split_not_nil s) as Hs.
    destruct (split s) as [|h tl]; [contradiction|]. reflexivity.
Qed.

(** X7.  Removing by a bare action name only looks at the top level: the
    step of that name inside a path [a.p] of another step stays where the
    lookup finds it. *)
Theorem removeStep_by_name_keeps_step_in_path (r : Run)
        (pathName a p n : string) (now : Time) :
  split pathName = [a; p] ->
  dot_free n = true ->
  a <> n ->
  getActionOrPathsStep (removeStep r n now) (pathName ++ "." ++ n) =
  getActionOrPathsStep r (pathName ++ "." ++ n).
Proof.
  intros Hpath Hn Han.
  unfold getActionOrPathsStep, removeStep.
  change (pathName ++ "." ++ n) with (pathName ++ String dot n).
  rewrite split_app, Hpath, (split_dot_free _ Hn). simpl app.
  cbn [removeStep_segs].
  destruct (findIndex (named n) (actions (steps r))) as [k|] eqn:Hk;
    [|reflexivity].
  cbn [with_actions steps actions getActionOrPathsStep_segs].
  rewrite find_remove_nth; [reflexivity|].
  intros x Hx. destruct (findIndex_Some _ _ Hk) as [y [Hy Hnamed]].
  rewrite Hx in Hy. injection Hy as <-.
  unfold named in *. apply String.eqb_eq in Hnamed. apply String.eqb_neq.
  congruence.
Qed.

(** A run with a failed step [x] in the branch [A.p] and a finished step
    [x] at the top. *)
Definition run_same_name_twice : Run :=
  sample_run [paths_step "A" [path_entry "p" true [failed_step "x" "boom"]];
              finished_step "x" (JObj [])]
             playing.

Lemma removeStep_by_name_keeps_step_in_path_witness :
  getActionOrPathsStep (removeStep run_same_name_twice "x" 1000%Z) ("A.p" ++ "." ++ "x") =
  getActionOrPathsStep run_same_name_twice ("A.p" ++ "." ++ "x").
Proof.
  apply (@removeStep_by_name_keeps_step_in_path run_same_name_twice
           "A.p" "A" "p" "x" 1000%Z);
    [reflexivity | reflexivity | discriminate].
Defined.

(* ===================================================================== *)
(** * The first recorded error of a run without branches *)
(* ===================================================================== *)

Definition is_action_step (s : Step) : bool :=
  match s with SAction _ => true | SPaths _ _ _ _ => false end.

(** [step.error], when it holds an error. *)
Definition recorded_error (s : Step) : option Error :=
  match s with
  | SAction a => field_value (a_error a)
  | SPaths _ _ _ _ => None
  end.

Lemma getError_without_paths (l : list Step) :
  forallb is_action_step l = true ->
  getError l = match find has_error l with
               | Some s => recorded_error s
               | None => None
               end.
Proof.
  induction l as [|[a|sc st fin paths] l IH]; intros H; simpl in H.
  - simp getError. reflexivity.
  - rewrite getError_action_step. cbn [find has_error].
    destruct (a_error a) as [| |e] eqn:He; try (apply IH; exact H).
    simpl. rewrite He. reflexivity.
  - discriminate.
Qed.

(** X8.  On a run whose steps are all action steps, [getErrorMessage()] is
    the message of the first step with a recorded error, and [undefined]
    when no step has one. *)
Theorem getErrorMessage_without_paths (r : Run) :
  forallb is_action_step (actions (steps r)) = true ->
  getErrorMessage r =
  match find has_error (actions (steps r)) with
  | Some s => option_map message (recorded_error s)
  | None => None
  end.
Proof.
  intros H. unfold getErrorMessage. rewrite (getError_without_paths _ H).
  destruct (find has_error (actions (steps r))); reflexivity.
Qed.

Lemma getErrorMessage_without_paths_witness :
  getErrorMessage
    (sample_run [finished_step "a" (JObj []); failed_step "b" "first";
                 failed_step "c" "second"] stopped) =
  match find has_error [finished_step "a" (JObj []); failed_step "b" "first";
                        failed_step "c" "second"] with
  | Some s => option_map message (recorded_error s)
  | None => None
  end.
Proof.
  apply (@getErrorMessage_without_paths
           (sample_run [finished_step "a" (JObj []); failed_step "b" "first";
                        failed_step "c" "second"] stopped)).
  reflexivity.
Defined.

(* ===================================================================== *)
(** * Steps read back from their JSON text *)
(* ===================================================================== *)

Lemma get_clone (r : Run) (u : string) (actionPath : string) :
  getActionOrPathsStep (clone r u) actionPath =
  match getActionOrPathsStep r actionPath with
  | Ok (Some s) => Ok (Some (json_copy_step s))
  | other => other
  end.
Proof.
  rewrite !get_ref, ref_clone.
  destruct (refActionOrPathsStep r actionPath) as [[l|]|m]; try reflexivity.
  simpl. rewrite deref_copy.
  destruct (deref (actions (steps r)) l); reflexivity.
Qed.

(** X9.  A step that was started and not finished loses its [output] and
    [error] keys in a clone: there [isStepExecuted] answers [true] where it
    answered [false], and [successActionStep] finishes the step without
    recording the output. *)
Theorem clone_of_unfinished_step (r : Run) (u : string) (actionPath : string)
        (a : ActionStep) (output : json) (now : Time) :
  getActionOrPathsStep r actionPath = Ok (Some (SAction a)) ->
  a_output a = Undefined ->
  a_error a = Undefined ->
  isStepExecuted r actionPath = Ok false /\
  isStepExecuted (clone r u) actionPath = Ok true /\
  exists r',
    successActionStep (clone r u) actionPath output now = Ok r' /\
    getActionOrPathsStep r' actionPath =
    Ok (Some (SAction {| a_schema := a_schema a;
                         a_startedAt := a_startedAt a;
                         a_finishedAt := Some now;
                         a_input := a_input a;
                         a_output := Absent;
                         a_error := Absent |})).
Proof.
  intros Hget Hout Herr.
  pose proof (get_clone r u actionPath) as Hclone. rewrite Hget in Hclone.
  split; [|split].
  - unfold isStepExecuted. rewrite Hget, Hout. reflexivity.
  - unfold isStepExecuted. rewrite Hclone. simpl. rewrite Hout, Herr. reflexivity.
  - destruct (get_Some_ref _ _ Hclone) as [l [Hl Hs]].
    eexists. split; [apply (successActionStep_at _ _ _ _ Hl)|].
    rewrite (@get_after_update (clone r u) actionPath _ now l
               (shape_finish_with_output output now) Hl), Hs.
    simpl. rewrite Hout, Herr. reflexivity.
Qed.

Lemma clone_of_unfinished_step_witness :
  isStepExecuted run_started_in_branch "A.p.y" = Ok false /\
  isStepExecuted (clone run_started_in_branch "run-2") "A.p.y" = Ok true /\
  exists r',
    successActionStep (clone run_started_in_branch "run-2") "A.p.y"
                      (JObj [("x", JNum 1)]) 1001%Z = Ok r' /\
    getActionOrPathsStep r' "A.p.y" =
    Ok (Some (SAction {| a_schema := sample_schema "y";
                         a_startedAt := 1000%Z;
                         a_finishedAt := Some 1001%Z;
                         a_input := JNull;
                         a_output := Absent;
                         a_error := Absent |})).
Proof.
  apply (@clone_of_unfinished_step run_started_in_branch "run-2" "A.p.y"
           {| a_schema := sample_schema "y"; a_startedAt := 1000%Z;
              a_finishedAt := None; a_input := JNull;
              a_output := Undefined; a_error := Undefined |}
           (JObj [("x", JNum 1)]) 1001%Z); reflexivity.
Defined.

(* ===================================================================== *)
(** * The data of the last step *)
(* ===================================================================== *)

(** [buildData] on a paths step, as the source writes it. *)
Lemma buildData_paths (sc : PathsStepSchema) (st : Time) (fin : option Time)
      (paths : list PathStep) :
  buildData (SPaths sc st fin paths) =
  JObj (fold_left
          (fun acc path =>
             match last_step (p_actions path) with
             | Some lastAction =>
                 obj_set (path_name (p_schema path)) (buildData lastAction) acc
             | None => acc
             end)
          paths []).
Proof.
  cbn [buildData]. f_equal. apply fold_left_ext_Forall.
  apply Forall_forall. intros [schema i o acts] _ acc. simpl.
  assert (H : forall l : list Step,
             (fix lastData (l : list Step) : option json :=
                match l with
                | [] => None
                | [lastAction] => Some (buildData lastAction)
                | _ :: l' => lastData l'
                end) l = option_map buildData (last_step l)).
  { induction l as [|x [|y l'] IH]; try reflexivity.
    rewrite IH. unfold last_step. simpl. rewrite Nat.sub_0_r. reflexivity. }
  rewrite H. destruct (last_step acts); reflexivity.
Qed.

Lemma last_step_app (l : list Step) (x : Step) : last_step (l ++ [x]) = Some x.
Proof.
  unfold last_step. rewrite length_app. simpl.
  replace (List.length l + 1 - 1) with (List.length l) by lia.
  rewrite nth_error_app2 by lia. rewrite Nat.sub_diag. reflexivity.
Qed.

(** X10.  After a step is started at the top level under a name no step
    has yet and then finished with an output, it is the last step and the
    data of the last step is that output ([{}] for [null]). *)
Theorem getLastActionStepData_after_success (r r1 r2 : Run) (schema : ActionSchema)
        (input output : json) (now later : Time) :
  dot_free (name schema) = true ->
  getActionOrPathsStep r (name schema) = Ok None ->
  startActionStep r (name schema) schema input now = Ok r1 ->
  successActionStep r1 (name schema) output later = Ok r2 ->
  getLastActionStep r2 =
  Some (finish_with_output output later (newActionStep schema input now)) /\
  getLastActionStepData r2 = match output with JNull => JObj [] | _ => output end.
Proof.
  intros Hfree Hget Hstart Hsucc.
  unfold startActionStep in Hstart. unfold getActionOrPathsStep in Hget.
  rewrite (split_dot_free _ Hfree) in Hstart, Hget.
  simpl in Hstart, Hget. injection Hstart as <-. injection Hget as Hget.
  assert (Hfresh : forall s, In s (actions (steps r)) -> step_name s <> name schema).
  { intros s Hs. pose proof (List.find_none _ _ Hget s Hs) as H.
    unfold named in H. apply String.eqb_neq. exact H. }
  rewrite (@successActionStep_at _ _ output later _
             (@ref_appended r (actions (steps r)) (newActionStep schema input now)
                (name schema) now Hfree Hfresh eq_refl)) in Hsucc.
  injection Hsucc as <-.
  unfold getLastActionStepData, getLastActionStep.
  cbn [with_actions steps actions update_at].
  rewrite update_nth_app, last_step_app.
  split; [reflexivity|]. destruct output; reflexivity.
Qed.

Lemma getLastActionStepData_after_success_witness :
  getLastActionStep
    (with_actions
       (sample_run [finished_step "a" (JObj []);
                    finish_with_output (JObj [("x", JNum 1)]) 1001%Z
                      (newActionStep (sample_schema "b") JNull 1000%Z)] playing)
       [finished_step "a" (JObj []);
        finish_with_output (JObj [("x", JNum 1)]) 1001%Z
          (newActionStep (sample_schema "b") JNull 1000%Z)] 1001%Z) =
  Some (finish_with_output (JObj [("x", JNum 1)]) 1001%Z
          (newActionStep (sample_schema "b") JNull 1000%Z)) /\
  getLastActionStepData
    (with_actions
       (sample_run [finished_step "a" (JObj []);
                    finish_with_output (JObj [("x", JNum 1)]) 1001%Z
                      (newActionStep (sample_schema "b") JNull 1000%Z)] playing)
       [finished_step "a" (JObj []);
        finish_with_output (JObj [("x", JNum 1)]) 1001%Z
          (newActionStep (sample_schema "b") JNull 1000%Z)] 1001%Z) =
  JObj [("x", JNum 1)].
Proof.
  apply (@getLastActionStepData_after_success
           (sample_run [finished_step "a" (JObj [])] playing)
           (with_actions (sample_run [finished_step "a" (JObj [])] playing)
              [finished_step "a" (JObj []);
               newActionStep (sample_schema "b") JNull 1000%Z] 1000%Z)
           _ (sample_schema "b") JNull (JObj [("x", JNum 1)]) 1000%Z 1001%Z);
    reflexivity.
Defined.

(** The path whose last action is recorded under the name [n]: the last of
    the paths of that name that have an action. *)
Definition recorded_path (n : string) (paths : list PathStep) : option PathStep :=
  find (fun path =>
          path_named n path &&
          match last_step (p_actions path) with Some _ => true | None => false end)
       (rev paths).

Lemma buildData_fold_get (n : string) (paths : list PathStep) :
  obj_get n
    (fold_left
       (fun acc path =>
          match last_step (p_actions path) with
          | Some lastAction =>
              obj_set (path_name (p_schema path)) (buildData lastAction) acc
          | None => acc
          end)
       paths []) =
  match recorded_path n paths with
  | Some path => option_map buildData (last_step (p_actions path))
  | None => None
  end.
Proof.
  unfold recorded_path.
  induction paths as [|path paths IH] using rev_ind; [reflexivity|].
  rewrite fold_left_app, rev_app_distr. cbn [fold_left rev app find].
  unfold path_named at 1.
  destruct (last_step (p_actions path)) as [lastAction|] eqn:Hlast.
  - destruct (path_name (p_schema path) =? n) eqn:Hn; cbn [andb].
    + apply String.eqb_eq in Hn. rewrite Hn, obj_get_set_same, Hlast. reflexivity.
    + apply String.eqb_neq in Hn. rewrite obj_get_set_other by congruence.
      exact IH.
  - rewrite andb_false_r. exact IH.
Qed.

(** X11.  When the last step is a paths step, the data of the last step is
    an object that holds, under a path's name, the data of the last action
    of that path (of the last one with actions, if several paths share the
    name); a name whose paths have no action is not a key. *)
Theorem getLastActionStepData_of_paths (r : Run) (sc : PathsStepSchema)
        (st : Time) (fin : option Time) (paths : list PathStep) :
  getLastActionStep r = Some (SPaths sc st fin paths) ->
  exists data,
    getLastActionStepData r = JObj data /\
    forall n,
      obj_get n data =
      match recorded_path n paths with
      | Some path => option_map buildData (last_step (p_actions path))
      | None => None
      end.
Proof.
  intros Hlast. unfold getLastActionStepData. rewrite Hlast, buildData_paths.
  eexists. split; [reflexivity|]. intros n. apply buildData_fold_get.
Qed.

Lemma getLastActionStepData_of_paths_witness :
  exists data,
    getLastActionStepData
      (sample_run
         [paths_step "A" [path_entry "p" true [finished_step "x" (JObj []);
                                               finished_step "y" (JNum 5)];
                          path_entry "q" false []]] playing) = JObj data /\
    forall n,
      obj_get n data =
      match recorded_path n [path_entry "p" true [finished_step "x" (JObj []);
                                                  finished_step "y" (JNum 5)];
                             path_entry "q" false []] with
      | Some path => option_map buildData (last_step (p_actions path))
      | None => None
      end.
Proof.
  apply (@getLastActionStepData_of_paths
           (sample_run
              [paths_step "A" [path_entry "p" true [finished_step "x" (JObj []);
                                                    finished_step "y" (JNum 5)];
                               path_entry "q" false []]] playing)
           {| ps_name := "A"; ps_service := "filter"; ps_action := "split-into-paths" |}
           3%Z (Some 4%Z)).
  reflexivity.
Defined.

(* ===================================================================== *)
(** * The dispatcher: failures come back as results *)
(* ===================================================================== *)

(** A computation that never runs out of fuel: it returns or throws. *)
Definition settles {A} (m : M A) : Prop :=
  forall w, (exists a w', m w = (Return a, w')) \/ (exists t w', m w = (Raise t, w')).

Lemma settles_ret {A} (a : A) : settles (ret a).
Proof. intros w. left. exists a, w. reflexivity. Qed.

Lemma settles_raise {A} (t : thrown) : settles (@raise A t).
Proof. intros w. right. exists t, w. reflexivity. Qed.

Lemma settles_bind {A B} (m : M A) (k : A -> M B) :
  settles m -> (forall a, settles (k a)) -> settles (bind m k).
Proof.
  intros Hm Hk w. unfold bind.
  destruct (Hm w) as [[a [w' ->]] | [t [w' ->]]].
  - apply Hk.
  - right. exists t, w'. reflexivity.
Qed.

Lemma settles_external {A} (o : returned A) : settles (external o).
Proof. destruct o; [apply settles_ret | apply settles_raise]. Qed.

Lemma settles_call {A} (r : result A) : settles (call r).
Proof. destruct r; [apply settles_ret | apply settles_raise]. Qed.

Lemma settles_get_run : settles get_run.
Proof. intros w. left. exists (w_run w), w. reflexivity. Qed.

Lemma settles_set_run (r : Run) : settles (set_run r).
Proof. intros w. left. eexists. eexists. reflexivity. Qed.

Lemma settles_emit (e : Event) : settles (emit e).
Proof. intros w. left. eexists. eexists. reflexivity. Qed.

Lemma settles_new_Date (env : Env) : settles (new_Date env).
Proof. intros w. left. eexists. eexists. reflexivity. Qed.

Lemma settles_on_run (env : Env) (method : Run -> Time -> result Run) :
  settles (on_run env method).
Proof.
  unfold on_run.
  apply settles_bind; [apply settles_new_Date|]. intros now.
  apply settles_bind; [apply settles_get_run|]. intros r.
  apply settles_bind; [apply settles_call|]. intros r'.
  apply settles_set_run.
Qed.

Lemma settles_update : settles update.
Proof.
  unfold update. apply settles_bind; [apply settles_get_run|].
  intros r. apply settles_emit.
Qed.

Create HintDb settles.

#[local] Hint Resolve settles_ret settles_raise settles_external settles_call
  settles_get_run settles_set_run settles_emit settles_new_Date settles_on_run
  settles_update : settles.

Ltac settle :=
  repeat (first [ apply settles_bind; [|intros ?] | solve [auto with settles] ]).

Section Dispatcher.

Variable env : Env.
Variable fillSchema : json -> obj -> returned json.
Variable runFilter : json -> Run -> returned obj.
Variable runService : ActionSchema -> json -> returned json.
Variable findConnection : ActionSchema -> bool.
Variable runIntegration : ActionSchema -> json -> returned ActionResult.

Local Notation "'fillInputData'" :=
  (RunActionUseCase.fillInputData env fillSchema).
Local Notation "'dispatch'" :=
  (RunActionUseCase.dispatch env fillSchema runFilter runService findConnection
                             runIntegration).
Local Notation "'dispatcher'" :=
  (RunActionUseCase.execute env fillSchema runFilter runService findConnection
                            runIntegration).

Lemma settles_fillInputData (inputData : json) (actionPath : string)
      (act : ActionSchema) :
  settles (fillInputData inputData actionPath act).
Proof. unfold RunActionUseCase.fillInputData. settle. Qed.

Lemma settles_dispatch (act : ActionSchema) (actionPath : string) :
  settles (dispatch act actionPath).
Proof.
  pose proof settles_fillInputData as Hfill.
  unfold RunActionUseCase.dispatch, RunActionUseCase.splitIntoPaths,
    RunActionUseCase.unhandled.
  repeat match goal with
         | |- settles (if ?b then _ else _) => destruct b
         end; settle.
Qed.

(** X12.  The dispatcher never throws and always answers: whatever the
    action, the path and the collaborators do, [execute] resolves with a
    result. *)
Theorem dispatcher_always_answers (act : ActionSchema) (actionPath : string)
        (w : World) :
  exists res w', dispatcher act actionPath w = (Return res, w').
Proof.
  unfold RunActionUseCase.execute, try_catch, bind.
  destruct (settles_dispatch act actionPath w) as [[d [w' ->]] | [t [w' ->]]].
  - destruct d as [data|res]; eexists; eexists; reflexivity.
  - destruct t; eexists; eexists; reflexivity.
Qed.

(** The built-in services, whose result the dispatcher wraps itself. *)
Definition built_in (act : ActionSchema) : bool :=
  (service act =? "code") || (service act =? "http") ||
  (service act =? "filter") || (service act =? "database").

Lemma dispatch_built_in (act : ActionSchema) (actionPath : string)
      (w w' : World) (d : json + ActionResult) :
  built_in act = true ->
  dispatch act actionPath w = (Return d, w') ->
  exists data, d = inl data.
Proof.
  unfold built_in, RunActionUseCase.dispatch, RunActionUseCase.unhandled.
  intros Hb.
  repeat match goal with
         | |- (if ?b then _ else _) _ = _ -> _ => destruct b
         end;
    try discriminate; unfold bind, ret, raise;
    repeat match goal with
           | |- context [match ?m with (_, _) => _ end] =>
               destruct m as [[?|?|] ?]
           end;
    intros H; try discriminate H; injection H as <- _; eexists; reflexivity.
Qed.

(** X13.  For a built-in service (code, http, filter, database) the data
    of a result is never falsy: a falsy value a service answers is replaced
    by [{}]. *)
Theorem dispatcher_data_is_truthy (act : ActionSchema) (actionPath : string)
        (w w' : World) (data : json) :
  built_in act = true ->
  dispatcher act actionPath w = (Return (ResData data), w') ->
  truthy data = true.
Proof.
  intros Hb. unfold RunActionUseCase.execute, try_catch, bind.
  destruct (dispatch act actionPath w) as [[d|t|] w1] eqn:Hd.
  - destruct (dispatch_built_in _ _ _ Hb Hd) as [v ->].
    unfold ret. intros H. injection H as <- _.
    destruct (truthy v) eqn:Hv; [exact Hv | reflexivity].
  - destruct t; discriminate.
  - discriminate.
Qed.

(** The cases that start the step and then call a service: the code runs,
    the http requests and the record creation. *)
Definition calls_service (act : ActionSchema) : bool :=
  ((service act =? "code") &&
   ((action act =? "run-typescript") || (action act =? "run-javascript"))) ||
  ((service act =? "http") && ((action act =? "get") || (action act =? "post"))) ||
  ((service act =? "database") && (action act =? "create-record")).

Lemma dispatch_calls_service (act : ActionSchema) (actionPath : string) :
  calls_service act = true ->
  dispatch act actionPath =
  (p <- fillInputData (RunActionUseCase.params_json act) actionPath act ;;
   data <- external (runService act p) ;;
   ret (inl data)).
Proof.
  unfold calls_service, RunActionUseCase.dispatch.
  destruct (service act =? "code") eqn:Hcode.
  - destruct ((action act =? "run-typescript") || (action act =? "run-javascript"));
      [reflexivity|].
    apply String.eqb_eq in Hcode. rewrite Hcode. simpl. discriminate.
  - destruct (service act =? "http") eqn:Hhttp.
    + destruct ((action act =? "get") || (action act =? "post")); [reflexivity|].
      apply String.eqb_eq in Hhttp. rewrite Hhttp. simpl. discriminate.
    + destruct (service act =? "filter") eqn:Hfilter.
      * apply String.eqb_eq in Hfilter. rewrite Hfilter. simpl. discriminate.
      * destruct (service act =? "database"); [|discriminate].
        destruct (action act =? "create-record"); [reflexivity | discriminate].
Qed.

Lemma on_run_Ok (method : Run -> Time -> result Run) (w : World) (r' : Run) :
  method (w_run w) (clock env (w_ticks w)) = Ok r' ->
  on_run env method w =
  (Return tt, {| w_run := r'; w_log := w_log w; w_ticks := S (w_ticks w);
                 w_uuids := w_uuids w |}).
Proof.
  intros H. unfold on_run, bind, new_Date, get_run, call, set_run.
  cbn [w_run w_log w_ticks w_uuids]. rewrite H. reflexivity.
Qed.

Lemma on_run_Throw (method : Run -> Time -> result Run) (w : World) (m : string) :
  method (w_run w) (clock env (w_ticks w)) = Throw m ->
  on_run env method w = (Raise (ErrorThrown m), tick w).
Proof.
  intros H. unfold on_run, bind, new_Date, get_run, call, set_run.
  cbn [w_run w_log w_ticks w_uuids]. rewrite H. reflexivity.
Qed.

(** The world once a step was started and the run persisted. *)
Definition startedWorld (w : World) (r' : Run) : World :=
  {| w_run := r'; w_log := w_log w ++ [Updated r']; w_ticks := S (w_ticks w);
     w_uuids := w_uuids w |}.

Lemma fillInputData_started (inputData p : json) (actionPath : string)
      (act : ActionSchema) (w : World) (r' : Run) :
  fillSchema inputData (getStepsOutput (w_run w)) = Returns p ->
  startActionStep (w_run w) actionPath act p (clock env (w_ticks w)) = Ok r' ->
  fillInputData inputData actionPath act w = (Return p, startedWorld w r').
Proof.
  intros Hfill Hstart. unfold RunActionUseCase.fillInputData.
  unfold bind at 1. unfold get_run at 1. rewrite Hfill.
  unfold bind at 1. unfold external at 1. unfold ret at 1.
  unfold bind at 1.
  rewrite (@on_run_Ok (fun r now => startActionStep r actionPath act p now) w r' Hstart).
  reflexivity.
Qed.

Lemma fillInputData_not_started (inputData p : json) (actionPath : string)
      (act : ActionSchema) (w : World) (m : string) :
  fillSchema inputData (getStepsOutput (w_run w)) = Returns p ->
  startActionStep (w_run w) actionPath act p (clock env (w_ticks w)) = Throw m ->
  fillInputData inputData actionPath act w = (Raise (ErrorThrown m), tick w).
Proof.
  intros Hfill Hstart. unfold RunActionUseCase.fillInputData.
  unfold bind at 1. unfold get_run at 1. rewrite Hfill.
  unfold bind at 1. unfold external at 1. unfold ret at 1.
  unfold bind at 1.
  rewrite (@on_run_Throw (fun r now => startActionStep r actionPath act p now) w m Hstart).
  reflexivity.
Qed.

Lemma dispatch_service_throws (act : ActionSchema) (actionPath : string)
      (w : World) (p : json) (r' : Run) (t : thrown) :
  calls_service act = true ->
  fillSchema (RunActionUseCase.params_json act) (getStepsOutput (w_run w)) = Returns p ->
  startActionStep (w_run w) actionPath act p (clock env (w_ticks w)) = Ok r' ->
  runService act p = Throws t ->
  dispatch act actionPath w = (Raise t, startedWorld w r').
Proof.
  intros Hcalls Hfill Hstart Hthrows.
  rewrite (dispatch_calls_service act actionPath Hcalls).
  unfold bind at 1.
  rewrite (@fillInputData_started _ p actionPath act w r' Hfill Hstart).
  rewrite Hthrows. reflexivity.
Qed.

(** X14.  The step is started and the run persisted before the service is
    called: when the service throws, the dispatcher answers an error result
    (the message of an [Error], ["Unknown error"] for anything else) and
    leaves the run with the step started, nothing recorded on it. *)
Theorem dispatcher_service_throws (act : ActionSchema) (actionPath : string)
        (w : World) (p : json) (r' : Run) (t : thrown) :
  calls_service act = true ->
  fillSchema (RunActionUseCase.params_json act) (getStepsOutput (w_run w)) = Returns p ->
  startActionStep (w_run w) actionPath act p (clock env (w_ticks w)) = Ok r' ->
  runService act p = Throws t ->
  dispatcher act actionPath w =
  (Return (ResError {| message := match t with
                                  | ErrorThrown m => m
                                  | OtherThrown _ => "Unknown error"
                                  end |}),
   {| w_run := r'; w_log := w_log w ++ [Updated r']; w_ticks := S (w_ticks w);
      w_uuids := w_uuids w |}).
Proof.
  intros Hcalls Hfill Hstart Hthrows.
  unfold RunActionUseCase.execute, try_catch.
  unfold bind at 1.
  rewrite (@dispatch_service_throws act actionPath w p r' t Hcalls Hfill Hstart Hthrows).
  destruct t; reflexivity.
Qed.

(** X15.  When the step cannot be started (the path does not resolve), the
    dispatcher answers the error of [startActionStep] as a result; the run
    is left as it was and nothing is persisted. *)
Theorem dispatcher_step_not_started (act : ActionSchema) (actionPath : string)
        (w : World) (p : json) (m : string) :
  calls_service act = true ->
  fillSchema (RunActionUseCase.params_json act) (getStepsOutput (w_run w)) = Returns p ->
  startActionStep (w_run w) actionPath act p (clock env (w_ticks w)) = Throw m ->
  exists w',
    dispatcher act actionPath w = (Return (ResError {| message := m |}), w') /\
    w_run w' = w_run w /\
    w_log w' = w_log w.
Proof.
  intros Hcalls Hfill Hstart.
  exists (tick w). split; [|split; reflexivity].
  unfold RunActionUseCase.execute, try_catch.
  rewrite (dispatch_calls_service act actionPath Hcalls).
  unfold bind at 1. unfold bind at 1.
  rewrite (@fillInputData_not_started _ p actionPath act w m Hfill Hstart).
  reflexivity.
Qed.

(** X16.  An action of no built-in service whose account has no connection
    gets an error result, and nothing else happens: no step is started,
    nothing is persisted. *)
Theorem dispatcher_without_connection (act : ActionSchema) (actionPath : string)
        (w : World) :
  built_in act = false ->
  findConnection act = false ->
  exists error, dispatcher act actionPath w = (Return (ResError error), w).
Proof.
  unfold built_in. intros Hb Hc.
  apply orb_false_iff in Hb. destruct Hb as [Hb Hdatabase].
  apply orb_false_iff in Hb. destruct Hb as [Hb Hfilter].
  apply orb_false_iff in Hb. destruct Hb as [Hcode Hhttp].
  unfold RunActionUseCase.execute, RunActionUseCase.dispatch, try_catch.
  rewrite Hcode, Hhttp, Hfilter, Hdatabase, Hc.
  eexists. reflexivity.
Qed.

End Dispatcher.

(** A code service that throws, and an integration without connection. *)
Definition failing_runService (_ : ActionSchema) (_ : json) : returned json :=
  Throws (ErrorThrown "boom").

Definition null_runService (_ : ActionSchema) (_ : json) : returned json :=
  Returns JNull.

Definition sample_integration : ActionSchema :=
  {| name := "post"; service := "slack"; action := "send-message";
     params := Params (JObj []) |}.

Lemma dispatcher_data_is_truthy_witness :
  RunActionUseCase.execute sample_env sample_fillSchema sample_runFilter
    null_runService (fun _ => true) sample_runIntegration
    (sample_schema "foo") "foo" (sample_world (sample_run [] playing)) =
  (Return (ResData (JObj [])),
   snd (RunActionUseCase.execute sample_env sample_fillSchema sample_runFilter
          null_runService (fun _ => true) sample_runIntegration
          (sample_schema "foo") "foo" (sample_world (sample_run [] playing)))) /\
  truthy (JObj []) = true.
Proof.
  split; [reflexivity|].
  apply (@dispatcher_data_is_truthy sample_env sample_fillSchema sample_runFilter
           null_runService (fun _ => true) sample_runIntegration
           (sample_schema "foo") "foo" (sample_world (sample_run [] playing))
           (snd (RunActionUseCase.execute sample_env sample_fillSchema sample_runFilter
                   null_runService (fun _ => true) sample_runIntegration
                   (sample_schema "foo") "foo" (sample_world (sample_run [] playing))))
           (JObj [])); reflexivity.
Defined.

Lemma dispatcher_service_throws_witness :
  RunActionUseCase.execute sample_env sample_fillSchema sample_runFilter
    failing_runService (fun _ => true) sample_runIntegration
    (sample_schema "foo") "foo" (sample_world (sample_run [] playing)) =
  (Return (ResError {| message := "boom" |}),
   {| w_run := with_actions (sample_run [] playing) [SAction started_foo] 1000%Z;
      w_log := [Updated (with_actions (sample_run [] playing) [SAction started_foo]
                           1000%Z)];
      w_ticks := 1;
      w_uuids := 0 |}).
Proof.
  apply (@dispatcher_service_throws sample_env sample_fillSchema sample_runFilter
           failing_runService (fun _ => true) sample_runIntegration
           (sample_schema "foo") "foo" (sample_world (sample_run [] playing))
           JNull
           (with_actions (sample_run [] playing) [SAction started_foo] 1000%Z)
           (ErrorThrown "boom")); reflexivity.
Defined.

Lemma dispatcher_step_not_started_witness :
  exists w',
    RunActionUseCase.execute sample_env sample_fillSchema sample_runFilter
      sample_runService (fun _ => true) sample_runIntegration
      (sample_schema "x") "A.q.x" (sample_world run_with_branch) =
    (Return (ResError {| message := "Path step not found" |}), w') /\
    w_run w' = w_run (sample_world run_with_branch) /\
    w_log w' = w_log (sample_world run_with_branch).
Proof.
  apply (@dispatcher_step_not_started sample_env sample_fillSchema sample_runFilter
           sample_runService (fun _ => true) sample_runIntegration
           (sample_schema "x") "A.q.x" (sample_world run_with_branch) JNull
           "Path step not found"); reflexivity.
Defined.

Lemma dispatcher_without_connection_witness :
  exists error,
    RunActionUseCase.execute sample_env sample_fillSchema sample_runFilter
      sample_runService (fun _ => false) sample_runIntegration
      sample_integration "post" (sample_world (sample_run [] playing)) =
    (Return (ResError error), sample_world (sample_run [] playing)).
Proof.
  apply (@dispatcher_without_connection sample_env sample_fillSchema sample_runFilter
           sample_runService (fun _ => false) sample_runIntegration
           sample_integration "post" (sample_world (sample_run [] playing)));
    reflexivity.
Defined.

(* ===================================================================== *)
(** * The orchestrator: failures, replays and the final status *)
(* ===================================================================== *)

Lemma stop_execution_returns (env : Env) (error : Error) (w : World) :
  exists r',
    on_run env (fun r now => stopActionStep r "execution" error now) w =
    (Return tt, {| w_run := r'; w_log := w_log w; w_ticks := S (w_ticks w);
                   w_uuids := w_uuids w |}) /\
    (status r' = success \/ status r' = stopped).
Proof.
  assert (H : exists r', stopActionStep (w_run w) "execution" error
                           (clock env (w_ticks w)) = Ok r' /\
                         (status r' = success \/ status r' = stopped)).
  { unfold stopActionStep, refActionOrPathsStep.
    change (split "execution") with ["execution"].
    cbn [refActionOrPathsStep_segs].
    destruct (status (w_run w)) eqn:Hst;
      destruct (findIndex (named "execution") (actions (steps (w_run w))));
      eexists; (split; [reflexivity|]); cbn [option_map with_status status];
      auto. }
  destruct H as [r' [Hstop Hstatus]]. exists r'. split; [|exact Hstatus].
  apply (@on_run_Ok env (fun r now => stopActionStep r "execution" error now) w r' Hstop).
Qed.

Lemma runSucceed_not_playing (r : Run) :
  status (runSucceed r) = success \/ status (runSucceed r) = stopped \/
  status (runSucceed r) = filtered.
Proof. unfold runSucceed. destruct (status r) eqn:H; simpl; auto. Qed.

Lemma existsb_find {A} (f : A -> bool) (l : list A) :
  existsb f l = true -> exists x, find f l = Some x /\ f x = true.
Proof.
  induction l as [|y l IH]; simpl; [discriminate|].
  destruct (f y) eqn:Hy; [intros _; exists y; split; [reflexivity | exact Hy]|].
  exact IH.
Qed.

Section Orchestrator.

Variable env : Env.
Variable runActionUseCase : ActionSchema -> string -> M ActionResult.
Variable automation_name : string.
Variable automation_actions : list ActionSchema.
Variable findPath : string -> returned (list ActionSchema).

Local Notation "'execute'" :=
  (RunAutomationUseCase.execute env runActionUseCase automation_name
                                automation_actions findPath).
Local Notation "'topLoop'" :=
  (RunAutomationUseCase.topLoop env runActionUseCase).
Local Notation "'pathLoop'" :=
  (RunAutomationUseCase.pathLoop env runActionUseCase).

(** The world once the run was marked and persisted at the end. *)
Definition succeededWorld (w : World) : World :=
  {| w_run := runSucceed (w_run w);
     w_log := w_log w ++ [Updated (runSucceed (w_run w))];
     w_ticks := w_ticks w;
     w_uuids := w_uuids w |}.

Lemma topLoop_skips (exec : string -> M unit) (acts : list ActionSchema) (w : World) :
  Forall (fun act => isStepExecutedWithSuccess (w_run w) (name act) = Ok true) acts ->
  topLoop exec acts w = (Return true, w).
Proof.
  induction 1 as [|act rest Hact _ IH]; [reflexivity|].
  cbn [RunAutomationUseCase.topLoop].
  unfold bind at 1. unfold get_run at 1.
  assert (Hrerun :
    (if (service act =? "filter") && (action act =? "split-into-paths")
     then
       step <- call (getActionOrPathsStep (w_run w) (name act)) ;;
       ret (match step with
            | Some (SPaths _ _ _ paths) => hasPathErrors paths
            | _ => false
            end)
     else ret false) w = (Return false, w)).
  { destruct ((service act =? "filter") && (action act =? "split-into-paths"));
      [|reflexivity].
    unfold isStepExecutedWithSuccess in Hact.
    destruct (getActionOrPathsStep (w_run w) (name act))
      as [[[a|sc st fin paths]|]|m]; try discriminate; try reflexivity.
    injection Hact as Hact. apply negb_true_iff in Hact.
    unfold bind, call, ret. rewrite Hact. reflexivity. }
  unfold bind at 1. rewrite Hrerun.
  unfold bind at 1. rewrite Hact. unfold call at 1. unfold ret at 1.
  exact IH.
Qed.

(** X17.  Replaying an automation whose every action is already executed
    with success runs no action: nothing is dispatched, no step is touched;
    the run is marked by [runSucceed] and persisted once. *)
Theorem finished_automation_is_not_run_again (fuel : nat) (w : World) :
  Forall (fun act => isStepExecutedWithSuccess (w_run w) (name act) = Ok true)
         automation_actions ->
  execute (S fuel) "" w =
  (Return tt,
   {| w_run := runSucceed (w_run w);
      w_log := w_log w ++ [Updated (runSucceed (w_run w))];
      w_ticks := w_ticks w;
      w_uuids := w_uuids w |}).
Proof.
  intros Hall. cbn [RunAutomationUseCase.execute].
  unfold RunAutomationUseCase.execute_body. cbn [String.eqb].
  unfold try_catch.
  destruct automation_actions as [|act rest] eqn:Hacts; [reflexivity|].
  unfold bind at 1. rewrite (@topLoop_skips _ _ _ Hall). reflexivity.
Qed.

Lemma pathLoop_skips (exec : string -> M unit) (pathName : string)
      (acts : list ActionSchema) (w : World) :
  Forall (fun act =>
            isStepExecutedWithSuccess (w_run w) (pathName ++ "." ++ name act) = Ok true)
         acts ->
  pathLoop exec pathName acts w = (Return tt, w).
Proof.
  induction 1 as [|act rest Hact _ IH]; [reflexivity|].
  cbn [RunAutomationUseCase.pathLoop].
  unfold bind at 1. unfold get_run at 1.
  unfold bind at 1. rewrite Hact. unfold call at 1. unfold ret at 1.
  exact IH.
Qed.

(** X18.  Replaying a path whose every action is already executed with
    success does nothing at all: no action is dispatched, the run is not
    touched and nothing is persisted. *)
Theorem finished_path_is_not_run_again (fuel : nat) (pathName : string)
        (acts : list ActionSchema) (w : World) :
  pathName <> "" ->
  findPath pathName = Returns acts ->
  Forall (fun act =>
            isStepExecutedWithSuccess (w_run w) (pathName ++ "." ++ name act) = Ok true)
         acts ->
  execute (S fuel) pathName w = (Return tt, w).
Proof.
  intros Hname Hfind Hall. cbn [RunAutomationUseCase.execute].
  unfold RunAutomationUseCase.execute_body.
  apply String.eqb_neq in Hname. rewrite Hname.
  unfold try_catch. unfold bind at 1. rewrite Hfind.
  unfold external at 1. unfold ret at 1.
  rewrite (@pathLoop_skips _ _ _ _ Hall). reflexivity.
Qed.

Lemma finish_returns (w : World) :
  (r <- get_run ;; set_run (runSucceed r) ;;; update) w =
  (Return tt, succeededWorld w).
Proof. reflexivity. Qed.

(** X19.  Once [execute] resolves at the top level the run is no longer
    [playing], whatever the actions did. *)
Theorem resolved_run_is_not_playing (fuel : nat) (w w' : World) :
  execute fuel "" w = (Return tt, w') ->
  status (w_run w') <> playing.
Proof.
  destruct fuel as [|fuel]; [discriminate|].
  cbn [RunAutomationUseCase.execute].
  unfold RunAutomationUseCase.execute_body. cbn [String.eqb].
  unfold try_catch.
  match goal with
  | |- (match ?body w with _ => _ end) = _ -> _ =>
      destruct (body w) as [[[]|[m|s]|] w1] eqn:Hbody
  end.
  - (* the loop went through *)
    intros H. injection H as <-.
    destruct automation_actions as [|act rest].
    + rewrite finish_returns in Hbody. injection Hbody as <-.
      cbn [succeededWorld w_run].
      destruct (runSucceed_not_playing (w_run w)) as [H|[H|H]]; rewrite H;
        discriminate.
    + unfold bind at 1 in Hbody.
      destruct (topLoop (RunAutomationUseCase.execute env runActionUseCase
                           automation_name _ findPath fuel) (act :: rest) w)
        as [[[|]|t|] w2]; try discriminate.
      * rewrite finish_returns in Hbody. injection Hbody as <-.
        cbn [succeededWorld w_run].
        destruct (runSucceed_not_playing (w_run w2)) as [H|[H|H]]; rewrite H;
          discriminate.
      * unfold bind at 1 in Hbody. unfold get_run at 1 in Hbody.
        destruct (status_eqb (status (w_run w2)) filtered) eqn:Hf.
        -- unfold bind at 1 in Hbody. unfold ret at 1 in Hbody.
           injection Hbody as <-. cbn [w_run].
           destruct (status (w_run w2)); discriminate.
        -- unfold bind at 1 in Hbody.
           destruct (stop_execution_returns env
                       {| message := "Automation stopped due to action failure" |} w2)
             as [r' [Hstop Hstatus]].
           rewrite Hstop in Hbody. injection Hbody as <-. cbn [w_run].
           destruct Hstatus as [H|H]; rewrite H; discriminate.
  - (* an [Error] was caught *)
    unfold bind at 1.
    destruct (stop_execution_returns env {| message := m |} w1)
      as [r' [Hstop Hstatus]].
    rewrite Hstop. intros H. injection H as <-. cbn [w_run].
    destruct Hstatus as [H|H]; rewrite H; discriminate.
  - discriminate.
  - discriminate.
Qed.


End Orchestrator.

(** An automation of one code action [foo], which the run has finished;
    any dispatcher will do. *)
Lemma finished_automation_is_not_run_again_witness :
  RunAutomationUseCase.execute sample_env (items_dispatcher three_items) "auto"
    [sample_schema "foo"] (fun _ => Returns []) 1 ""
    (sample_world (sample_run [finished_step "foo" (JObj [])] playing)) =
  (Return tt,
   {| w_run := runSucceed (sample_run [finished_step "foo" (JObj [])] playing);
      w_log := [Updated (runSucceed (sample_run [finished_step "foo" (JObj [])] playing))];
      w_ticks := 0;
      w_uuids := 0 |}).
Proof.
  apply (@finished_automation_is_not_run_again sample_env
           (items_dispatcher three_items) "auto" [sample_schema "foo"]
           (fun _ => Returns []) 0
           (sample_world (sample_run [finished_step "foo" (JObj [])] playing))).
  repeat constructor.
Defined.

Lemma finished_path_is_not_run_again_witness :
  RunAutomationUseCase.execute sample_env (items_dispatcher three_items) "auto"
    [] (fun _ => Returns [sample_schema "x"]) 1 "A.p" (sample_world run_with_branch) =
  (Return tt, sample_world run_with_branch).
Proof.
  apply (@finished_path_is_not_run_again sample_env
           (items_dispatcher three_items) "auto" []
           (fun _ => Returns [sample_schema "x"]) 0 "A.p" [sample_schema "x"]
           (sample_world run_with_branch));
    [discriminate | reflexivity | repeat constructor].
Defined.

Lemma resolved_run_is_not_playing_witness :
  RunAutomationUseCase.execute sample_env
    (RunActionUseCase.execute sample_env sample_fillSchema sample_runFilter
       failing_runService (fun _ => true) sample_runIntegration)
    "auto" [sample_schema "foo"] (fun _ => Returns []) 1 ""
    (sample_world (sample_run [] playing)) =
  (Return tt,
   snd (RunAutomationUseCase.execute sample_env
          (RunActionUseCase.execute sample_env sample_fillSchema sample_runFilter
             failing_runService (fun _ => true) sample_runIntegration)
          "auto" [sample_schema "foo"] (fun _ => Returns []) 1 ""
          (sample_world (sample_run [] playing)))) /\
  status (w_run
            (snd (RunAutomationUseCase.execute sample_env
                    (RunActionUseCase.execute sample_env sample_fillSchema
                       sample_runFilter failing_runService (fun _ => true)
                       sample_runIntegration)
                    "auto" [sample_schema "foo"] (fun _ => Returns []) 1 ""
                    (sample_world (sample_run [] playing))))) <> playing.
Proof.
  split; [reflexivity|].
  apply (@resolved_run_is_not_playing sample_env
           (RunActionUseCase.execute sample_env sample_fillSchema sample_runFilter
              failing_runService (fun _ => true) sample_runIntegration)
           "auto" [sample_schema "foo"] (fun _ => Returns []) 1
           (sample_world (sample_run [] playing))).
  reflexivity.
Defined.

Lemma startActionStep_status (r r' : Run) (actionPath : string)
      (schema : ActionSchema) (input : json) (now : Time) :
  startActionStep r actionPath schema input now = Ok r' -> status r' = status r.
Proof.
  unfold startActionStep.
  destruct (startActionStep_segs schema input now (actions (steps r))
              (split actionPath)); [|discriminate].
  intros H. injection H as <-. reflexivity.
Qed.

Section ServiceFailure.

Variable env : Env.
Variable fillSchema : json -> obj -> returned json.
Variable runFilter : json -> Run -> returned obj.
Variable runService : ActionSchema -> json -> returned json.
Variable findConnection : ActionSchema -> bool.
Variable runIntegration : ActionSchema -> json -> returned ActionResult.
Variable execute : string -> M unit.

Local Notation "'dispatcher'" :=
  (RunActionUseCase.execute env fillSchema runFilter runService findConnection
                            runIntegration).
Local Notation "'runAction'" :=
  (RunAutomationUseCase.runAction env dispatcher execute).

(** X21.  A service that throws while the run is [playing] stops the run:
    the step started by the dispatcher gets the error and a finish time, the
    run is persisted twice (started, then stopped) and one alert is sent
    with the action's path and the error's message; [runAction] answers
    [false]. *)
Theorem service_failure_stops_the_run (act : ActionSchema)
        (pathName actionPath : string) (w : World) (p : json) (m : string)
        (r1 : Run) :
  actionPath = (if pathName =? "" then name act else pathName ++ "." ++ name act) ->
  calls_service act = true ->
  status (w_run w) = playing ->
  fillSchema (RunActionUseCase.params_json act) (getStepsOutput (w_run w)) = Returns p ->
  Nat.odd (List.length (split actionPath)) = true ->
  last (split actionPath) "" = name act ->
  getActionOrPathsStep (w_run w) actionPath = Ok None ->
  startActionStep (w_run w) actionPath act p (clock env (w_ticks w)) = Ok r1 ->
  runService act p = Throws (ErrorThrown m) ->
  exists r2,
    runAction act pathName w =
    (Return false,
     {| w_run := r2;
        w_log := w_log w ++
                 [Updated r1; Updated r2;
                  AlertEmail r2 ("action " ++ dquote ++ actionPath ++ dquote ++
                                 " stopped with error: " ++ m)];
        w_ticks := S (S (w_ticks w));
        w_uuids := w_uuids w |}) /\
    status r2 = stopped /\
    getActionOrPathsStep r2 actionPath =
    Ok (Some (SAction {| a_schema := act;
                         a_startedAt := clock env (w_ticks w);
                         a_finishedAt := Some (clock env (S (w_ticks w)));
                         a_input := p;
                         a_output := Undefined;
                         a_error := Value {| message := m |} |})) /\
    isStepExecutedWithSuccess r2 actionPath = Ok false.
Proof.
  intros Hpath Hcalls Hplaying Hfill Hodd Hlast Hget Hstart Hthrows.
  assert (Hfound : getActionOrPathsStep r1 actionPath =
                   Ok (Some (newActionStep act p (clock env (w_ticks w))))).
  { unfold startActionStep in Hstart.
    destruct (startActionStep_segs act p (clock env (w_ticks w))
                (actions (steps (w_run w))) (split actionPath))
      as [acts|m'] eqn:Hsegs; [|discriminate].
    injection Hstart as <-. unfold getActionOrPathsStep. simpl.
    apply (@startActionStep_segs_lookup act p (clock env (w_ticks w))
             (split actionPath) (actions (steps (w_run w))) acts Hodd Hlast Hget
             Hsegs). }
  assert (Hplaying1 : status r1 = playing \/ status r1 = filtered).
  { left. rewrite (startActionStep_status _ _ _ _ _ Hstart). exact Hplaying. }
  destruct (@stopActionStep_found r1 actionPath _ {| message := m |}
              (clock env (S (w_ticks w))) Hplaying1 Hfound)
    as [r2 [Hstop [Hstopped Hlookup]]].
  exists r2. split; [|split; [exact Hstopped | split]].
  - unfold RunAutomationUseCase.runAction. cbv zeta. rewrite <- Hpath.
    unfold bind at 1. unfold RunActionUseCase.execute at 1, try_catch.
    unfold bind at 1.
    rewrite (@dispatch_service_throws env fillSchema runFilter runService
               findConnection runIntegration act actionPath w p r1 (ErrorThrown m)
               Hcalls Hfill Hstart Hthrows).
    unfold ret at 1. unfold bind at 1. unfold RunAutomationUseCase.stop.
    unfold bind at 1.
    rewrite (@on_run_Ok env (fun r now => stopActionStep r actionPath
                                          {| message := m |} now)
               (startedWorld w r1) r2 Hstop).
    cbn [startedWorld w_run w_log w_ticks w_uuids message].
    unfold update. unfold bind, get_run, emit, ret.
    cbn [w_run w_log w_ticks w_uuids].
    rewrite <- ?app_assoc. reflexivity.
  - exact Hlookup.
  - unfold isStepExecutedWithSuccess. rewrite Hlookup. reflexivity.
Qed.

End ServiceFailure.

Lemma service_failure_stops_the_run_witness :
  exists r2,
    RunAutomationUseCase.runAction sample_env
      (RunActionUseCase.execute sample_env sample_fillSchema sample_runFilter
         failing_runService (fun _ => true) sample_runIntegration)
      no_paths (sample_schema "y") "A.p" (sample_world run_with_branch) =
    (Return false,
     {| w_run := r2;
        w_log := w_log (sample_world run_with_branch) ++
                 [Updated run_started_in_branch; Updated r2;
                  AlertEmail r2 ("action " ++ dquote ++ "A.p.y" ++ dquote ++
                                 " stopped with error: " ++ "boom")];
        w_ticks := S (S (w_ticks (sample_world run_with_branch)));
        w_uuids := w_uuids (sample_world run_with_branch) |}) /\
    status r2 = stopped /\
    getActionOrPathsStep r2 "A.p.y" =
    Ok (Some (SAction {| a_schema := sample_schema "y";
                         a_startedAt := clock sample_env
                                          (w_ticks (sample_world run_with_branch));
                         a_finishedAt :=
                           Some (clock sample_env
                                   (S (w_ticks (sample_world run_with_branch))));
                         a_input := JNull;
                         a_output := Undefined;
                         a_error := Value {| message := "boom" |} |})) /\
    isStepExecutedWithSuccess r2 "A.p.y" = Ok false.
Proof.
  apply (@service_failure_stops_the_run sample_env sample_fillSchema
           sample_runFilter failing_runService (fun _ => true) sample_runIntegration
           no_paths (sample_schema "y") "A.p" "A.p.y"
           (sample_world run_with_branch) JNull "boom" run_started_in_branch);
    reflexivity.
Defined.

(* ===================================================================== *)
(** * Failures inside the paths of a split *)
(* ===================================================================== *)

(** X22.  When some action of some path has a recorded error (and not
    every path was closed), the run is stopped with the message of the
    first failed action of the first failing path; the message without an
    action's error is never used. *)
Theorem path_failure_names_the_first_error (env : Env) (actionPath : string)
        (data : json) (paths : list PathStep) :
  forallb canContinue_false paths = false ->
  hasPathErrors paths = true ->
  exists failedPath failedAction error,
    find (fun path => existsb has_error (p_actions path)) paths = Some failedPath /\
    find has_error (p_actions failedPath) = Some (SAction failedAction) /\
    a_error failedAction = Value error /\
    RunAutomationUseCase.afterPaths env actionPath data paths =
    (RunAutomationUseCase.stop env actionPath
       {| message := "Path failure in multi-step execution: " ++ message error |} ;;;
     ret false).
Proof.
  intros Hopen Herrors.
  destruct (existsb_find _ _ Herrors) as [failedPath [Hpath Hfailed]].
  destruct (existsb_find _ _ Hfailed) as [s [Hstep Herr]].
  destruct s as [failedAction|sc st fin ps]; [|discriminate].
  unfold has_error in Herr.
  destruct (a_error failedAction) as [| |error] eqn:He; try discriminate.
  exists failedPath, failedAction, error.
  split; [exact Hpath|]. split; [exact Hstep|]. split; [exact He|].
  unfold RunAutomationUseCase.afterPaths.
  rewrite Hopen, Herrors, Hpath, Hstep, He. reflexivity.
Qed.

Lemma path_failure_names_the_first_error_witness :
  exists failedPath failedAction error,
    find (fun path => existsb has_error (p_actions path))
         [path_entry "p" true [finished_step "x" (JObj [])];
          path_entry "q" true [finished_step "y" (JObj []); failed_step "z" "boom";
                               failed_step "t" "late"]] = Some failedPath /\
    find has_error (p_actions failedPath) = Some (SAction failedAction) /\
    a_error failedAction = Value error /\
    RunAutomationUseCase.afterPaths sample_env "A" (JObj [])
      [path_entry "p" true [finished_step "x" (JObj [])];
       path_entry "q" true [finished_step "y" (JObj []); failed_step "z" "boom";
                            failed_step "t" "late"]] =
    (RunAutomationUseCase.stop sample_env "A"
       {| message := "Path failure in multi-step execution: " ++ message error |} ;;;
     ret false).
Proof.
  apply (@path_failure_names_the_first_error sample_env "A" (JObj [])
           [path_entry "p" true [finished_step "x" (JObj [])];
            path_entry "q" true [finished_step "y" (JObj []); failed_step "z" "boom";
                                 failed_step "t" "late"]]);
    reflexivity.
Defined.

(** What [pathFailureError] holds: nothing, or an [Error] whose message
    starts with ["Path failure: "]. *)
Definition path_failure (failure : option string) : Prop :=
  match failure with
  | None => True
  | Some message => exists m, message = "Path failure: " ++ m
  end.

Lemma executePaths_loop_failure (execute : string -> M unit)
      (schema_name : string) (data : json) (pathName : string)
      (declared : list PathSchema) :
  forall (failure : option string) (w : World),
    path_failure failure ->
    (exists failure' w',
        RunAutomationUseCase.executePaths_loop execute schema_name data pathName
          declared failure w = (Return failure', w') /\
        path_failure failure' /\
        (forall m, failure = Some m -> failure' = Some m)) \/
    (exists w',
        RunAutomationUseCase.executePaths_loop execute schema_name data pathName
          declared failure w = (OutOfFuel, w')).
Proof.
  induction declared as [|path rest IH]; intros failure w Hfailure.
  - left. exists failure, w. split; [reflexivity|]. split; [exact Hfailure|].
    intros m Hm. exact Hm.
  - assert (Hround :
      (exists failure1 w1,
          path_failure failure1 /\
          (forall m, failure = Some m -> failure1 = Some m) /\
          RunAutomationUseCase.executePaths_loop execute schema_name data pathName
            (path :: rest) failure w =
          RunAutomationUseCase.executePaths_loop execute schema_name data pathName
            rest failure1 w1) \/
      (exists w1,
          RunAutomationUseCase.executePaths_loop execute schema_name data pathName
            (path :: rest) failure w = (OutOfFuel, w1))).
    { cbn [RunAutomationUseCase.executePaths_loop]. cbv zeta.
      destruct (canContinue_true (get_prop data (path_name path))).
      - unfold bind, try_catch, ret.
        match goal with
        | |- context [execute ?p w] => destruct (execute p w) as [[[]|t|] w1]
        end.
        + left. exists failure, w1. split; [exact Hfailure|].
          split; [intros m Hm; exact Hm | reflexivity].
        + left. destruct failure as [m0|].
          * exists (Some m0), w1. split; [exact Hfailure|].
            split; [intros m Hm; exact Hm | reflexivity].
          * eexists. exists w1. split; [|split; [|reflexivity]].
            -- destruct t as [m|s]; [exists m | exists "Unknown error"]; reflexivity.
            -- intros m Hm. discriminate Hm.
        + right. exists w1. reflexivity.
      - left. exists failure, w. split; [exact Hfailure|].
        split; [intros m Hm; exact Hm | reflexivity]. }
    destruct Hround as [[failure1 [w1 [Hf1 [Hkeep1 ->]]]] | [w1 ->]].
    + destruct (IH failure1 w1 Hf1) as [[failure' [w' [Hrun [Hf Hkeep]]]] | Hfuel].
      * left. exists failure', w'. split; [exact Hrun|]. split; [exact Hf|].
        intros m Hm. apply Hkeep. apply Hkeep1. exact Hm.
      * right. exact Hfuel.
    + right. exists w1. reflexivity.
Qed.

(** X23.  [executePaths] resolves or throws an [Error] whose message starts
    with ["Path failure: "], and nothing else: whatever a path throws, an
    [Error] or not, does not get through as it is (in the model the
    recursion may also run out of fuel). *)
Theorem executePaths_throws_only_path_failures (execute : string -> M unit)
        (schema : ActionSchema) (data : json) (pathName : string) (w : World) :
  exists w',
    RunAutomationUseCase.executePaths execute schema data pathName w = (Return tt, w') \/
    (exists m,
        RunAutomationUseCase.executePaths execute schema data pathName w =
        (Raise (ErrorThrown ("Path failure: " ++ m)), w')) \/
    RunAutomationUseCase.executePaths execute schema data pathName w = (OutOfFuel, w').
Proof.
  unfold RunAutomationUseCase.executePaths. unfold bind.
  destruct (@executePaths_loop_failure execute (name schema) data pathName
              (RunActionUseCase.declared_paths schema) None w I)
    as [[failure' [w' [-> [Hf _]]]] | [w' ->]].
  - exists w'. destruct failure' as [message|].
    + destruct Hf as [m ->]. right. left. exists m. reflexivity.
    + left. reflexivity.
  - exists w'. right. right. reflexivity.
Qed.

Lemma successActionStep_found (r : Run) (actionPath : string) (s : Step)
      (output : json) (now : Time) :
  getActionOrPathsStep r actionPath = Ok (Some s) ->
  exists r',
    successActionStep r actionPath output now = Ok r' /\
    status r' = status r /\
    getActionOrPathsStep r' actionPath = Ok (Some (finish_with_output output now s)).
Proof.
  intros Hget. destruct (get_Some_ref _ _ Hget) as [l [Hl Hs]].
  eexists. split; [apply (successActionStep_at _ _ _ _ Hl)|].
  split; [reflexivity|].
  rewrite (@get_after_update r actionPath _ now l
             (shape_finish_with_output output now) Hl), Hs.
  reflexivity.
Qed.

Lemma filterActionStep_found (r : Run) (actionPath : string) (s : Step)
      (res : json) (now : Time) :
  status r = playing ->
  getActionOrPathsStep r actionPath = Ok (Some s) ->
  exists r',
    filterActionStep r actionPath res now = Ok r' /\
    status r' = filtered /\
    getActionOrPathsStep r' actionPath = Ok (Some (finish_with_output res now s)).
Proof.
  intros Hst Hget. destruct (get_Some_ref _ _ Hget) as [l [Hl Hs]].
  eexists. split; [|split].
  - unfold filterActionStep. rewrite Hst, Hl. reflexivity.
  - reflexivity.
  - change (getActionOrPathsStep
              (with_actions r
                 (update_at l (finish_with_output res now) (actions (steps r))) now)
              actionPath = Ok (Some (finish_with_output res now s))).
    rewrite (@get_after_update r actionPath _ now l
               (shape_finish_with_output res now) Hl), Hs.
    reflexivity.
Qed.

Lemma calls_service_not_filter (act : ActionSchema) :
  calls_service act = true -> (service act =? "filter") = false.
Proof.
  unfold calls_service. intros H.
  destruct (service act =? "filter") eqn:Hf; [|reflexivity].
  apply String.eqb_eq in Hf. rewrite Hf in H. discriminate H.
Qed.

Section ActionOutcomes.

Variable env : Env.
Variable fillSchema : json -> obj -> returned json.
Variable runFilter : json -> Run -> returned obj.
Variable runService : ActionSchema -> json -> returned json.
Variable findConnection : ActionSchema -> bool.
Variable runIntegration : ActionSchema -> json -> returned ActionResult.
Variable execute : string -> M unit.

Local Notation "'dispatcher'" :=
  (RunActionUseCase.execute env fillSchema runFilter runService findConnection
                            runIntegration).
Local Notation "'runAction'" :=
  (RunAutomationUseCase.runAction env dispatcher execute).

Lemma started_step_found (r r1 : Run) (actionPath : string) (act : ActionSchema)
      (p : json) (now : Time) :
  Nat.odd (List.length (split actionPath)) = true ->
  last (split actionPath) "" = name act ->
  getActionOrPathsStep r actionPath = Ok None ->
  startActionStep r actionPath act p now = Ok r1 ->
  getActionOrPathsStep r1 actionPath = Ok (Some (newActionStep act p now)).
Proof.
  intros Hodd Hlast Hget Hstart. unfold startActionStep in Hstart.
  destruct (startActionStep_segs act p now (actions (steps r)) (split actionPath))
    as [acts|m'] eqn:Hsegs; [|discriminate].
  injection Hstart as <-. unfold getActionOrPathsStep. simpl.
  apply (@startActionStep_segs_lookup act p now (split actionPath)
           (actions (steps r)) acts Hodd Hlast Hget Hsegs).
Qed.

(** X24.  An object answered by a code, http or database service while the
    run goes on is recorded as the output of the step the dispatcher
    started: the run is persisted twice (started, then finished), keeps its
    status, and [runAction] answers [true]; the step is then executed, with
    success. *)
Theorem service_answer_finishes_the_step (act : ActionSchema)
        (pathName actionPath : string) (w : World) (p : json) (data : obj)
        (r1 : Run) :
  actionPath = (if pathName =? "" then name act else pathName ++ "." ++ name act) ->
  calls_service act = true ->
  fillSchema (RunActionUseCase.params_json act) (getStepsOutput (w_run w)) = Returns p ->
  Nat.odd (List.length (split actionPath)) = true ->
  last (split actionPath) "" = name act ->
  getActionOrPathsStep (w_run w) actionPath = Ok None ->
  startActionStep (w_run w) actionPath act p (clock env (w_ticks w)) = Ok r1 ->
  runService act p = Returns (JObj data) ->
  exists r2,
    runAction act pathName w =
    (Return true,
     {| w_run := r2;
        w_log := w_log w ++ [Updated r1; Updated r2];
        w_ticks := S (S (w_ticks w));
        w_uuids := w_uuids w |}) /\
    status r2 = status (w_run w) /\
    getActionOrPathsStep r2 actionPath =
    Ok (Some (SAction {| a_schema := act;
                         a_startedAt := clock env (w_ticks w);
                         a_finishedAt := Some (clock env (S (w_ticks w)));
                         a_input := p;
                         a_output := Value (JObj data);
                         a_error := Undefined |})) /\
    isStepExecuted r2 actionPath = Ok true /\
    isStepExecutedWithSuccess r2 actionPath = Ok true.
Proof.
  intros Hpath Hcalls Hfill Hodd Hlast Hget Hstart Hanswer.
  pose proof (@started_step_found (w_run w) r1 actionPath act p
                (clock env (w_ticks w)) Hodd Hlast Hget Hstart) as Hfound.
  destruct (@successActionStep_found r1 actionPath _ (JObj data)
              (clock env (S (w_ticks w))) Hfound)
    as [r2 [Hsucc [Hstatus Hlookup]]].
  exists r2. split; [|split; [|split; [exact Hlookup | split]]].
  - unfold RunAutomationUseCase.runAction. cbv zeta. rewrite <- Hpath.
    rewrite (@calls_service_not_filter act Hcalls). cbn [andb].
    unfold bind at 1. unfold RunActionUseCase.execute at 1, try_catch.
    unfold bind at 1.
    rewrite (@dispatch_calls_service env fillSchema runFilter runService
               findConnection runIntegration act actionPath Hcalls).
    unfold bind at 1.
    rewrite (@fillInputData_started env fillSchema _ p actionPath act w r1 Hfill Hstart).
    rewrite Hanswer. unfold bind at 1. unfold external at 1. unfold ret at 1.
    unfold ret at 1. cbn [truthy]. unfold ret at 1.
    unfold bind at 1. unfold ret at 1.
    unfold bind at 1.
    rewrite (@on_run_Ok env (fun r now => successActionStep r actionPath (JObj data) now)
               (startedWorld w r1) r2 Hsucc).
    cbn [startedWorld w_run w_log w_ticks w_uuids].
    unfold update. unfold bind, get_run, emit, ret.
    cbn [w_run w_log w_ticks w_uuids].
    rewrite <- ?app_assoc. reflexivity.
  - rewrite Hstatus. apply (startActionStep_status _ _ _ _ _ Hstart).
  - unfold isStepExecuted. rewrite Hlookup. reflexivity.
  - unfold isStepExecutedWithSuccess. rewrite Hlookup. reflexivity.
Qed.

(** X25.  An [only-continue-if] filter whose decision has a falsy
    [canContinue] filters a [playing] run: the decision is recorded as the
    output of the step, the run is [filtered] and persisted, no alert is
    sent, and [runAction] answers [false]. *)
Theorem filter_decision_filters_the_run (act : ActionSchema)
        (pathName actionPath : string) (w : World) (p : json) (decision : obj)
        (canContinue : json) (r1 : Run) :
  actionPath = (if pathName =? "" then name act else pathName ++ "." ++ name act) ->
  service act = "filter" ->
  action act = "only-continue-if" ->
  status (w_run w) = playing ->
  fillSchema (RunActionUseCase.params_json act) (getStepsOutput (w_run w)) = Returns p ->
  Nat.odd (List.length (split actionPath)) = true ->
  last (split actionPath) "" = name act ->
  getActionOrPathsStep (w_run w) actionPath = Ok None ->
  startActionStep (w_run w) actionPath act p (clock env (w_ticks w)) = Ok r1 ->
  runFilter p r1 = Returns decision ->
  obj_get "canContinue" decision = Some canContinue ->
  truthy canContinue = false ->
  exists r2,
    runAction act pathName w =
    (Return false,
     {| w_run := r2;
        w_log := w_log w ++ [Updated r1; Updated r2];
        w_ticks := S (S (w_ticks w));
        w_uuids := w_uuids w |}) /\
    status r2 = filtered /\
    getActionOrPathsStep r2 actionPath =
    Ok (Some (SAction {| a_schema := act;
                         a_startedAt := clock env (w_ticks w);
                         a_finishedAt := Some (clock env (S (w_ticks w)));
                         a_input := p;
                         a_output := Value (JObj decision);
                         a_error := Undefined |})).
Proof.
  intros Hpath Hservice Haction Hplaying Hfill Hodd Hlast Hget Hstart Hdecision
         Hcan Hfalsy.
  pose proof (@started_step_found (w_run w) r1 actionPath act p
                (clock env (w_ticks w)) Hodd Hlast Hget Hstart) as Hfound.
  assert (Hplaying1 : status r1 = playing).
  { rewrite (startActionStep_status _ _ _ _ _ Hstart). exact Hplaying. }
  destruct (@filterActionStep_found r1 actionPath _ (JObj decision)
              (clock env (S (w_ticks w))) Hplaying1 Hfound)
    as [r2 [Hfilter [Hfiltered Hlookup]]].
  exists r2. split; [|split; [exact Hfiltered | exact Hlookup]].
  unfold RunAutomationUseCase.runAction. cbv zeta. rewrite <- Hpath.
  unfold bind at 1. unfold RunActionUseCase.execute at 1, try_catch.
  unfold bind at 1. unfold RunActionUseCase.dispatch.
  rewrite Hservice, Haction. cbn [String.eqb Ascii.eqb Bool.eqb andb orb].
  unfold bind at 1.
  rewrite (@fillInputData_started env fillSchema _ p actionPath act w r1 Hfill Hstart).
  unfold bind at 1. unfold get_run at 1. cbn [startedWorld w_run].
  rewrite Hdecision. unfold bind at 1. unfold external at 1. unfold ret at 1.
  unfold ret at 1. cbn [truthy]. unfold ret at 1.
  unfold bind at 1. unfold bind at 1.
  cbn [in_canContinue get_prop]. rewrite Hcan, Hfalsy. cbn [andb negb].
  unfold call at 1. unfold ret at 1. unfold ret at 1. cbn [andb].
  unfold RunAutomationUseCase.filter.
  unfold bind at 1. unfold bind at 1.
  rewrite (@on_run_Ok env (fun r now => filterActionStep r actionPath (JObj decision) now)
             (startedWorld w r1) r2 Hfilter).
  cbn [startedWorld w_run w_log w_ticks w_uuids].
  unfold update. unfold bind, get_run, emit, ret.
  cbn [w_run w_log w_ticks w_uuids].
  rewrite <- ?app_assoc. reflexivity.
Qed.

End ActionOutcomes.

Definition object_runService (_ : ActionSchema) (_ : json) : returned json :=
  Returns (JObj [("ok", JBool true)]).

Definition sample_filter : ActionSchema :=
  {| name := "check"; service := "filter"; action := "only-continue-if";
     params := Params (JBool false) |}.

Lemma service_answer_finishes_the_step_witness :
  exists r2,
    RunAutomationUseCase.runAction sample_env
      (RunActionUseCase.execute sample_env sample_fillSchema sample_runFilter
         object_runService (fun _ => true) sample_runIntegration)
      no_paths (sample_schema "y") "A.p" (sample_world run_with_branch) =
    (Return true,
     {| w_run := r2;
        w_log := w_log (sample_world run_with_branch) ++
                 [Updated run_started_in_branch; Updated r2];
        w_ticks := S (S (w_ticks (sample_world run_with_branch)));
        w_uuids := w_uuids (sample_world run_with_branch) |}) /\
    status r2 = status (w_run (sample_world run_with_branch)) /\
    getActionOrPathsStep r2 "A.p.y" =
    Ok (Some (SAction {| a_schema := sample_schema "y";
                         a_startedAt := clock sample_env
                                          (w_ticks (sample_world run_with_branch));
                         a_finishedAt :=
                           Some (clock sample_env
                                   (S (w_ticks (sample_world run_with_branch))));
                         a_input := JNull;
                         a_output := Value (JObj [("ok", JBool true)]);
                         a_error := Undefined |})) /\
    isStepExecuted r2 "A.p.y" = Ok true /\
    isStepExecutedWithSuccess r2 "A.p.y" = Ok true.
Proof.
  apply (@service_answer_finishes_the_step sample_env sample_fillSchema
           sample_runFilter object_runService (fun _ => true) sample_runIntegration
           no_paths (sample_schema "y") "A.p" "A.p.y"
           (sample_world run_with_branch) JNull [("ok", JBool true)]
           run_started_in_branch);
    reflexivity.
Defined.

Lemma filter_decision_filters_the_run_witness :
  exists r2,
    RunAutomationUseCase.runAction sample_env
      (RunActionUseCase.execute sample_env sample_fillSchema sample_runFilter
         sample_runService (fun _ => true) sample_runIntegration)
      no_paths sample_filter "" (sample_world (sample_run [] playing)) =
    (Return false,
     {| w_run := r2;
        w_log := w_log (sample_world (sample_run [] playing)) ++
                 [Updated (with_actions (sample_run [] playing)
                             [newActionStep sample_filter (JBool false) 1000%Z] 1000%Z);
                  Updated r2];
        w_ticks := S (S (w_ticks (sample_world (sample_run [] playing))));
        w_uuids := w_uuids (sample_world (sample_run [] playing)) |}) /\
    status r2 = filtered /\
    getActionOrPathsStep r2 "check" =
    Ok (Some (SAction {| a_schema := sample_filter;
                         a_startedAt := clock sample_env
                                          (w_ticks (sample_world (sample_run [] playing)));
                         a_finishedAt :=
                           Some (clock sample_env
                                   (S (w_ticks (sample_world (sample_run [] playing)))));
                         a_input := JBool false;
                         a_output := Value (JObj [("canContinue", JBool false)]);
                         a_error := Undefined |})).
Proof.
  apply (@filter_decision_filters_the_run sample_env sample_fillSchema
           sample_runFilter sample_runService (fun _ => true) sample_runIntegration
           no_paths sample_filter "" "check"
           (sample_world (sample_run [] playing)) (JBool false)
           [("canContinue", JBool false)] (JBool false)
           (with_actions (sample_run [] playing)
              [newActionStep sample_filter (JBool false) 1000%Z] 1000%Z));
    reflexivity.
Defined.
